(** * Tile-layout PDF generator: raster decoder, tile catalog, document
    encoder and layout engine.

    A shallow embedding of [png-layout-pdf-cli.ts].  Buffers are lists of
    bytes held as [Z] in [0, 256); JavaScript numbers that count or index
    are [nat], [N] or [Z]; thrown [Error]s are values of [Error], and a
    function that can throw returns [Throws]. *)

From Stdlib Require Import ZArith NArith List String Ascii Bool Lia QArith Lqa.
From Stdlib Require Import DecimalString DecimalNat Sorting.Permutation.
From stdpp Require Import base tactics option list strings sorting.

Local Open Scope Z_scope.
Local Open Scope list_scope.

(** ** Buffers *)

Abbreviation Buffer := (list Z).

Definition is_byte (b : Z) : Prop := 0 <= b < 256.

Definition is_buffer (buf : Buffer) : Prop := Forall is_byte buf.

(** A store into a [Buffer] keeps the low eight bits and is ignored out
    of range; a read out of range gives [undefined], here [None]. *)
Definition writeByte (buf : Buffer) (i : nat) (v : Z) : Buffer :=
  <[i := Z.land v 255]> buf.

(** [Buffer.alloc n]: [n] zero bytes. *)
Definition Buffer_alloc (n : nat) : Buffer := replicate n 0.

(** The four bytes of a 32-bit number, most significant first. *)
Definition be32 (n : Z) : Buffer :=
  [n / 2 ^ 24 mod 256; n / 2 ^ 16 mod 256; n / 2 ^ 8 mod 256; n mod 256].

(** ** Errors

    Every [throw new Error(...)] of the program, one constructor per
    message, and the exceptions of the runtime calls it makes. *)

Inductive Error : Type :=
| ErrSignature                         (* PNGシグネチャが不正です *)
| ErrChunkLength                       (* PNGチャンク長が不正です *)
| ErrMissingChunks                     (* PNGの必須チャンクが不足しています *)
| ErrBitDepth (bitDepth : Z)           (* 未対応のbitDepthです *)
| ErrInterlace                         (* インターレースPNGは未対応です *)
| ErrColorType (colorType : Z)         (* 未対応のcolorTypeです *)
| ErrDataLength (expected actual : N)  (* PNGデータ長が不正です *)
| ErrFilter (filter : option Z)        (* 未対応のPNGフィルタです *)
| ErrBufferRef (offset : Z)            (* バッファ参照エラー *)
| ErrRange                             (* RangeError of readUInt32BE *)
| ErrZlib                              (* inflateSync rejected the data *)
| ErrXrefOffset                        (* xrefオフセットが不正です *)
| ErrNoPngFiles (inputDir : string)    (* PNGファイルが見つかりませんでした *)
| ErrIO (path : string).               (* readdir, readFile, mkdir, writeFile *)

(** The taxonomy of the error-handling design. *)
Inductive ErrorKind : Type :=
| MalformedContainer
| UnsupportedFormat
| EmptyInput
| IoFailure
| InternalFailure.

Definition errorKind (e : Error) : ErrorKind :=
  match e with
  | ErrSignature | ErrChunkLength | ErrMissingChunks
  | ErrDataLength _ _ | ErrFilter _ | ErrBufferRef _ | ErrRange
  | ErrZlib => MalformedContainer
  | ErrBitDepth _ | ErrInterlace | ErrColorType _ => UnsupportedFormat
  | ErrNoPngFiles _ => EmptyInput
  | ErrIO _ => IoFailure
  | ErrXrefOffset => InternalFailure
  end.

Inductive Throws (A : Type) : Type :=
| Ok (a : A)
| Err (e : Error).

Arguments Ok {A} a.
Arguments Err {A} e.

Definition bindT {A B} (m : Throws A) (k : A -> Throws B) : Throws B :=
  match m with
  | Ok a => k a
  | Err e => Err e
  end.

#[global] Instance Throws_bind : MBind Throws := fun A B k m => bindT m k.
#[global] Instance Throws_ret : MRet Throws := fun A a => Ok a.

(** [for (const x of xs) { s = body(x, s) }] where the body may throw. *)
Fixpoint forEachT {X S} (body : X -> S -> Throws S) (xs : list X) (s : S)
  : Throws S :=
  match xs with
  | [] => Ok s
  | x :: rest =>
      match body x s with
      | Ok s' => forEachT body rest s'
      | Err e => Err e
      end
  end.

Lemma forEachT_app {X S} (body : X -> S -> Throws S) xs ys s :
  forEachT body (xs ++ ys) s =
  bindT (forEachT body xs s) (forEachT body ys).
Proof.
  revert s; induction xs as [|x xs IH]; intros s; simpl; [done|].
  destruct (body x s); simpl; auto.
Qed.

Lemma forEachT_Err_inv {X S} (body : X -> S -> Throws S) xs s e :
  forEachT body xs s = Err e -> exists x t, body x t = Err e.
Proof.
  revert s; induction xs as [|x xs IH]; intros s; simpl; [done|].
  destruct (body x s) as [s'|e'] eqn:Hb.
  - apply IH.
  - intros [= <-]. eauto.
Qed.

(** ** Strings

    A string holds characters of one byte; [Buffer.from(s, 'binary')]
    stores one byte per character. *)

Definition LF : string := String "010"%char EmptyString.

Definition Buffer_from (s : string) : Buffer :=
  (fun c => Z.of_N (N_of_ascii c)) <$> list_ascii_of_string s.

(** [n.toString()] for a count, an offset or an object id. *)
Definition toString (n : nat) : string :=
  NilZero.string_of_uint (Nat.to_uint n).

(** [s.padStart(targetLength, pad)] for a pad of one character. *)
Definition padStart (s : string) (targetLength : nat) (pad : ascii) : string :=
  string_of_list_ascii (replicate (targetLength - String.length s) pad) +:+ s.

(** [rows.join(sep)]. *)
Definition join (sep : string) (rows : list string) : string :=
  String.concat sep rows.

(** ** Decimal numerals

    What it means for bytes to be the decimal numeral of a number: at
    least one digit, every byte one of the characters 0..9 (48..57), the
    digits read from the most significant to the least give the number,
    and only the numeral of zero starts with the digit 0. *)
Definition decimalValue (digits : Buffer) : Z :=
  fold_left (fun acc d => 10 * acc + (d - 48)) digits 0.

Definition decimalOf (n : nat) (digits : Buffer) : Prop :=
  digits <> []
  /\ Forall (fun d => 48 <= d <= 57) digits
  /\ decimalValue digits = Z.of_nat n
  /\ (head digits = Some 48 -> digits = [48]).

Lemma string_app_chars (a b : string) :
  list_ascii_of_string (a +:+ b)
  = list_ascii_of_string a ++ list_ascii_of_string b.
Proof.
  induction a as [|c a IH]; [done|].
  change (String c a +:+ b) with (String c (a +:+ b)).
  cbn [list_ascii_of_string app]. by rewrite IH.
Qed.

Lemma string_app_assoc (a b c : string) : (a +:+ b) +:+ c = a +:+ b +:+ c.
Proof.
  induction a as [|x a IH]; [done|].
  change (String x a +:+ b) with (String x (a +:+ b)).
  change (String x (a +:+ b) +:+ c) with (String x ((a +:+ b) +:+ c)).
  by rewrite IH.
Qed.

Lemma Buffer_from_app (a b : string) :
  Buffer_from (a +:+ b) = Buffer_from a ++ Buffer_from b.
Proof. unfold Buffer_from. by rewrite string_app_chars, fmap_app. Qed.

Lemma Buffer_from_join_lines (row : string) (rows : list string) :
  Buffer_from (join LF (row :: rows) +:+ LF)
  = Buffer_from (row +:+ LF)
    ++ mjoin ((fun r => Buffer_from (r +:+ LF)) <$> rows).
Proof.
  revert row. induction rows as [|r rows IH]; intros row.
  - cbn [join String.concat fmap list_fmap mjoin list_join].
    by rewrite app_nil_r.
  - change (join LF (row :: r :: rows))
      with (row +:+ LF +:+ join LF (r :: rows)).
    cbn [fmap list_fmap mjoin list_join]. rewrite <- IH.
    by rewrite !Buffer_from_app, <- !app_assoc.
Qed.

Lemma uint_digits (d : Decimal.uint) :
  Forall (fun b => 48 <= b <= 57) (Buffer_from (NilEmpty.string_of_uint d)).
Proof.
  induction d; cbn; [constructor|..]; (constructor; [lia|exact IHd]).
Qed.

Lemma uint_value (d : Decimal.uint) (acc : nat) :
  fold_left (fun acc d => 10 * acc + (d - 48))
            (Buffer_from (NilEmpty.string_of_uint d)) (Z.of_nat acc)
  = Z.of_nat (Nat.of_uint_acc d acc).
Proof.
  unfold Buffer_from. revert acc.
  induction d as [|d IH|d IH|d IH|d IH|d IH|d IH|d IH|d IH|d IH|d IH];
    intros acc; [done|..];
    cbn [NilEmpty.string_of_uint list_ascii_of_string fmap list_fmap
         fold_left Nat.of_uint_acc];
    rewrite <- IH; f_equal; rewrite Nat.tail_mul_spec;
    cbn [N_of_ascii N_of_digits]; lia.
Qed.

Lemma nzhead_digit (d d' : Decimal.uint) : Decimal.nzhead d <> Decimal.D0 d'.
Proof. induction d; cbn; done. Qed.

Lemma to_uint_normal (n : nat) :
  Nat.to_uint n = Decimal.unorm (Nat.to_uint n).
Proof.
  rewrite <- DecimalNat.Unsigned.to_of.
  by rewrite DecimalNat.Unsigned.of_to.
Qed.

Lemma to_uint_nonnil (n : nat) : Nat.to_uint n <> Decimal.Nil.
Proof.
  rewrite to_uint_normal. unfold Decimal.unorm.
  by destruct (Decimal.nzhead (Nat.to_uint n)).
Qed.

Lemma toString_uint (n : nat) :
  toString n = NilEmpty.string_of_uint (Nat.to_uint n).
Proof.
  unfold toString, NilZero.string_of_uint.
  pose proof (to_uint_nonnil n). by destruct (Nat.to_uint n).
Qed.

Lemma toString_decimal (n : nat) : decimalOf n (Buffer_from (toString n)).
Proof.
  rewrite toString_uint. split; [|split; [|split]].
  - pose proof (to_uint_nonnil n). by destruct (Nat.to_uint n).
  - apply uint_digits.
  - pose proof (uint_value (Nat.to_uint n) 0) as Hvalue.
    unfold decimalValue. change (Z.of_nat 0) with 0 in Hvalue.
    rewrite Hvalue.
    f_equal. apply DecimalNat.Unsigned.of_to.
  - pose proof (to_uint_normal n) as Hnorm.
    destruct (Nat.to_uint n) as [|d| | | | | | | | | ] eqn:E; try done.
    intros _. unfold Decimal.unorm in Hnorm. cbn [Decimal.nzhead] in Hnorm.
    destruct (Decimal.nzhead d) as [|d'| | | | | | | | | ] eqn:Hd;
      try discriminate Hnorm.
    + by injection Hnorm as ->.
    + by apply nzhead_digit in Hd.
Qed.

(** [objects.forEach((x, index) => ...)] over an array that may have
    holes ([None]): a hole is passed over, and still counts in the
    index. *)
Fixpoint forEachIndexed {A S} (f : A -> nat -> S -> S) (index : nat)
    (xs : list (option A)) (s : S) : S :=
  match xs with
  | [] => s
  | None :: rest => forEachIndexed f (Datatypes.S index) rest s
  | Some x :: rest => forEachIndexed f (Datatypes.S index) rest (f x index s)
  end.

(** * zlib, stored blocks only

    [inflateSync] and [deflateSync] belong to the runtime and are
    variables of the decoder.  To run the decoder on concrete files, this
    module gives the part of zlib that needs no Huffman coding: a stream
    of stored (uncompressed) deflate blocks between the two header bytes
    and the Adler-32 trailer.  [inflateSync] rejects anything else. *)

Module Zlib.

Definition adler32 (data : Buffer) : Z :=
  let '(a, b) :=
    fold_left (fun '(a, b) x =>
                 let a' := (a + x) mod 65521 in (a', (b + a') mod 65521))
              data (1, 0) in
  b * 65536 + a.

Fixpoint inflateBlocks (fuel : nat) (input out : Buffer) : Throws Buffer :=
  match fuel with
  | O => Err ErrZlib
  | S fuel' =>
      match input with
      | hdr :: l0 :: l1 :: n0 :: n1 :: rest =>
          let len := l0 + 256 * l1 in
          if negb (Z.land hdr 6 =? 0) then Err ErrZlib
          else if negb (n0 + 256 * n1 =? 65535 - len) then Err ErrZlib
          else if (length rest <? Z.to_nat len)%nat then Err ErrZlib
          else
            let out' := out ++ take (Z.to_nat len) rest in
            let rest' := drop (Z.to_nat len) rest in
            if Z.land hdr 1 =? 1 then
              if bool_decide (rest' = be32 (adler32 out')) then Ok out'
              else Err ErrZlib
            else inflateBlocks fuel' rest' out'
      | _ => Err ErrZlib
      end
  end.

Definition inflateSync (input : Buffer) : Throws Buffer :=
  match input with
  | cmf :: flg :: rest =>
      if (Z.land cmf 15 =? 8) && ((cmf * 256 + flg) mod 31 =? 0)
         && (Z.land flg 32 =? 0)
      then inflateBlocks (length rest) rest []
      else Err ErrZlib
  | _ => Err ErrZlib
  end.

(** One stored block; enough for data below 64 KiB. *)
Definition deflateSync (data : Buffer) : Buffer :=
  let len := Z.of_nat (length data) in
  [120; 1; 1; len mod 256; len / 256 mod 256;
   (65535 - len) mod 256; (65535 - len) / 256 mod 256]
  ++ data ++ be32 (adler32 data).

Example inflate_deflate_sample :
  inflateSync (deflateSync [0; 7; 255]) = Ok [0; 7; 255].
Proof. reflexivity. Qed.

End Zlib.

(** * Raster decoder *)

Module Png.

(** ** Scanline reconstruction *)

Definition paethPredictor (a b c : Z) : Z :=
  let p := a + b - c in
  let pa := Z.abs (p - a) in
  let pb := Z.abs (p - b) in
  let pc := Z.abs (p - c) in
  if (pa <=? pb) && (pa <=? pc) then a
  else if pb <=? pc then b
  else c.

(** The [if (filter === 0) ... else throw] chain of the inner loop. *)
Definition reconstruct (filter : option Z)
    (currentValue leftValue upValue upLeftValue : Z) : Throws Z :=
  match filter with
  | Some 0 => Ok currentValue
  | Some 1 => Ok (Z.land (currentValue + leftValue) 255)
  | Some 2 => Ok (Z.land (currentValue + upValue) 255)
  | Some 3 => Ok (Z.land (currentValue + (leftValue + upValue) / 2) 255)
  | Some 4 =>
      Ok (Z.land
            (currentValue + paethPredictor leftValue upValue upLeftValue) 255)
  | _ => Err (ErrFilter filter)
  end.

(** The body of the inner loop of [unfilterScanlines]: one sample of row
    [row] at byte column [x]. *)
Definition unfilterSample (inflated : Buffer) (stride bytesPerPixel : nat)
    (row x : nat) (raw : Buffer) : Throws Buffer :=
  let rowIn := (row * (stride + 1))%nat in
  let rowOut := (row * stride)%nat in
  let filter := inflated !! rowIn in
  let current := inflated !! (rowIn + 1 + x)%nat in
  let left :=
    if (bytesPerPixel <=? x)%nat
    then raw !! (rowOut + x - bytesPerPixel)%nat else Some 0 in
  let up :=
    if (0 <? row)%nat then raw !! (rowOut - stride + x)%nat else Some 0 in
  let upLeft :=
    if (0 <? row)%nat && (bytesPerPixel <=? x)%nat
    then raw !! (rowOut - stride + x - bytesPerPixel)%nat else Some 0 in
  let currentValue := default 0 current in
  let leftValue := default 0 left in
  let upValue := default 0 up in
  let upLeftValue := default 0 upLeft in
  value ← reconstruct filter currentValue leftValue upValue upLeftValue;
  Ok (writeByte raw (rowOut + x) value).

Definition unfilterRow (inflated : Buffer) (stride bytesPerPixel : nat)
    (row : nat) (raw : Buffer) : Throws Buffer :=
  forEachT (unfilterSample inflated stride bytesPerPixel row)
           (seq 0 stride) raw.

Definition unfilterScanlines (inflated : Buffer)
    (width height bytesPerPixel : N) : Throws Buffer :=
  let stride := (width * bytesPerPixel)%N in
  let expected := (height * (stride + 1))%N in
  if negb (N.of_nat (length inflated) =? expected)%N
  then Err (ErrDataLength expected (N.of_nat (length inflated)))
  else
    let raw := Buffer_alloc (N.to_nat (width * height * bytesPerPixel)) in
    forEachT (unfilterRow inflated (N.to_nat stride) (N.to_nat bytesPerPixel))
             (seq 0 (N.to_nat height)) raw.

(** ** Chunk scanning *)

Definition PNG_SIGNATURE : Buffer := [137; 80; 78; 71; 13; 10; 26; 10].

(** [buffer.readUInt32BE(offset)]: a [RangeError] unless four bytes are
    there. *)
Definition readUInt32BE (buffer : Buffer) (offset : nat) : Throws Z :=
  match drop offset buffer with
  | b0 :: b1 :: b2 :: b3 :: _ =>
      Ok (b0 * 2 ^ 24 + b1 * 2 ^ 16 + b2 * 2 ^ 8 + b3)
  | _ => Err ErrRange
  end.

Definition readByte (buffer : Buffer) (offset : nat) : Throws Z :=
  match buffer !! offset with
  | Some value => Ok value
  | None => Err (ErrBufferRef (Z.of_nat offset))
  end.

(** [buffer.subarray(start, end)], both ends clamped to the buffer. *)
Definition subarray (buffer : Buffer) (start end_ : nat) : Buffer :=
  take (end_ - start) (drop start buffer).

(** [buffer.toString('ascii', start, end)]: Node clears the high bit of
    every byte when it decodes as 'ascii'.  The string is kept as the list
    of its character codes. *)
Definition toStringAscii (buffer : Buffer) (start end_ : nat) : list Z :=
  (fun b => Z.land b 127) <$> subarray buffer start end_.

Definition IHDR : list Z := [73; 72; 68; 82].
Definition IDAT : list Z := [73; 68; 65; 84].
Definition IEND : list Z := [73; 69; 78; 68].

(** The variables of [parsePng] that the chunk loop assigns. *)
Record ScanState : Type := mkScanState {
  width : Z;
  height : Z;
  bitDepth : Z;
  colorType : Z;
  interlace : Z;
  idatChunks : list Buffer
}.

Definition initialScanState : ScanState :=
  {| width := 0; height := 0; bitDepth := 0; colorType := 0;
     interlace := 0; idatChunks := [] |}.

(** How one pass through the loop body ends: at [offset = dataEnd + 4],
    or at [break]. *)
Inductive Step : Type :=
| Next (offset : nat) (s : ScanState)
| Break (s : ScanState).

Definition scanChunk (buffer : Buffer) (offset : nat) (s : ScanState)
  : Throws Step :=
  length_ ← readUInt32BE buffer offset;
  let type := toStringAscii buffer (offset + 4) (offset + 8) in
  let dataStart := (offset + 8)%nat in
  if Z.of_nat (length buffer) <? Z.of_nat dataStart + length_ + 4
  then Err ErrChunkLength
  else
    let dataEnd := (dataStart + Z.to_nat length_)%nat in
    let data := subarray buffer dataStart dataEnd in
    if decide (type = IHDR) then
      width' ← readUInt32BE data 0;
      height' ← readUInt32BE data 4;
      bitDepth' ← readByte data 8;
      colorType' ← readByte data 9;
      interlace' ← readByte data 12;
      Ok (Next (dataEnd + 4)
               {| width := width'; height := height'; bitDepth := bitDepth';
                  colorType := colorType'; interlace := interlace';
                  idatChunks := idatChunks s |})
    else if decide (type = IDAT) then
      Ok (Next (dataEnd + 4)
               {| width := width s; height := height s;
                  bitDepth := bitDepth s; colorType := colorType s;
                  interlace := interlace s;
                  idatChunks := idatChunks s ++ [data] |})
    else if decide (type = IEND) then Ok (Break s)
    else Ok (Next (dataEnd + 4) s).

(** [while (offset + 8 <= buffer.length) { ... }].  Every pass moves
    [offset] forward by at least 12, so [length buffer] passes are never
    used up ([scanChunks_fuel]). *)
Fixpoint scanChunks (fuel : nat) (buffer : Buffer) (offset : nat)
    (s : ScanState) : Throws ScanState :=
  if (offset + 8 <=? length buffer)%nat then
    match fuel with
    | O => Ok s
    | S fuel' =>
        step ← scanChunk buffer offset s;
        match step with
        | Next offset' s' => scanChunks fuel' buffer offset' s'
        | Break s' => Ok s'
        end
    end
  else Ok s.

Record ParsedPng : Type := mkParsedPng {
  png_width : Z;
  png_height : Z;
  png_bitDepth : Z;
  rgbDeflated : Buffer;
  alphaDeflated : option Buffer
}.

Section Decoder.

(** zlib's [inflateSync] and [deflateSync]. *)
Variable inflateSync : Buffer -> Throws Buffer.
Variable deflateSync : Buffer -> Buffer.

(** [parsePng] after the chunk loop. *)
Definition decodeImage (s : ScanState) : Throws ParsedPng :=
  if (width s =? 0) || (height s =? 0)
     || bool_decide (idatChunks s = [])
  then Err ErrMissingChunks
  else if negb (bitDepth s =? 8) then Err (ErrBitDepth (bitDepth s))
  else if negb (interlace s =? 0) then Err ErrInterlace
  else if negb (colorType s =? 0) && negb (colorType s =? 2)
          && negb (colorType s =? 4) && negb (colorType s =? 6)
  then Err (ErrColorType (colorType s))
  else
    let compressed := mjoin (idatChunks s) in
    inflated ← inflateSync compressed;
    let bytesPerPixel : N :=
      if colorType s =? 6 then 4%N
      else if colorType s =? 4 then 2%N
      else if colorType s =? 2 then 3%N else 1%N in
    raw ← unfilterScanlines inflated (Z.to_N (width s)) (Z.to_N (height s))
                            bytesPerPixel;
    let pixels := Z.to_nat (width s * height s) in
    if colorType s =? 2 then
      Ok (mkParsedPng (width s) (height s) (bitDepth s) (deflateSync raw) None)
    else if colorType s =? 0 then
      rgb ← forEachT
              (fun i rgb =>
                 gray ← readByte raw i;
                 let dst := (i * 3)%nat in
                 Ok (writeByte (writeByte (writeByte rgb dst gray)
                                          (dst + 1) gray) (dst + 2) gray))
              (seq 0 pixels) (Buffer_alloc (pixels * 3));
      Ok (mkParsedPng (width s) (height s) (bitDepth s) (deflateSync rgb) None)
    else if colorType s =? 4 then
      planes ← forEachT
                 (fun i '(rgb, alpha) =>
                    let src := (i * 2)%nat in
                    gray ← readByte raw src;
                    a ← readByte raw (src + 1);
                    let dst := (i * 3)%nat in
                    Ok (writeByte (writeByte (writeByte rgb dst gray)
                                             (dst + 1) gray) (dst + 2) gray,
                        writeByte alpha i a))
                 (seq 0 pixels)
                 (Buffer_alloc (pixels * 3), Buffer_alloc pixels);
      Ok (mkParsedPng (width s) (height s) (bitDepth s)
                      (deflateSync planes.1) (Some (deflateSync planes.2)))
    else
      planes ← forEachT
                 (fun i '(rgb, alpha) =>
                    let src := (i * 4)%nat in
                    let dst := (i * 3)%nat in
                    r ← readByte raw src;
                    g ← readByte raw (src + 1);
                    b ← readByte raw (src + 2);
                    a ← readByte raw (src + 3);
                    Ok (writeByte (writeByte (writeByte rgb dst r)
                                             (dst + 1) g) (dst + 2) b,
                        writeByte alpha i a))
                 (seq 0 pixels)
                 (Buffer_alloc (pixels * 3), Buffer_alloc pixels);
      Ok (mkParsedPng (width s) (height s) (bitDepth s)
                      (deflateSync planes.1) (Some (deflateSync planes.2))).

Definition parsePng (buffer : Buffer) : Throws ParsedPng :=
  if (length buffer <? 8)%nat
     || negb (bool_decide (subarray buffer 0 8 = PNG_SIGNATURE))
  then Err ErrSignature
  else
    s ← scanChunks (length buffer) buffer 8 initialScanState;
    decodeImage s.

End Decoder.

(** ** Files as chunk lists

    A file laid out as the container prescribes: the signature, then
    chunks, each a big-endian payload length, four type bytes, the payload
    and four checksum bytes.  The type, as the decoder reads it, is
    [typeTag]. *)

Record Chunk : Type := mkChunk {
  chunkType : Buffer;
  chunkData : Buffer;
  chunkCrc : Buffer
}.

Definition wf_chunk (c : Chunk) : Prop :=
  length (chunkType c) = 4%nat /\ length (chunkCrc c) = 4%nat
  /\ Z.of_nat (length (chunkData c)) < 2 ^ 32.

Definition encodeChunk (c : Chunk) : Buffer :=
  be32 (Z.of_nat (length (chunkData c)))
  ++ chunkType c ++ chunkData c ++ chunkCrc c.

Definition encodeChunks (cs : list Chunk) : Buffer :=
  mjoin (encodeChunk <$> cs).

Definition typeTag (c : Chunk) : list Z :=
  (fun b => Z.land b 127) <$> chunkType c.

(** The chunks whose type the decoder acts on. *)
Definition known (c : Chunk) : Prop :=
  typeTag c = IHDR \/ typeTag c = IDAT \/ typeTag c = IEND.

#[global] Instance known_dec (c : Chunk) : Decision (known c).
Proof. unfold known. apply _. Defined.

(** The type of the chunk reads as the four letters [name]: each of its
    four type bytes, with bit 7 cleared, is the code of the letter.  For
    type bytes below 128 these are the bytes themselves. *)
Definition readsAs (c : Chunk) (name : string) : Prop :=
  (fun b => Z.land b 127) <$> chunkType c = Buffer_from name.

#[global] Instance readsAs_dec (c : Chunk) (name : string) :
  Decision (readsAs c name).
Proof. unfold readsAs. apply _. Defined.

(** A chunk of another type than the three the decoder acts on. *)
Definition ancillary (c : Chunk) : Prop :=
  ~ readsAs c "IHDR" /\ ~ readsAs c "IDAT" /\ ~ readsAs c "IEND".

#[global] Instance ancillary_dec (c : Chunk) : Decision (ancillary c).
Proof. unfold ancillary. apply _. Defined.

(** What one chunk does to the variables of the loop; [None] is
    [break]. *)
Definition absorb (c : Chunk) (s : ScanState) : Throws (option ScanState) :=
  let data := chunkData c in
  if decide (typeTag c = IHDR) then
    width' ← readUInt32BE data 0;
    height' ← readUInt32BE data 4;
    bitDepth' ← readByte data 8;
    colorType' ← readByte data 9;
    interlace' ← readByte data 12;
    Ok (Some {| width := width'; height := height'; bitDepth := bitDepth';
                colorType := colorType'; interlace := interlace';
                idatChunks := idatChunks s |})
  else if decide (typeTag c = IDAT) then
    Ok (Some {| width := width s; height := height s;
                bitDepth := bitDepth s; colorType := colorType s;
                interlace := interlace s;
                idatChunks := idatChunks s ++ [data] |})
  else if decide (typeTag c = IEND) then Ok None
  else Ok (Some s).

(** The loop over a list of chunks: the state after the last one
    ([inl]), or the state at the first terminator ([inr]). *)
Fixpoint absorbAll (cs : list Chunk) (s : ScanState)
  : Throws (ScanState + ScanState) :=
  match cs with
  | [] => Ok (inl s)
  | c :: rest =>
      r ← absorb c s;
      match r with
      | Some s' => absorbAll rest s'
      | None => Ok (inr s)
      end
  end.

(** Where the chunk loop ends on what follows the chunks: fewer than 8
    bytes are left, or a terminator chunk comes (whatever follows it), or
    the next declared length runs past the end of the file. *)
Inductive stops (tail : Buffer) : Prop :=
| stops_end :
    (length tail < 8)%nat -> stops tail
| stops_terminator (iend : Chunk) (rest : Buffer) :
    wf_chunk iend -> typeTag iend = IEND ->
    tail = encodeChunk iend ++ rest -> stops tail
| stops_overrun (len : Z) :
    (8 <= length tail)%nat -> readUInt32BE tail 0 = Ok len ->
    Z.of_nat (length tail) < 8 + len + 4 -> stops tail.

(** *** The forward filter

    The decoder has no encoder beside it.  [filterScanlines] is the
    forward filter as the specification words it: a filtered sample is the
    raw sample minus the predictor of its filter, modulo 256, a neighbour
    outside the image counting as 0; each row is prefixed by its selector. *)

Definition predictor (filter left up upLeft : Z) : Z :=
  match filter with
  | 1 => left
  | 2 => up
  | 3 => (left + up) / 2
  | 4 => paethPredictor left up upLeft
  | _ => 0
  end.

Definition filterSample (raw : Buffer) (stride bytesPerPixel : nat)
    (filter : Z) (row x : nat) : Z :=
  let sample i := default 0 (raw !! i) in
  let rowOut := (row * stride)%nat in
  let left :=
    if (bytesPerPixel <=? x)%nat
    then sample (rowOut + x - bytesPerPixel)%nat else 0 in
  let up := if (0 <? row)%nat then sample (rowOut - stride + x)%nat else 0 in
  let upLeft :=
    if (0 <? row)%nat && (bytesPerPixel <=? x)%nat
    then sample (rowOut - stride + x - bytesPerPixel)%nat else 0 in
  (sample (rowOut + x)%nat - predictor filter left up upLeft) mod 256.

Definition filterRow (raw : Buffer) (stride bytesPerPixel : nat)
    (row : nat) (filter : Z) : Buffer :=
  filter :: (filterSample raw stride bytesPerPixel filter row
               <$> seq 0 stride).

Definition filterScanlines (raw : Buffer) (width bytesPerPixel : N)
    (filters : list Z) : Buffer :=
  mjoin (imap (filterRow raw (N.to_nat (width * bytesPerPixel))
                         (N.to_nat bytesPerPixel)) filters).

(** ** Loop invariants *)

Lemma forEachT_seq_inv {S} (body : nat -> S -> Throws S)
    (P : nat -> S -> Prop) (n a : nat) (s : S) :
  P a s ->
  (forall i t, (a <= i < a + n)%nat -> P i t ->
     exists t', body i t = Ok t' /\ P (Datatypes.S i) t') ->
  exists s', forEachT body (seq a n) s = Ok s' /\ P (a + n)%nat s'.
Proof.
  revert a s; induction n as [|n IH]; intros a s HP Hstep; simpl.
  - exists s. by rewrite Nat.add_0_r.
  - destruct (Hstep a s) as (t & -> & HP'); [lia|done|].
    destruct (IH (Datatypes.S a) t) as (s' & Hs' & HP''); [done| |].
    + intros i u Hi. apply Hstep. lia.
    + exists s'. split; [done|]. by replace (a + Datatypes.S n)%nat
        with (Datatypes.S a + n)%nat by lia.
Qed.

Lemma land_255 (v : Z) : Z.land v 255 = v mod 256.
Proof. change 255 with (Z.ones 8). by rewrite Z.land_ones. Qed.

Lemma unpredict (o p : Z) :
  is_byte o -> Z.land (Z.land ((o - p) mod 256 + p) 255) 255 = o.
Proof.
  intros Ho. rewrite !land_255, Z.mod_mod by lia.
  rewrite Zplus_mod_idemp_l. replace (o - p + p) with o by lia.
  apply Z.mod_small. exact Ho.
Qed.

(** [agree n st raw]: the buffer under reconstruction holds the first
    [n] samples of [raw]. *)
Definition agree (n : nat) (st raw : Buffer) : Prop :=
  length st = length raw /\ forall i, (i < n)%nat -> st !! i = raw !! i.

Lemma unfilterSample_inverts inflated raw st stride bpp row x filter :
  is_buffer raw ->
  (0 < bpp)%nat ->
  (row * stride + x < length raw)%nat ->
  (x < stride)%nat ->
  0 <= filter <= 4 ->
  inflated !! (row * (stride + 1))%nat = Some filter ->
  inflated !! (row * (stride + 1) + 1 + x)%nat
    = Some (filterSample raw stride bpp filter row x) ->
  agree (row * stride + x) st raw ->
  exists st', unfilterSample inflated stride bpp row x st = Ok st'
              /\ agree (row * stride + Datatypes.S x) st' raw.
Proof.
  intros Hraw Hbpp Hlen Hx Hf Hsel Hcur [Hl Hag].
  destruct (lookup_lt_is_Some_2 raw (row * stride + x)%nat Hlen) as [o Ho].
  assert (Hbo : is_byte o).
  { eapply Forall_lookup_1; [exact Hraw|exact Ho]. }
  unfold unfilterSample. rewrite Hsel, Hcur. unfold filterSample.
  rewrite Ho. cbn [default].
  assert (Hup : (0 < row)%nat -> (row * stride - stride + x < row * stride + x)%nat)
    by (intros; nia).
  set (left := if (bpp <=? x)%nat then _ else Some 0).
  set (up := if (0 <? row)%nat then _ else Some 0).
  set (upLeft := if (0 <? row)%nat && (bpp <=? x)%nat then _ else Some 0).
  set (left' := if (bpp <=? x)%nat then _ else 0).
  set (up' := if (0 <? row)%nat then _ else 0).
  set (upLeft' := if (0 <? row)%nat && (bpp <=? x)%nat then _ else 0).
  assert (default 0 left = left') as ->.
  { subst left left'. destruct (Nat.leb_spec bpp x); [|done].
    by rewrite Hag by lia. }
  assert (default 0 up = up') as ->.
  { subst up up'. destruct (Nat.ltb_spec 0 row); [|done].
    by rewrite Hag by auto. }
  assert (default 0 upLeft = upLeft') as ->.
  { subst upLeft upLeft'.
    destruct (Nat.ltb_spec 0 row); [|done].
    destruct (Nat.leb_spec bpp x); [|done]. cbn [andb].
    by rewrite Hag by (specialize (Hup ltac:(done)); lia). }
  set (st' := writeByte st (row * stride + x) o).
  assert (Hst' : agree (row * stride + Datatypes.S x) st' raw).
  { subst st'. unfold writeByte. split; [by rewrite length_insert|].
    intros i Hi. destruct (decide (i = (row * stride + x)%nat)) as [->|Hne].
    - rewrite list_lookup_insert_eq by lia.
      rewrite Ho, land_255. f_equal. apply Z.mod_small, Hbo.
    - rewrite list_lookup_insert_ne by done. apply Hag. lia. }
  exists st'. split; [|done].
  assert (filter = 0 \/ filter = 1 \/ filter = 2 \/ filter = 3 \/ filter = 4)
    as Hcases by lia.
  subst st'. unfold writeByte.
  destruct Hcases as [->|[->|[->|[->| ->]]]];
    cbn [reconstruct predictor mbind Throws_bind bindT];
    do 2 f_equal; unfold id;
    rewrite (land_255 o), (Z.mod_small o 256) by exact Hbo;
    [|by apply unpredict..].
  rewrite Z.sub_0_r, land_255, Z.mod_mod by lia. apply Z.mod_small, Hbo.
Qed.

Lemma length_filterRow raw stride bpp row f :
  length (filterRow raw stride bpp row f) = (stride + 1)%nat.
Proof.
  unfold filterRow. cbn [length]. rewrite length_fmap, length_seq. lia.
Qed.

Lemma filterRows_same_length raw stride bpp filters :
  Forall (fun l : Buffer => length l = (stride + 1)%nat)
         (imap (filterRow raw stride bpp) filters).
Proof.
  apply Forall_lookup_2. intros i l Hl.
  apply list_lookup_imap_Some in Hl as (f & _ & ->).
  apply length_filterRow.
Qed.

Lemma length_filterRows raw stride bpp filters :
  length (mjoin (imap (filterRow raw stride bpp) filters))
  = (length filters * (stride + 1))%nat.
Proof.
  rewrite length_join.
  rewrite (sum_list_fmap_same (stride + 1))
    by apply filterRows_same_length.
  by rewrite length_imap.
Qed.

Lemma filterRows_lookup raw stride bpp filters row f i :
  filters !! row = Some f ->
  (i < stride + 1)%nat ->
  mjoin (imap (filterRow raw stride bpp) filters)
    !! (row * (stride + 1) + i)%nat
  = filterRow raw stride bpp row f !! i.
Proof.
  intros Hf Hi.
  destruct (lookup_lt_is_Some_2 (filterRow raw stride bpp row f) i)
    as [v Hv]; [by rewrite length_filterRow|].
  rewrite Hv.
  apply (join_lookup_Some_same_length' (stride + 1));
    [apply filterRows_same_length|done|].
  exists (filterRow raw stride bpp row f). split; [|done].
  by rewrite list_lookup_imap, Hf.
Qed.

Lemma unfilterRow_inverts raw st width bpp height row filters f :
  is_buffer raw ->
  length raw = (height * (width * bpp))%nat ->
  (row < height)%nat ->
  filters !! row = Some f ->
  0 <= f <= 4 ->
  agree (row * (width * bpp)) st raw ->
  exists st',
    unfilterRow (mjoin (imap (filterRow raw (width * bpp) bpp) filters))
                (width * bpp) bpp row st = Ok st'
    /\ agree (Datatypes.S row * (width * bpp)) st' raw.
Proof.
  intros Hraw Hlen Hrow Hf Hrange Hag. unfold unfilterRow.
  set (stride := (width * bpp)%nat) in *.
  destruct (forEachT_seq_inv
              (unfilterSample
                 (mjoin (imap (filterRow raw stride bpp) filters))
                 stride bpp row)
              (fun x t => agree (row * stride + x) t raw) stride 0 st)
    as (st' & Hrun & Hag').
  - by rewrite Nat.add_0_r.
  - intros x t Hx Ht.
    apply (unfilterSample_inverts _ raw t stride bpp row x f);
      try done; try lia.
    + subst stride. nia.
    + rewrite <- (Nat.add_0_r (row * (stride + 1))).
      by rewrite (filterRows_lookup _ _ _ _ _ f) by (done || lia).
    + rewrite <- Nat.add_assoc.
      rewrite (filterRows_lookup _ _ _ _ _ f) by (done || lia).
      unfold filterRow. replace (1 + x)%nat with (Datatypes.S x) by lia.
      cbn [lookup list_lookup].
      etrans; [apply list_lookup_fmap|].
      by rewrite lookup_seq_lt by lia.
  - exists st'. split; [done|].
    by replace (Datatypes.S row * stride)%nat
      with (row * stride + (0 + stride))%nat by lia.
Qed.

Lemma unfilterRows_invert raw width bpp height filters :
  is_buffer raw ->
  length raw = (height * (width * bpp))%nat ->
  length filters = height ->
  Forall (fun f => 0 <= f <= 4) filters ->
  forEachT (unfilterRow (mjoin (imap (filterRow raw (width * bpp) bpp) filters))
                        (width * bpp) bpp)
           (seq 0 height) (Buffer_alloc (length raw)) = Ok raw.
Proof.
  intros Hraw Hlen Hfl Hrange.
  destruct (forEachT_seq_inv
              (unfilterRow
                 (mjoin (imap (filterRow raw (width * bpp) bpp) filters))
                 (width * bpp) bpp)
              (fun row t => agree (row * (width * bpp)) t raw)
              height 0 (Buffer_alloc (length raw)))
    as (st' & Hrun & [Hl Hag]).
  - split; [apply length_replicate|]. intros i Hi. lia.
  - intros row t Hrow Ht.
    destruct (lookup_lt_is_Some_2 filters row) as [f Hf]; [lia|].
    apply (unfilterRow_inverts raw t width bpp height row filters f);
      try done; try lia.
    eapply Forall_lookup_1 in Hrange; [exact Hrange|exact Hf].
  - rewrite Hrun. f_equal. apply list_eq. intros i.
    destruct (decide (i < length raw)%nat) as [Hi|Hi].
    + apply Hag. lia.
    + rewrite !lookup_ge_None_2 by lia. done.
Qed.

Lemma reconstruct_Err filter c l u ul e :
  reconstruct filter c l u ul = Err e -> e = ErrFilter filter.
Proof.
  unfold reconstruct. destruct filter as [f|]; [|congruence].
  destruct f as [|p|p]; try congruence.
  do 3 (try destruct p as [p|p|]); congruence.
Qed.

Lemma unfilterSample_Err inflated stride bpp row x st e :
  unfilterSample inflated stride bpp row x st = Err e ->
  e = ErrFilter (inflated !! (row * (stride + 1))%nat).
Proof.
  unfold unfilterSample. cbn [mbind Throws_bind bindT].
  destruct (reconstruct _ _ _ _ _) as [v|e'] eqn:Hr; [done|].
  intros [= <-]. by apply reconstruct_Err in Hr.
Qed.

Lemma unfilterRow_bad_selector inflated stride bpp row st f :
  (0 < stride)%nat ->
  inflated !! (row * (stride + 1))%nat = Some f ->
  4 < f ->
  unfilterRow inflated stride bpp row st = Err (ErrFilter (Some f)).
Proof.
  intros Hs Hf Hbad. unfold unfilterRow.
  destruct stride as [|k]; [lia|]. cbn [seq forEachT].
  unfold unfilterSample at 1. rewrite Hf.
  assert (forall c l u ul, reconstruct (Some f) c l u ul
                           = Err (ErrFilter (Some f))) as ->; [|done].
  intros. unfold reconstruct.
  destruct f as [|p|p]; try lia.
  do 3 (try destruct p as [p|p|]); try done; lia.
Qed.

Lemma unfilterRows_bad_selector inflated stride bpp f row n a st :
  (0 < stride)%nat ->
  (a <= row < a + n)%nat ->
  inflated !! (row * (stride + 1))%nat = Some f ->
  4 < f ->
  exists filter,
    forEachT (unfilterRow inflated stride bpp) (seq a n) st
    = Err (ErrFilter filter).
Proof.
  intros Hs Hrow Hf Hbad. revert a st Hrow.
  induction n as [|n IH]; intros a st Hrow; [lia|]. cbn [seq forEachT].
  destruct (unfilterRow inflated stride bpp a st) as [st'|e] eqn:Ha.
  - destruct (decide (a = row)) as [->|Hne].
    + by rewrite (unfilterRow_bad_selector _ _ _ _ _ f) in Ha.
    + apply IH. lia.
  - apply forEachT_Err_inv in Ha as (x & t & Ha).
    apply unfilterSample_Err in Ha. subst e. by eexists.
Qed.

(** ** Chunk scanning lemmas *)

Lemma readUInt32BE_be32 (n : Z) (rest : Buffer) :
  0 <= n < 2 ^ 32 -> readUInt32BE (be32 n ++ rest) 0 = Ok n.
Proof.
  intros Hn. unfold readUInt32BE, be32. cbn [drop app]. f_equal.
  change (2 ^ 24) with 16777216. change (2 ^ 16) with 65536.
  change (2 ^ 8) with 256. change (2 ^ 32) with 4294967296 in Hn.
  Z.div_mod_to_equations. lia.
Qed.

Lemma readUInt32BE_prefix (p t : Buffer) (k : nat) :
  readUInt32BE (p ++ t) (length p + k) = readUInt32BE t k.
Proof. unfold readUInt32BE. by rewrite drop_app_add. Qed.

Lemma subarray_prefix (p t : Buffer) (a b : nat) :
  subarray (p ++ t) (length p + a) (length p + b) = subarray t a b.
Proof. unfold subarray. rewrite drop_app_add. f_equal. lia. Qed.

(** The same pass, seen from a buffer with [n] more bytes in front. *)
Definition shiftStep (n : nat) (r : Throws Step) : Throws Step :=
  match r with
  | Ok (Next o s) => Ok (Next (n + o) s)
  | _ => r
  end.

Lemma scanChunk_prefix (p t : Buffer) (k : nat) (s : ScanState) :
  scanChunk (p ++ t) (length p + k) s = shiftStep (length p) (scanChunk t k s).
Proof.
  unfold scanChunk. rewrite readUInt32BE_prefix.
  destruct (readUInt32BE t k) as [len|e]; [|done].
  cbn [mbind Throws_bind bindT]. unfold toStringAscii.
  rewrite <- !(Nat.add_assoc (length p) k).
  rewrite !subarray_prefix, length_app.
  replace (Z.of_nat (length p + length t)
           <? Z.of_nat (length p + (k + 8)) + len + 4)
    with (Z.of_nat (length t) <? Z.of_nat (k + 8) + len + 4).
  2:{ destruct (Z.ltb_spec (Z.of_nat (length t)) (Z.of_nat (k + 8) + len + 4));
      symmetry; [apply Z.ltb_lt|apply Z.ltb_ge]; lia. }
  destruct (Z.of_nat (length t) <? Z.of_nat (k + 8) + len + 4); [done|].
  rewrite <- !(Nat.add_assoc (length p) (k + 8)), subarray_prefix.
  set (data := subarray t (k + 8) (k + 8 + Z.to_nat len)).
  repeat case_decide; cbn [shiftStep]; try done.
  - destruct (readUInt32BE data 0); [|done].
    destruct (readUInt32BE data 4); [|done].
    destruct (readByte data 8); [|done].
    destruct (readByte data 9); [|done].
    destruct (readByte data 12); [|done].
    cbn [mbind Throws_bind bindT shiftStep]. do 2 f_equal. lia.
  - do 2 f_equal. lia.
  - do 2 f_equal. lia.
Qed.

Lemma length_encodeChunk (c : Chunk) :
  wf_chunk c -> length (encodeChunk c) = (12 + length (chunkData c))%nat.
Proof.
  intros (Ht & Hc & _). unfold encodeChunk.
  rewrite !length_app, Ht, Hc. cbn [length be32]. lia.
Qed.

Lemma scanChunk_encodeChunk (c : Chunk) (rest : Buffer) (s : ScanState) :
  wf_chunk c ->
  scanChunk (encodeChunk c ++ rest) 0 s =
  match absorb c s with
  | Ok (Some s') => Ok (Next (length (encodeChunk c)) s')
  | Ok None => Ok (Break s)
  | Err e => Err e
  end.
Proof.
  intros Hwf. pose proof (length_encodeChunk c Hwf) as Hlen.
  destruct Hwf as (Ht & Hc & Hd).
  assert (Hread : readUInt32BE (encodeChunk c ++ rest) 0
                  = Ok (Z.of_nat (length (chunkData c)))).
  { unfold encodeChunk. rewrite <- app_assoc.
    apply readUInt32BE_be32. lia. }
  unfold scanChunk. rewrite Hread.
  cbn [mbind Throws_bind bindT]. rewrite Nat2Z.id, length_app, Hlen.
  replace (Z.of_nat (12 + length (chunkData c) + length rest)
           <? Z.of_nat (0 + 8) + Z.of_nat (length (chunkData c)) + 4)
    with false by (symmetry; apply Z.ltb_ge; lia).
  assert (Htype : toStringAscii (encodeChunk c ++ rest) (0 + 4) (0 + 8)
                  = typeTag c).
  { unfold toStringAscii, typeTag, subarray, encodeChunk. f_equal.
    cbn [be32 app drop Nat.add Nat.sub]. rewrite <- app_assoc, drop_0.
    by rewrite take_app_length' by done. }
  assert (Hdata : subarray (encodeChunk c ++ rest) (0 + 8)
                           (0 + 8 + length (chunkData c)) = chunkData c).
  { unfold subarray, encodeChunk. cbn [be32 app Nat.add].
    replace (8 + length (chunkData c) - 8)%nat
      with (length (chunkData c)) by lia.
    rewrite <- !app_assoc.
    change (drop 8 (?a :: ?b :: ?c :: ?d :: ?l)) with (drop 4 l).
    rewrite drop_app_length' by done.
    by rewrite take_app_length' by lia. }
  rewrite Htype, Hdata. unfold absorb.
  repeat case_decide; try done.
  - destruct (readUInt32BE (chunkData c) 0); [|done].
    destruct (readUInt32BE (chunkData c) 4); [|done].
    destruct (readByte (chunkData c) 8); [|done].
    destruct (readByte (chunkData c) 9); [|done].
    destruct (readByte (chunkData c) 12); [|done].
    cbn [mbind Throws_bind bindT]. do 2 f_equal. lia.
  - do 2 f_equal. lia.
  - do 2 f_equal. lia.
Qed.

Lemma scanChunks_unfold fuel buffer offset s :
  scanChunks fuel buffer offset s =
  if (offset + 8 <=? length buffer)%nat then
    match fuel with
    | O => Ok s
    | S fuel' =>
        step ← scanChunk buffer offset s;
        match step with
        | Next offset' s' => scanChunks fuel' buffer offset' s'
        | Break s' => Ok s'
        end
    end
  else Ok s.
Proof. by destruct fuel. Qed.

Lemma scanChunk_advances buffer offset s offset' s' :
  scanChunk buffer offset s = Ok (Next offset' s') -> (offset < offset')%nat.
Proof.
  unfold scanChunk.
  destruct (readUInt32BE buffer offset) as [len|]; [|done].
  cbn [mbind Throws_bind bindT]. case_match; [done|].
  set (data := subarray _ _ _).
  repeat case_decide; try done.
  - destruct (readUInt32BE data 0); [|done].
    destruct (readUInt32BE data 4); [|done].
    destruct (readByte data 8); [|done].
    destruct (readByte data 9); [|done].
    destruct (readByte data 12); [|done].
    cbn [mbind Throws_bind bindT]. intros [= <- _]. lia.
  - intros [= <- _]. lia.
  - intros [= <- _]. lia.
Qed.

(** The loop never runs out of passes: more fuel changes nothing. *)
Lemma scanChunks_fuel fuel1 fuel2 buffer offset s :
  (length buffer <= offset + fuel1)%nat ->
  (length buffer <= offset + fuel2)%nat ->
  scanChunks fuel1 buffer offset s = scanChunks fuel2 buffer offset s.
Proof.
  revert fuel2 offset s.
  induction fuel1 as [|fuel1 IH]; intros fuel2 offset s H1 H2;
    rewrite (scanChunks_unfold _ buffer), (scanChunks_unfold fuel2).
  - destruct (Nat.leb_spec (offset + 8) (length buffer)); [lia|done].
  - destruct (Nat.leb_spec (offset + 8) (length buffer)); [|done].
    destruct fuel2 as [|fuel2]; [lia|].
    destruct (scanChunk buffer offset s) as [[offset' s'|s']|e] eqn:Hstep;
      cbn [mbind Throws_bind bindT]; try done.
    apply scanChunk_advances in Hstep. apply IH; lia.
Qed.

Lemma scanChunks_prefix fuel (p t : Buffer) (k : nat) (s : ScanState) :
  scanChunks fuel (p ++ t) (length p + k) s = scanChunks fuel t k s.
Proof.
  revert k s. induction fuel as [|fuel IH]; intros k s;
    rewrite (scanChunks_unfold _ (p ++ t)), (scanChunks_unfold _ t);
    rewrite length_app;
    replace (length p + k + 8 <=? length p + length t)%nat
      with (k + 8 <=? length t)%nat
      by (destruct (Nat.leb_spec (k + 8) (length t));
          symmetry; [apply Nat.leb_le|apply Nat.leb_gt]; lia);
    (destruct (k + 8 <=? length t)%nat; [|done]); [done|].
  rewrite scanChunk_prefix.
  destruct (scanChunk t k s) as [[offset' s'|s']|e];
    cbn [shiftStep mbind Throws_bind bindT]; [apply IH|done..].
Qed.

Lemma encodeChunks_cons c cs :
  encodeChunks (c :: cs) = encodeChunk c ++ encodeChunks cs.
Proof. done. Qed.

Lemma encodeChunks_app cs1 cs2 :
  encodeChunks (cs1 ++ cs2) = encodeChunks cs1 ++ encodeChunks cs2.
Proof.
  induction cs1 as [|c cs1 IH]; [done|].
  cbn [app]. by rewrite !encodeChunks_cons, IH, app_assoc.
Qed.

(** The chunk loop over a file that starts with whole chunks. *)
Lemma scanChunks_encodeChunks (cs : list Chunk) (tail : Buffer) :
  Forall wf_chunk cs ->
  forall fuel s,
    (length (encodeChunks cs ++ tail) <= fuel)%nat ->
    scanChunks fuel (encodeChunks cs ++ tail) 0 s =
    r ← absorbAll cs s;
    match r with
    | inl s' => scanChunks (length tail) tail 0 s'
    | inr s' => Ok s'
    end.
Proof.
  induction 1 as [|c cs Hc Hcs IH]; intros fuel s Hfuel.
  - cbn [absorbAll mbind Throws_bind bindT].
    change (encodeChunks [] ++ tail) with tail in *.
    apply scanChunks_fuel; lia.
  - rewrite encodeChunks_cons, <- app_assoc in *.
    rewrite length_app in Hfuel.
    pose proof (length_encodeChunk c Hc) as Hlen.
    rewrite scanChunks_unfold, length_app.
    replace (0 + 8 <=? length (encodeChunk c)
                       + length (encodeChunks cs ++ tail))%nat
      with true by (symmetry; apply Nat.leb_le; lia).
    destruct fuel as [|fuel]; [lia|].
    rewrite scanChunk_encodeChunk by done. cbn [absorbAll].
    destruct (absorb c s) as [[s'|]|e]; cbn [mbind Throws_bind bindT];
      try done.
    rewrite <- (Nat.add_0_r (length (encodeChunk c))).
    rewrite scanChunks_prefix. apply IH. lia.
Qed.

Lemma absorb_unknown c s : ~ known c -> absorb c s = Ok (Some s).
Proof.
  unfold known, absorb. intros Hk. repeat case_decide; tauto.
Qed.

Lemma absorb_IEND c s : typeTag c = IEND -> absorb c s = Ok None.
Proof.
  unfold absorb. intros ->. repeat case_decide; done.
Qed.

Lemma absorbAll_filter_known cs s :
  absorbAll cs s = absorbAll (filter known cs) s.
Proof.
  revert s. induction cs as [|c cs IH]; intros s; [done|].
  destruct (decide (known c)) as [Hk|Hk].
  - rewrite filter_cons_True by done. cbn [absorbAll].
    destruct (absorb c s) as [[s'|]|e]; cbn [mbind Throws_bind bindT]; auto.
  - rewrite filter_cons_False by done. cbn [absorbAll].
    rewrite absorb_unknown by done. cbn [mbind Throws_bind bindT]. auto.
Qed.

Lemma absorbAll_app cs1 cs2 s :
  absorbAll (cs1 ++ cs2) s =
  r ← absorbAll cs1 s;
  match r with
  | inl s' => absorbAll cs2 s'
  | inr s' => Ok (inr s')
  end.
Proof.
  revert s. induction cs1 as [|c cs1 IH]; intros s; [done|].
  cbn [app absorbAll].
  destruct (absorb c s) as [[s'|]|e]; cbn [mbind Throws_bind bindT]; auto.
Qed.

Lemma absorb_Err c s e : absorb c s = Err e -> errorKind e = MalformedContainer.
Proof.
  unfold absorb, readUInt32BE, readByte.
  repeat case_decide; try done.
  repeat (case_match; cbn [mbind Throws_bind bindT]; try done);
    by intros [= <-].
Qed.

Lemma absorbAll_Err cs s e :
  absorbAll cs s = Err e -> errorKind e = MalformedContainer.
Proof.
  revert s. induction cs as [|c cs IH]; intros s; [done|]. cbn [absorbAll].
  destruct (absorb c s) as [[s'|]|e'] eqn:Ha; cbn [mbind Throws_bind bindT].
  - apply IH.
  - done.
  - intros [= <-]. by apply absorb_Err in Ha.
Qed.

(** The state a run of [absorbAll] ends in. *)
Definition lastState (r : ScanState + ScanState) : ScanState :=
  match r with inl s | inr s => s end.

Lemma absorbAll_no_IHDR cs s r :
  Forall (fun c => typeTag c <> IHDR) cs ->
  absorbAll cs s = Ok r -> width (lastState r) = width s.
Proof.
  intros Hcs. revert s. induction Hcs as [|c cs Hc Hcs IH]; intros s.
  - by intros [= <-].
  - cbn [absorbAll]. unfold absorb. case_decide; [done|].
    repeat case_decide; cbn [mbind Throws_bind bindT].
    + intros Hr. by rewrite (IH _ Hr).
    + by intros [= <-].
    + apply IH.
Qed.

Lemma absorb_no_IDAT c s s' :
  typeTag c <> IDAT -> absorb c s = Ok (Some s') ->
  idatChunks s' = idatChunks s.
Proof.
  intros Hc. unfold absorb. repeat case_decide; try done.
  - destruct (readUInt32BE (chunkData c) 0); [|done].
    destruct (readUInt32BE (chunkData c) 4); [|done].
    destruct (readByte (chunkData c) 8); [|done].
    destruct (readByte (chunkData c) 9); [|done].
    destruct (readByte (chunkData c) 12); [|done].
    cbn [mbind Throws_bind bindT]. by intros [= <-].
  - by intros [= <-].
Qed.

Lemma absorbAll_no_IDAT cs s r :
  Forall (fun c => typeTag c <> IDAT) cs ->
  absorbAll cs s = Ok r -> idatChunks (lastState r) = idatChunks s.
Proof.
  intros Hcs. revert s. induction Hcs as [|c cs Hc Hcs IH]; intros s.
  - by intros [= <-].
  - cbn [absorbAll].
    destruct (absorb c s) as [[s'|]|e] eqn:Ha; cbn [mbind Throws_bind bindT];
      [|by intros [= <-]|done].
    intros Hr. rewrite (IH _ Hr). by apply (absorb_no_IDAT c).
Qed.

Lemma scanChunks_stops tail s :
  stops tail ->
  scanChunks (length tail) tail 0 s = Ok s
  \/ scanChunks (length tail) tail 0 s = Err ErrChunkLength.
Proof.
  intros [Hshort|iend rest Hwf Htag ->|len Hlong Hread Hover];
    rewrite scanChunks_unfold.
  - left. by destruct (Nat.leb_spec (0 + 8) (length tail)); [lia|].
  - left. pose proof (length_encodeChunk iend Hwf) as Hlen.
    rewrite length_app.
    destruct (Nat.leb_spec (0 + 8) (length (encodeChunk iend) + length rest));
      [|lia].
    destruct (length (encodeChunk iend) + length rest)%nat; [lia|].
    by rewrite scanChunk_encodeChunk, absorb_IEND by done.
  - right. destruct (Nat.leb_spec (0 + 8) (length tail)); [|lia].
    destruct (length tail) as [|n] eqn:Hn; [lia|].
    unfold scanChunk. rewrite Hread. cbn [mbind Throws_bind bindT].
    rewrite Hn.
    by destruct (Z.ltb_spec (Z.of_nat (S n)) (Z.of_nat (0 + 8) + len + 4));
      [|lia].
Qed.

(** ** Claims on chunk scanning *)

Section DecoderFacts.

Variable inflateSync : Buffer -> Throws Buffer.
Variable deflateSync : Buffer -> Buffer.

Lemma parsePng_chunks (cs : list Chunk) (tail : Buffer) :
  Forall wf_chunk cs ->
  parsePng inflateSync deflateSync (PNG_SIGNATURE ++ encodeChunks cs ++ tail) =
  r ← absorbAll cs initialScanState;
  match r with
  | inl s =>
      s' ← scanChunks (length tail) tail 0 s;
      decodeImage inflateSync deflateSync s'
  | inr s => decodeImage inflateSync deflateSync s
  end.
Proof.
  intros Hcs. unfold parsePng.
  set (body := encodeChunks cs ++ tail).
  assert ((length (PNG_SIGNATURE ++ body) <? 8)%nat = false) as ->.
  { apply Nat.ltb_ge. rewrite length_app. cbn [PNG_SIGNATURE length]. lia. }
  assert (subarray (PNG_SIGNATURE ++ body) 0 8 = PNG_SIGNATURE) as ->.
  { unfold subarray. by rewrite drop_0, take_app_length'. }
  rewrite bool_decide_eq_true_2 by done. cbn [negb orb].
  change 8%nat with (length PNG_SIGNATURE + 0)%nat at 1.
  rewrite scanChunks_prefix. subst body.
  rewrite scanChunks_encodeChunks
    by (done || (rewrite (length_app PNG_SIGNATURE); lia)).
  destruct (absorbAll cs initialScanState) as [[s|s]|e]; done.
Qed.

Lemma decodeImage_missing (s : ScanState) :
  width s = 0 \/ idatChunks s = [] ->
  decodeImage inflateSync deflateSync s = Err ErrMissingChunks.
Proof.
  unfold decodeImage. intros [->| ->]; [done|].
  rewrite bool_decide_eq_true_2 by done. by rewrite !orb_true_r.
Qed.

Lemma readsAs_typeTag (c : Chunk) :
  (readsAs c "IHDR" <-> typeTag c = IHDR)
  /\ (readsAs c "IDAT" <-> typeTag c = IDAT)
  /\ (readsAs c "IEND" <-> typeTag c = IEND).
Proof. done. Qed.

Lemma ancillary_known (c : Chunk) : ancillary c <-> ~ known c.
Proof.
  unfold ancillary, known.
  destruct (readsAs_typeTag c) as (H1 & H2 & H3). tauto.
Qed.

(** C4, amended: a file made of the signature and whole chunks, up to the
    place where the chunk loop stops, is rejected with a
    MalformedContainer error whenever none of these chunks has a type
    that reads as IHDR, or none has a type that reads as IDAT, where a
    type is read with bit 7 of each of its four bytes cleared.  (The
    terminator chunk is not among the chunks the decoder asks for.) *)
Theorem parsePng_missing_header_or_data (cs : list Chunk) (tail : Buffer) :
  Forall wf_chunk cs ->
  stops tail ->
  Forall (fun c => ~ readsAs c "IHDR") cs
  \/ Forall (fun c => ~ readsAs c "IDAT") cs ->
  exists e,
    parsePng inflateSync deflateSync (PNG_SIGNATURE ++ encodeChunks cs ++ tail)
    = Err e
    /\ errorKind e = MalformedContainer.
Proof.
  intros Hcs Htail Habsent. rewrite parsePng_chunks by done.
  destruct (absorbAll cs initialScanState) as [r|e] eqn:Hr;
    cbn [mbind Throws_bind bindT].
  2:{ exists e. split; [done|]. by apply absorbAll_Err in Hr. }
  assert (Hmiss : width (lastState r) = 0 \/ idatChunks (lastState r) = []).
  { destruct Habsent as [Hh|Hd].
    - left. by rewrite (absorbAll_no_IHDR _ _ _ Hh Hr).
    - right. by rewrite (absorbAll_no_IDAT _ _ _ Hd Hr). }
  destruct r as [s|s]; cbn [lastState] in Hmiss.
  - destruct (scanChunks_stops tail s Htail) as [-> | ->];
      cbn [mbind Throws_bind bindT].
    + exists ErrMissingChunks. by rewrite decodeImage_missing.
    + by exists ErrChunkLength.
  - exists ErrMissingChunks. by rewrite decodeImage_missing.
Qed.

(** C10, amended: chunks whose type reads as none of IHDR, IDAT, IEND
    (bit 7 of each type byte cleared) are skipped, and scanning stops at
    the first chunk whose type reads as IEND.  Two files whose chunk
    lists agree once those chunks are left out decode alike: when the
    same bytes follow the chunks, and when a terminator chunk follows
    them, whatever comes after it in either file.  A chunk whose type
    bytes are below 128 and are not those of IHDR, IDAT or IEND is such a
    chunk. *)
Theorem parsePng_skips_unknown_chunks (cs1 cs2 : list Chunk) :
  Forall wf_chunk cs1 ->
  Forall wf_chunk cs2 ->
  filter (fun c => ~ ancillary c) cs1 = filter (fun c => ~ ancillary c) cs2 ->
  (forall tail : Buffer,
      parsePng inflateSync deflateSync
               (PNG_SIGNATURE ++ encodeChunks cs1 ++ tail)
      = parsePng inflateSync deflateSync
                 (PNG_SIGNATURE ++ encodeChunks cs2 ++ tail))
  /\
  (forall (iend : Chunk) (rest1 rest2 : Buffer),
      wf_chunk iend -> readsAs iend "IEND" ->
      parsePng inflateSync deflateSync
               (PNG_SIGNATURE ++ encodeChunks cs1 ++ encodeChunk iend ++ rest1)
      = parsePng inflateSync deflateSync
                 (PNG_SIGNATURE ++ encodeChunks cs2
                                ++ encodeChunk iend ++ rest2))
  /\
  (forall c : Chunk,
      Forall (fun b => 0 <= b < 128) (chunkType c) ->
      chunkType c <> [73; 72; 68; 82] -> chunkType c <> [73; 68; 65; 84] ->
      chunkType c <> [73; 69; 78; 68] ->
      ancillary c).
Proof.
  intros H1 H2 Hsame.
  assert (Hfilter : forall cs : list Chunk,
             filter known cs = filter (fun c => ~ ancillary c) cs).
  { intros cs. apply list_filter_iff. intros c.
    rewrite ancillary_known. split; [tauto|].
    intros Hnn. by destruct (decide (known c)). }
  rewrite <- !Hfilter in Hsame.
  assert (Habs : forall s, absorbAll cs1 s = absorbAll cs2 s).
  { intros s. by rewrite (absorbAll_filter_known cs1),
      (absorbAll_filter_known cs2), Hsame. }
  split; [|split].
  - intros tail. by rewrite !parsePng_chunks, Habs by done.
  - intros iend rest1 rest2 Hwf Htag.
    assert (Hterm : forall cs rest, Forall wf_chunk cs ->
              parsePng inflateSync deflateSync
                (PNG_SIGNATURE ++ encodeChunks cs ++ encodeChunk iend ++ rest)
              = r ← absorbAll cs initialScanState;
                decodeImage inflateSync deflateSync (lastState r)).
    { intros cs rest Hcs.
      replace (encodeChunks cs ++ encodeChunk iend ++ rest)
        with (encodeChunks (cs ++ [iend]) ++ rest).
      2:{ rewrite encodeChunks_app, encodeChunks_cons, <- app_assoc.
          by rewrite app_nil_r. }
      rewrite parsePng_chunks by (apply Forall_app; auto).
      rewrite absorbAll_app.
      destruct (absorbAll cs initialScanState) as [[s|s]|e];
        cbn [mbind Throws_bind bindT absorbAll lastState]; try done.
      by rewrite absorb_IEND by done. }
    by rewrite !Hterm, Habs by done.
  - intros c Hlow H1' H2' H3'.
    assert (Hraw : (fun b => Z.land b 127) <$> chunkType c = chunkType c).
    { clear H1' H2' H3'. induction Hlow as [|b bs Hb _ IH]; [done|].
      cbn [fmap list_fmap]. f_equal; [|exact IH].
      change 127 with (Z.ones 7). rewrite Z.land_ones by lia.
      apply Z.mod_small. lia. }
    unfold ancillary, readsAs. rewrite Hraw. by repeat split.
Qed.

End DecoderFacts.

(** A 1x1 grey image of one sample, 77: its header and data chunks (the
    checksums, which the decoder never reads, are left zero), a text
    chunk and a terminator. *)
Definition sample_IHDR : Chunk :=
  mkChunk IHDR (be32 1 ++ be32 1 ++ [8; 0; 0; 0; 0]) [0; 0; 0; 0].
Definition sample_IDAT : Chunk :=
  mkChunk IDAT (Zlib.deflateSync [0; 77]) [0; 0; 0; 0].
Definition sample_tEXt : Chunk :=
  mkChunk [116; 69; 88; 116] [65; 0; 66] [0; 0; 0; 0].
Definition sample_IEND : Chunk := mkChunk IEND [] [0; 0; 0; 0].

(** C4, as stated, fails for the terminator: the file below has a header
    chunk and a data chunk and ends there, with no terminator chunk, and
    it decodes. *)
Lemma parsePng_without_terminator :
  ~ In IEND (typeTag <$> [sample_IHDR; sample_IDAT])
  /\ parsePng Zlib.inflateSync Zlib.deflateSync
       (PNG_SIGNATURE ++ encodeChunks [sample_IHDR; sample_IDAT])
     = Ok (mkParsedPng 1 1 8 (Zlib.deflateSync [77; 77; 77]) None).
Proof.
  split; [|vm_compute; reflexivity].
  cbv. intros [H|[H|[]]]; discriminate H.
Qed.

(** C4 at a file with a data chunk and a terminator and no header. *)
Lemma parsePng_missing_header_or_data_witness :
  exists e,
    parsePng Zlib.inflateSync Zlib.deflateSync
      (PNG_SIGNATURE ++ encodeChunks [sample_IDAT] ++ encodeChunk sample_IEND)
    = Err e
    /\ errorKind e = MalformedContainer.
Proof.
  apply (parsePng_missing_header_or_data Zlib.inflateSync Zlib.deflateSync
           [sample_IDAT] (encodeChunk sample_IEND)).
  - repeat constructor.
  - apply (stops_terminator _ sample_IEND []);
      [repeat constructor|reflexivity|by rewrite app_nil_r].
  - left. repeat constructor. discriminate.
Defined.

(** C10, as stated, fails for a type tag with a high bit set: the chunk
    below has the four type bytes C9 48 44 52, none of the tags IHDR,
    IDAT, IEND, and the decoder reads it as a header chunk.  It declares
    a 2x2 image, so the file with it is rejected, and the file without it
    decodes. *)
Definition sample_highBit : Chunk :=
  mkChunk [201; 72; 68; 82] (be32 2 ++ be32 2 ++ [8; 0; 0; 0; 0])
          [0; 0; 0; 0].

Lemma parsePng_high_bit_tag_not_skipped :
  chunkType sample_highBit <> IHDR
  /\ chunkType sample_highBit <> IDAT
  /\ chunkType sample_highBit <> IEND
  /\ parsePng Zlib.inflateSync Zlib.deflateSync
       (PNG_SIGNATURE
          ++ encodeChunks [sample_IHDR; sample_highBit; sample_IDAT;
                           sample_IEND])
     = Err (ErrDataLength 6 2)
  /\ parsePng Zlib.inflateSync Zlib.deflateSync
       (PNG_SIGNATURE ++ encodeChunks [sample_IHDR; sample_IDAT; sample_IEND])
     = Ok (mkParsedPng 1 1 8 (Zlib.deflateSync [77; 77; 77]) None).
Proof.
  split; [discriminate|]. split; [discriminate|]. split; [discriminate|].
  split; vm_compute; reflexivity.
Qed.

(** C10 at the sample image with and without its text chunk, and with
    and without bytes after the terminator. *)
Lemma parsePng_skips_unknown_chunks_witness :
  (forall tail : Buffer,
      parsePng Zlib.inflateSync Zlib.deflateSync
        (PNG_SIGNATURE
           ++ encodeChunks [sample_IHDR; sample_tEXt; sample_IDAT] ++ tail)
      = parsePng Zlib.inflateSync Zlib.deflateSync
          (PNG_SIGNATURE ++ encodeChunks [sample_IHDR; sample_IDAT] ++ tail))
  /\
  (forall (iend : Chunk) (rest1 rest2 : Buffer),
      wf_chunk iend -> readsAs iend "IEND" ->
      parsePng Zlib.inflateSync Zlib.deflateSync
        (PNG_SIGNATURE
           ++ encodeChunks [sample_IHDR; sample_tEXt; sample_IDAT]
           ++ encodeChunk iend ++ rest1)
      = parsePng Zlib.inflateSync Zlib.deflateSync
          (PNG_SIGNATURE ++ encodeChunks [sample_IHDR; sample_IDAT]
                         ++ encodeChunk iend ++ rest2)).
Proof.
  pose proof (parsePng_skips_unknown_chunks Zlib.inflateSync Zlib.deflateSync
                [sample_IHDR; sample_tEXt; sample_IDAT]
                [sample_IHDR; sample_IDAT]) as H.
  split; apply H; try (repeat constructor); reflexivity.
Defined.

(** ** Claims on the reconstruction filters *)

(** The three candidates the specification names for the Paeth
    predictor: left, up and left+up-upLeft. *)
Definition paeth_spec_candidates (left up upLeft : Z) : list Z :=
  [left; up; left + up - upLeft].

(** C3, as stated, fails: for the bytes left = 13, up = 8, upLeft = 10 the
    predictor returns upLeft = 10, which is none of the candidates left,
    up, left+up-upLeft = 13, 8, 11 that the claim lets it choose from. *)
Lemma paethPredictor_not_among_spec_candidates :
  is_byte 13 /\ is_byte 8 /\ is_byte 10 /\
  paethPredictor 13 8 10 = 10 /\
  ~ In (paethPredictor 13 8 10) (paeth_spec_candidates 13 8 10).
Proof.
  unfold is_byte. repeat split; try lia.
  cbv. intros [H|[H|[H|[]]]]; discriminate H.
Qed.

(** C3, amended: Paeth(left, up, upLeft) returns whichever of left, up,
    upLeft is nearest, in absolute difference, to the estimate
    p = left + up - upLeft; left wins every tie it is part of, and up wins
    a tie with upLeft. *)
Theorem paethPredictor_nearest_to_estimate (left up upLeft : Z) :
  let p := left + up - upLeft in
  let r := paethPredictor left up upLeft in
  (r = left \/ r = up \/ r = upLeft) /\
  Z.abs (p - r) <= Z.abs (p - left) /\
  Z.abs (p - r) <= Z.abs (p - up) /\
  Z.abs (p - r) <= Z.abs (p - upLeft) /\
  (Z.abs (p - left) <= Z.abs (p - up) ->
   Z.abs (p - left) <= Z.abs (p - upLeft) -> r = left) /\
  (Z.abs (p - up) < Z.abs (p - left) ->
   Z.abs (p - up) <= Z.abs (p - upLeft) -> r = up) /\
  (Z.abs (p - upLeft) < Z.abs (p - left) ->
   Z.abs (p - upLeft) < Z.abs (p - up) -> r = upLeft).
Proof.
  intros p r. subst r. unfold paethPredictor. fold p.
  destruct (Z.leb_spec (Z.abs (p - left)) (Z.abs (p - up)));
    destruct (Z.leb_spec (Z.abs (p - left)) (Z.abs (p - upLeft)));
    destruct (Z.leb_spec (Z.abs (p - up)) (Z.abs (p - upLeft)));
    cbn [andb]; repeat split; auto; lia.
Qed.

(** C5, as stated, fails in its last clause: an image of width 0 has no
    sample byte, the selector of its row is never examined, and the
    selector 9 passes without an error. *)
Lemma unfilterScanlines_zero_width_bad_selector :
  let inflated : Buffer := [9] in
  inflated !! 0%nat = Some 9
  /\ 4 < 9
  /\ unfilterScanlines inflated 0 1 1 = Ok [].
Proof. repeat split. Qed.

(** C5, amended: for every width, height and bytesPerPixel,
    reconstruction inverts the five row filters: filtering each row of a
    raw sample array of width*height*bytesPerPixel bytes with any selector
    0..4 and prefixing the selector gives an input that
    [unfilterScanlines] maps back to the raw array; and in an input of the
    expected length whose rows have at least one sample byte, a selector
    byte greater than 4 makes it fail with the unsupported-filter
    error. *)
Theorem unfilterScanlines_inverts_filters (width height bytesPerPixel : N) :
  (forall (raw : Buffer) (filters : list Z),
      is_buffer raw ->
      N.of_nat (length raw) = (width * height * bytesPerPixel)%N ->
      N.of_nat (length filters) = height ->
      Forall (fun f => 0 <= f <= 4) filters ->
      unfilterScanlines (filterScanlines raw width bytesPerPixel filters)
                        width height bytesPerPixel = Ok raw)
  /\
  (forall (inflated : Buffer) (row : nat) (f : Z),
      (0 < width * bytesPerPixel)%N ->
      N.of_nat (length inflated)
        = (height * (width * bytesPerPixel + 1))%N ->
      (N.of_nat row < height)%N ->
      inflated !! (row * (N.to_nat (width * bytesPerPixel) + 1))%nat
        = Some f ->
      4 < f ->
      exists filter,
        unfilterScanlines inflated width height bytesPerPixel
        = Err (ErrFilter filter)
        /\ errorKind (ErrFilter filter) = MalformedContainer).
Proof.
  split.
  - intros raw filters Hraw Hlen Hfl Hrange.
    unfold unfilterScanlines, filterScanlines.
    rewrite length_filterRows.
    replace (N.of_nat (length filters
                       * (N.to_nat (width * bytesPerPixel) + 1)) =?
             height * (width * bytesPerPixel + 1))%N with true
      by (symmetry; apply N.eqb_eq; lia).
    cbn [negb].
    replace (N.to_nat (width * height * bytesPerPixel))
      with (length raw) by lia.
    rewrite N2Nat.inj_mul.
    apply unfilterRows_invert; try done; lia.
  - intros inflated row f Hs Hlen Hrow Hf Hbad.
    unfold unfilterScanlines.
    replace (N.of_nat (length inflated) =?
             height * (width * bytesPerPixel + 1))%N with true
      by (symmetry; apply N.eqb_eq; lia).
    cbn [negb].
    destruct (unfilterRows_bad_selector inflated
                (N.to_nat (width * bytesPerPixel))
                (N.to_nat bytesPerPixel) f row (N.to_nat height) 0
                (Buffer_alloc (N.to_nat (width * height * bytesPerPixel))))
      as [filter Hrun]; try done; try lia.
    exists filter. by rewrite Hrun.
Qed.

(** C5 at a 2x2 grey image, rows filtered with Paeth and Average, and at
    a 1x1 image whose row carries the selector 5. *)
Lemma unfilterScanlines_inverts_filters_witness :
  unfilterScanlines (filterScanlines [10; 200; 30; 7] 2 1 [4; 3]) 2 2 1
    = Ok [10; 200; 30; 7]
  /\ exists filter,
      unfilterScanlines [5; 0] 1 1 1 = Err (ErrFilter filter)
      /\ errorKind (ErrFilter filter) = MalformedContainer.
Proof.
  split.
  - apply (proj1 (unfilterScanlines_inverts_filters 2 2 1)).
    + repeat constructor; unfold is_byte; lia.
    + reflexivity.
    + reflexivity.
    + repeat constructor; lia.
  - apply (proj2 (unfilterScanlines_inverts_filters 1 1 1) [5; 0] 0%nat 5).
    + reflexivity.
    + reflexivity.
    + reflexivity.
    + reflexivity.
    + lia.
Defined.

(** ** Further properties of the decoder *)

Lemma forEachT_preserves {X S} (body : X -> S -> Throws S) (P : S -> Prop)
    (xs : list X) (s s' : S) :
  (forall x t t', P t -> body x t = Ok t' -> P t') ->
  P s -> forEachT body xs s = Ok s' -> P s'.
Proof.
  intros Hbody. revert s. induction xs as [|x xs IH]; intros s Hs; cbn [forEachT].
  - by intros [= <-].
  - destruct (body x s) as [t|e] eqn:Hb; [|done]. eauto.
Qed.

Lemma is_byte_land (v : Z) : is_byte (Z.land v 255).
Proof. rewrite land_255. unfold is_byte. apply Z.mod_pos_bound. lia. Qed.

Lemma writeByte_is_buffer (buf : Buffer) (i : nat) (v : Z) :
  is_buffer buf -> is_buffer (writeByte buf i v).
Proof. intros Hb. apply Forall_insert; [done|apply is_byte_land]. Qed.

Lemma length_writeByte (buf : Buffer) (i : nat) (v : Z) :
  length (writeByte buf i v) = length buf.
Proof. apply length_insert. Qed.

Lemma Buffer_alloc_is_buffer (n : nat) : is_buffer (Buffer_alloc n).
Proof. apply Forall_replicate. unfold is_byte. lia. Qed.

(** The buffer under reconstruction keeps its size and holds bytes. *)
Definition sized (n : nat) (buf : Buffer) : Prop :=
  length buf = n /\ is_buffer buf.

Lemma unfilterSample_sized inflated stride bpp row x n st st' :
  sized n st -> unfilterSample inflated stride bpp row x st = Ok st' ->
  sized n st'.
Proof.
  intros [Hl Hb]. unfold unfilterSample. cbn [mbind Throws_bind bindT].
  destruct (reconstruct _ _ _ _ _) as [v|e]; [|done].
  intros [= <-]. split; [by rewrite length_writeByte|].
  by apply writeByte_is_buffer.
Qed.

Lemma unfilterRow_sized inflated stride bpp row n st st' :
  sized n st -> unfilterRow inflated stride bpp row st = Ok st' -> sized n st'.
Proof.
  unfold unfilterRow. intros Hs. apply forEachT_preserves; [|done].
  intros x t t'. apply unfilterSample_sized.
Qed.


(** *** Files with a header and data chunks *)

(** [c] is a header chunk that declares these five fields; the two method
    bytes between them, and any bytes after the thirteenth, are free. *)
Definition declares (c : Chunk) (w h bd ct il : Z) : Prop :=
  typeTag c = IHDR
  /\ exists cm fm extra,
       chunkData c = be32 w ++ be32 h ++ [bd; ct; cm; fm; il] ++ extra.

(** What may follow the chunks of a complete file: the end of the file
    (with fewer than 8 stray bytes), or a terminator chunk and anything
    after it. *)
Inductive ends (tail : Buffer) : Prop :=
| ends_eof : (length tail < 8)%nat -> ends tail
| ends_terminator (iend : Chunk) (rest : Buffer) :
    wf_chunk iend -> typeTag iend = IEND ->
    tail = encodeChunk iend ++ rest -> ends tail.

Lemma ends_stops tail : ends tail -> stops tail.
Proof.
  intros [H|iend rest H1 H2 H3]; [by apply stops_end|].
  by apply (stops_terminator _ iend rest).
Qed.

Lemma scanChunks_ends tail s :
  ends tail -> scanChunks (length tail) tail 0 s = Ok s.
Proof.
  intros [Hshort|iend rest Hwf Htag ->]; rewrite scanChunks_unfold.
  - by destruct (Nat.leb_spec (0 + 8) (length tail)); [lia|].
  - pose proof (length_encodeChunk iend Hwf) as Hlen. rewrite length_app.
    destruct (Nat.leb_spec (0 + 8) (length (encodeChunk iend) + length rest));
      [|lia].
    destruct (length (encodeChunk iend) + length rest)%nat; [lia|].
    by rewrite scanChunk_encodeChunk, absorb_IEND by done.
Qed.

Lemma absorb_declares c w h bd ct il s :
  declares c w h bd ct il ->
  0 <= w < 2 ^ 32 -> 0 <= h < 2 ^ 32 ->
  absorb c s
  = Ok (Some {| width := w; height := h; bitDepth := bd; colorType := ct;
                interlace := il; idatChunks := idatChunks s |}).
Proof.
  intros (Htag & cm & fm & extra & Hdata) Hw Hh. unfold absorb.
  rewrite decide_True by done. rewrite Hdata.
  rewrite readUInt32BE_be32 by done. cbn [mbind Throws_bind bindT].
  assert (readUInt32BE (be32 w ++ be32 h ++ [bd; ct; cm; fm; il] ++ extra) 4
          = Ok h) as ->.
  { unfold readUInt32BE. cbn [be32 app drop].
    change (2 ^ 24) with 16777216. change (2 ^ 16) with 65536.
    change (2 ^ 8) with 256. change (2 ^ 32) with 4294967296 in Hh.
    f_equal. Z.div_mod_to_equations. lia. }
  done.
Qed.

Lemma absorbAll_data idats s :
  Forall (fun c => typeTag c = IDAT) idats ->
  absorbAll idats s
  = Ok (inl {| width := width s; height := height s; bitDepth := bitDepth s;
               colorType := colorType s; interlace := interlace s;
               idatChunks := idatChunks s ++ (chunkData <$> idats) |}).
Proof.
  intros Hd. revert s. induction Hd as [|c idats Hc Hd IH]; intros s.
  - cbn. rewrite app_nil_r. by destruct s.
  - cbn [absorbAll]. unfold absorb. rewrite Hc.
    rewrite decide_False by done. rewrite decide_True by done.
    cbn [mbind Throws_bind bindT]. rewrite IH.
    cbn [width height bitDepth colorType interlace idatChunks fmap list_fmap].
    by rewrite <- app_assoc.
Qed.

Section FileFacts.

Variable inflateSync : Buffer -> Throws Buffer.
Variable deflateSync : Buffer -> Buffer.

(** A file whose chunks of known type are one header chunk followed by
    data chunks is decoded from the header's fields and the payloads of
    the data chunks, in order. *)
Lemma parsePng_header_data (cs idats : list Chunk) (hdr : Chunk)
    (tail : Buffer) (w h bd ct il : Z) :
  Forall wf_chunk cs ->
  filter known cs = hdr :: idats ->
  declares hdr w h bd ct il ->
  0 <= w < 2 ^ 32 -> 0 <= h < 2 ^ 32 ->
  Forall (fun c => typeTag c = IDAT) idats ->
  ends tail ->
  parsePng inflateSync deflateSync (PNG_SIGNATURE ++ encodeChunks cs ++ tail)
  = decodeImage inflateSync deflateSync
      {| width := w; height := h; bitDepth := bd; colorType := ct;
         interlace := il; idatChunks := chunkData <$> idats |}.
Proof.
  intros Hcs Hknown Hhdr Hw Hh Hidats Htail.
  rewrite parsePng_chunks by done.
  rewrite absorbAll_filter_known, Hknown. cbn [absorbAll].
  rewrite (absorb_declares _ w h bd ct il) by done.
  cbn [mbind Throws_bind bindT]. rewrite absorbAll_data by done.
  cbn [mbind Throws_bind bindT width height bitDepth colorType interlace
       idatChunks initialScanState app].
  by rewrite scanChunks_ends.
Qed.

(** X2: a file with a header chunk and at least one data chunk whose
    header declares a bit depth other than 8, an interlace method other
    than 0, or a colour type other than 0, 2, 4, 6 is rejected with the
    matching UnsupportedFormat error, in this order of precedence, and
    whatever the data chunks hold: they are not decompressed. *)
Theorem parsePng_unsupported_format (cs idats : list Chunk) (hdr : Chunk)
    (tail : Buffer) (w h bd ct il : Z) :
  Forall wf_chunk cs ->
  filter known cs = hdr :: idats ->
  declares hdr w h bd ct il ->
  0 < w < 2 ^ 32 -> 0 < h < 2 ^ 32 ->
  Forall (fun c => typeTag c = IDAT) idats ->
  idats <> [] ->
  ends tail ->
  let result :=
    parsePng inflateSync deflateSync
             (PNG_SIGNATURE ++ encodeChunks cs ++ tail) in
  (bd <> 8 -> result = Err (ErrBitDepth bd))
  /\ (bd = 8 -> il <> 0 -> result = Err ErrInterlace)
  /\ (bd = 8 -> il = 0 -> ct <> 0 -> ct <> 2 -> ct <> 4 -> ct <> 6 ->
      result = Err (ErrColorType ct))
  /\ errorKind (ErrBitDepth bd) = UnsupportedFormat
  /\ errorKind ErrInterlace = UnsupportedFormat
  /\ errorKind (ErrColorType ct) = UnsupportedFormat.
Proof.
  intros Hcs Hknown Hhdr Hw Hh Hidats Hne Htail result. subst result.
  rewrite (parsePng_header_data cs idats hdr tail w h bd ct il)
    by (done || lia).
  unfold decodeImage.
  cbn [width height bitDepth colorType interlace idatChunks].
  replace (w =? 0) with false by (symmetry; apply Z.eqb_neq; lia).
  replace (h =? 0) with false by (symmetry; apply Z.eqb_neq; lia).
  rewrite bool_decide_eq_false_2 by (by destruct idats).
  cbn [orb].
  split; [|split; [|split; [|done]]].
  - intros Hbd. by replace (bd =? 8) with false
      by (symmetry; by apply Z.eqb_neq).
  - intros -> Hil. cbn [Z.eqb Pos.eqb negb].
    by replace (il =? 0) with false by (symmetry; by apply Z.eqb_neq).
  - intros -> -> H0 H2 H4 H6. cbn [Z.eqb Pos.eqb negb].
    replace (ct =? 0) with false by (symmetry; by apply Z.eqb_neq).
    replace (ct =? 2) with false by (symmetry; by apply Z.eqb_neq).
    replace (ct =? 4) with false by (symmetry; by apply Z.eqb_neq).
    by replace (ct =? 6) with false by (symmetry; by apply Z.eqb_neq).
Qed.

Lemma absorbAll_continues (cs : list Chunk) (s : ScanState) :
  Forall (fun c => typeTag c <> IEND
                   /\ (typeTag c = IHDR -> (13 <= length (chunkData c))%nat))
         cs ->
  exists s', absorbAll cs s = Ok (inl s').
Proof.
  intros Hcs. revert s. induction Hcs as [|c cs [Hc Hlen] Hcs IH]; intros s.
  - by exists s.
  - cbn [absorbAll]. unfold absorb.
    destruct (decide (typeTag c = IHDR)) as [Hh|Hh].
    + specialize (Hlen Hh).
      destruct (chunkData c) as [|b0 [|b1 [|b2 [|b3 [|b4 [|b5 [|b6 [|b7
        [|b8 [|b9 [|b10 [|b11 [|b12 data]]]]]]]]]]]]];
        cbn [length] in Hlen; try lia.
      cbn. apply IH.
    + repeat case_decide; try done; cbn [mbind Throws_bind bindT]; apply IH.
Qed.

Lemma scanChunks_overrun (tail : Buffer) (len : Z) (s : ScanState) :
  (8 <= length tail)%nat -> readUInt32BE tail 0 = Ok len ->
  Z.of_nat (length tail) < 8 + len + 4 ->
  scanChunks (length tail) tail 0 s = Err ErrChunkLength.
Proof.
  intros Hlong Hread Hover. rewrite scanChunks_unfold.
  destruct (Nat.leb_spec (0 + 8) (length tail)); [|lia].
  destruct (length tail) as [|n] eqn:Hn; [lia|].
  unfold scanChunk. rewrite Hread. cbn [mbind Throws_bind bindT]. rewrite Hn.
  by destruct (Z.ltb_spec (Z.of_nat (S n)) (Z.of_nat (0 + 8) + len + 4));
    [|lia].
Qed.

(** X3: a buffer that does not start with the eight signature bytes is
    rejected with the signature error; and a file that is cut inside a
    chunk (after whole chunks, none a terminator and each header chunk
    among them long enough to be read, comes a length field that runs
    past the end of the buffer) is rejected with the chunk-length error,
    whatever the chunks before held. *)
Theorem parsePng_malformed_container :
  (forall buffer : Buffer,
      take 8 buffer <> PNG_SIGNATURE ->
      parsePng inflateSync deflateSync buffer = Err ErrSignature)
  /\ (forall (cs : list Chunk) (tail : Buffer) (len : Z),
         Forall wf_chunk cs ->
         Forall (fun c =>
                   typeTag c <> IEND
                   /\ (typeTag c = IHDR -> (13 <= length (chunkData c))%nat))
                cs ->
         (8 <= length tail)%nat ->
         readUInt32BE tail 0 = Ok len ->
         Z.of_nat (length tail) < 8 + len + 4 ->
         parsePng inflateSync deflateSync
                  (PNG_SIGNATURE ++ encodeChunks cs ++ tail)
         = Err ErrChunkLength)
  /\ errorKind ErrSignature = MalformedContainer
  /\ errorKind ErrChunkLength = MalformedContainer.
Proof.
  split; [|split; [|done]].
  - intros buffer Hsig. unfold parsePng.
    destruct (length buffer <? 8)%nat; [done|].
    unfold subarray. rewrite drop_0, Nat.sub_0_r.
    by rewrite bool_decide_eq_false_2.
  - intros cs tail len Hwf Hcs Hlong Hread Hover.
    rewrite parsePng_chunks by done.
    destruct (absorbAll_continues cs initialScanState Hcs) as [s' ->].
    cbn [mbind Throws_bind bindT].
    by rewrite (scanChunks_overrun tail len).
Qed.

End FileFacts.

(** *** The planes of a decoded image *)

Definition sampleAt (raw : Buffer) (i : nat) : Z := default 0 (raw !! i).

(** Samples per pixel of a colour type, as [parsePng] takes them. *)
Definition samplesPerPixel (colorType : Z) : N :=
  if colorType =? 6 then 4%N
  else if colorType =? 4 then 2%N
  else if colorType =? 2 then 3%N else 1%N.

(** The colour of pixel [i]: grey is broadcast to red, green and blue. *)
Definition pixelRGB (colorType : Z) (raw : Buffer) (i : nat) : list Z :=
  if colorType =? 0 then [sampleAt raw i; sampleAt raw i; sampleAt raw i]
  else if colorType =? 4
  then [sampleAt raw (i * 2); sampleAt raw (i * 2); sampleAt raw (i * 2)]
  else if colorType =? 6
  then [sampleAt raw (i * 4); sampleAt raw (i * 4 + 1);
        sampleAt raw (i * 4 + 2)]
  else [sampleAt raw (i * 3); sampleAt raw (i * 3 + 1);
        sampleAt raw (i * 3 + 2)].

Definition rgbPlane (colorType : Z) (pixels : nat) (raw : Buffer) : Buffer :=
  mjoin (pixelRGB colorType raw <$> seq 0 pixels).

Definition alphaPlane (colorType : Z) (pixels : nat) (raw : Buffer)
  : option Buffer :=
  if colorType =? 4
  then Some ((fun i => sampleAt raw (i * 2 + 1)) <$> seq 0 pixels)
  else if colorType =? 6
  then Some ((fun i => sampleAt raw (i * 4 + 3)) <$> seq 0 pixels)
  else None.

Lemma agree_write (n : nat) (st expected : Buffer) (v : Z) :
  agree n st expected -> expected !! n = Some v -> is_byte v ->
  agree (S n) (writeByte st n v) expected.
Proof.
  intros [Hl Hag] Hv Hb. split; [by rewrite length_writeByte|].
  intros i Hi. unfold writeByte.
  destruct (decide (i = n)) as [->|Hne].
  - apply lookup_lt_Some in Hv as Hlt.
    rewrite list_lookup_insert_eq by lia.
    rewrite Hv, land_255. f_equal. by apply Z.mod_small.
  - rewrite list_lookup_insert_ne by done. apply Hag. lia.
Qed.

Lemma agree_all (st expected : Buffer) :
  agree (length expected) st expected -> st = expected.
Proof.
  intros [Hl Hag]. apply list_eq. intros i.
  destruct (decide (i < length expected)%nat); [by apply Hag|].
  by rewrite !lookup_ge_None_2 by lia.
Qed.

Lemma sampleAt_lookup (raw : Buffer) (i : nat) :
  (i < length raw)%nat -> raw !! i = Some (sampleAt raw i).
Proof.
  intros Hi. unfold sampleAt.
  by destruct (lookup_lt_is_Some_2 raw i Hi) as [v ->].
Qed.

Lemma sampleAt_byte (raw : Buffer) (i : nat) :
  is_buffer raw -> is_byte (sampleAt raw i).
Proof.
  intros Hraw. unfold sampleAt. destruct (raw !! i) as [v|] eqn:Hv.
  - by eapply Forall_lookup_1.
  - unfold is_byte. cbn. lia.
Qed.

Lemma readByte_sampleAt (raw : Buffer) (i : nat) :
  (i < length raw)%nat -> readByte raw i = Ok (sampleAt raw i).
Proof. intros Hi. unfold readByte. by rewrite sampleAt_lookup. Qed.

Lemma length_pixels {A} (px : nat -> list A) (n : nat) :
  (forall i, length (px i) = 3%nat) ->
  length (mjoin (px <$> seq 0 n)) = (n * 3)%nat.
Proof.
  intros Hpx. rewrite length_join.
  rewrite (sum_list_fmap_same 3).
  - rewrite length_fmap, length_seq. lia.
  - apply Forall_fmap, Forall_forall. intros i _. apply Hpx.
Qed.

Lemma lookup_pixels {A} (px : nat -> list A) (n i t : nat) :
  (forall i, length (px i) = 3%nat) ->
  (i < n)%nat -> (t < 3)%nat ->
  mjoin (px <$> seq 0 n) !! (i * 3 + t)%nat = px i !! t.
Proof.
  intros Hpx Hi Ht.
  destruct (lookup_lt_is_Some_2 (px i) t) as [v Hv]; [rewrite Hpx; lia|].
  rewrite Hv. apply (join_lookup_Some_same_length' 3); [|done|].
  - apply Forall_fmap, Forall_forall. intros j _. apply Hpx.
  - exists (px i). split; [|done].
    by rewrite list_lookup_fmap, lookup_seq_lt.
Qed.

(** One pass of an expansion loop on the colour plane. *)
Lemma agree_write3 (n i : nat) (px : nat -> list Z) (rgb : Buffer) (a b c : Z) :
  (forall i, length (px i) = 3%nat) ->
  (i < n)%nat -> px i = [a; b; c] ->
  is_byte a -> is_byte b -> is_byte c ->
  agree (i * 3) rgb (mjoin (px <$> seq 0 n)) ->
  agree (S i * 3)
        (writeByte (writeByte (writeByte rgb (i * 3) a) (i * 3 + 1) b)
                   (i * 3 + 2) c)
        (mjoin (px <$> seq 0 n)).
Proof.
  intros Hpx Hi Hi3 Ha Hb Hc Hag.
  pose proof (lookup_pixels px n i 0 Hpx Hi ltac:(lia)) as H0.
  pose proof (lookup_pixels px n i 1 Hpx Hi ltac:(lia)) as H1.
  pose proof (lookup_pixels px n i 2 Hpx Hi ltac:(lia)) as H2.
  rewrite Hi3 in H0, H1, H2. cbn [lookup list_lookup] in H0, H1, H2.
  rewrite Nat.add_0_r in H0.
  replace (S i * 3)%nat with (S (i * 3 + 2)) by lia.
  apply agree_write; [|done..].
  replace (i * 3 + 2)%nat with (S (i * 3 + 1)) at 1 by lia.
  apply agree_write; [|done..].
  replace (i * 3 + 1)%nat with (S (i * 3)) at 1 by lia.
  by apply agree_write.
Qed.

Lemma length_pixelRGB colorType raw i :
  length (pixelRGB colorType raw i) = 3%nat.
Proof. unfold pixelRGB. by repeat case_match. Qed.

Lemma expand_gray (raw : Buffer) (pixels : nat) :
  is_buffer raw -> length raw = pixels ->
  forEachT
    (fun i rgb =>
       gray ← readByte raw i;
       let dst := (i * 3)%nat in
       Ok (writeByte (writeByte (writeByte rgb dst gray) (dst + 1) gray)
                     (dst + 2) gray))
    (seq 0 pixels) (Buffer_alloc (pixels * 3))
  = Ok (rgbPlane 0 pixels raw).
Proof.
  intros Hraw Hlen. unfold rgbPlane.
  pose proof (length_pixelRGB 0 raw) as Hpx.
  match goal with |- forEachT ?body _ _ = _ =>
    destruct (forEachT_seq_inv body
                (fun i rgb =>
                   agree (i * 3) rgb (mjoin (pixelRGB 0 raw <$> seq 0 pixels)))
                pixels 0 (Buffer_alloc (pixels * 3)))
      as (rgb & -> & Hag)
  end.
  - split; [|intros i Hi; lia].
    unfold Buffer_alloc. by rewrite length_replicate, length_pixels.
  - intros i rgb Hi Hag. rewrite readByte_sampleAt by lia.
    cbn [mbind Throws_bind bindT]. eexists. split; [done|].
    apply agree_write3; try done; try lia; by apply sampleAt_byte.
  - f_equal. apply agree_all. by rewrite length_pixels.
Qed.

Lemma expand_gray_alpha (raw : Buffer) (pixels : nat) :
  is_buffer raw -> length raw = (pixels * 2)%nat ->
  forEachT
    (fun i '(rgb, alpha) =>
       let src := (i * 2)%nat in
       gray ← readByte raw src;
       a ← readByte raw (src + 1);
       let dst := (i * 3)%nat in
       Ok (writeByte (writeByte (writeByte rgb dst gray) (dst + 1) gray)
                     (dst + 2) gray,
           writeByte alpha i a))
    (seq 0 pixels) (Buffer_alloc (pixels * 3), Buffer_alloc pixels)
  = Ok (rgbPlane 4 pixels raw,
        (fun i => sampleAt raw (i * 2 + 1)) <$> seq 0 pixels).
Proof.
  intros Hraw Hlen. unfold rgbPlane.
  pose proof (length_pixelRGB 4 raw) as Hpx.
  set (A := (fun i => sampleAt raw (i * 2 + 1)) <$> seq 0 pixels).
  match goal with |- forEachT ?body _ _ = _ =>
    destruct (forEachT_seq_inv body
                (fun i st =>
                   agree (i * 3) st.1 (mjoin (pixelRGB 4 raw <$> seq 0 pixels))
                   /\ agree i st.2 A)
                pixels 0 (Buffer_alloc (pixels * 3), Buffer_alloc pixels))
      as ([rgb alpha] & -> & Hag & Hal)
  end.
  - cbn [fst snd]. split; (split; [|intros i Hi; lia]).
    + unfold Buffer_alloc. by rewrite length_replicate, length_pixels.
    + subst A. unfold Buffer_alloc.
      by rewrite length_fmap, length_seq, length_replicate.
  - intros i [rgb alpha] Hi [Hag Hal]. cbn [fst snd] in *.
    rewrite !readByte_sampleAt by lia.
    cbn [mbind Throws_bind bindT]. eexists. split; [done|]. cbn [fst snd].
    split.
    + apply agree_write3; try done; try lia; by apply sampleAt_byte.
    + apply agree_write; [done| |by apply sampleAt_byte].
      subst A. by rewrite list_lookup_fmap, lookup_seq_lt by lia.
  - cbn [fst snd] in *. f_equal. f_equal.
    + apply agree_all. by rewrite length_pixels.
    + apply agree_all. subst A. by rewrite length_fmap, length_seq.
Qed.

Lemma expand_rgba (raw : Buffer) (pixels : nat) :
  is_buffer raw -> length raw = (pixels * 4)%nat ->
  forEachT
    (fun i '(rgb, alpha) =>
       let src := (i * 4)%nat in
       let dst := (i * 3)%nat in
       r ← readByte raw src;
       g ← readByte raw (src + 1);
       b ← readByte raw (src + 2);
       a ← readByte raw (src + 3);
       Ok (writeByte (writeByte (writeByte rgb dst r) (dst + 1) g) (dst + 2) b,
           writeByte alpha i a))
    (seq 0 pixels) (Buffer_alloc (pixels * 3), Buffer_alloc pixels)
  = Ok (rgbPlane 6 pixels raw,
        (fun i => sampleAt raw (i * 4 + 3)) <$> seq 0 pixels).
Proof.
  intros Hraw Hlen. unfold rgbPlane.
  pose proof (length_pixelRGB 6 raw) as Hpx.
  set (A := (fun i => sampleAt raw (i * 4 + 3)) <$> seq 0 pixels).
  match goal with |- forEachT ?body _ _ = _ =>
    destruct (forEachT_seq_inv body
                (fun i st =>
                   agree (i * 3) st.1 (mjoin (pixelRGB 6 raw <$> seq 0 pixels))
                   /\ agree i st.2 A)
                pixels 0 (Buffer_alloc (pixels * 3), Buffer_alloc pixels))
      as ([rgb alpha] & -> & Hag & Hal)
  end.
  - cbn [fst snd]. split; (split; [|intros i Hi; lia]).
    + unfold Buffer_alloc. by rewrite length_replicate, length_pixels.
    + subst A. unfold Buffer_alloc.
      by rewrite length_fmap, length_seq, length_replicate.
  - intros i [rgb alpha] Hi [Hag Hal]. cbn [fst snd] in *.
    rewrite !readByte_sampleAt by lia.
    cbn [mbind Throws_bind bindT]. eexists. split; [done|]. cbn [fst snd].
    split.
    + apply agree_write3; try done; try lia; by apply sampleAt_byte.
    + apply agree_write; [done| |by apply sampleAt_byte].
      subst A. by rewrite list_lookup_fmap, lookup_seq_lt by lia.
  - cbn [fst snd] in *. f_equal. f_equal.
    + apply agree_all. by rewrite length_pixels.
    + apply agree_all. subst A. by rewrite length_fmap, length_seq.
Qed.

(** A truecolour image is its own colour plane. *)
Lemma rgbPlane_truecolour (raw : Buffer) (pixels : nat) :
  length raw = (pixels * 3)%nat -> rgbPlane 2 pixels raw = raw.
Proof.
  intros Hlen. unfold rgbPlane. apply list_eq_same_length with (pixels * 3)%nat;
    [done|apply length_pixels, length_pixelRGB|].
  intros j x y Hj Hx Hy.
  assert (exists i t, j = (i * 3 + t)%nat /\ (t < 3)%nat) as (i & t & -> & Ht).
  { exists (j / 3)%nat, (j mod 3)%nat.
    pose proof (Nat.div_mod_eq j 3). pose proof (Nat.mod_upper_bound j 3).
    lia. }
  rewrite (lookup_pixels (pixelRGB 2 raw) pixels i t) in Hx
    by (apply length_pixelRGB || lia).
  unfold pixelRGB in Hx. cbn [Z.eqb Pos.eqb] in Hx.
  assert (t = 0 \/ t = 1 \/ t = 2)%nat as [->|[->| ->]] by lia;
    cbn [lookup list_lookup] in Hx; injection Hx as <-;
    rewrite ?Nat.add_0_r in *;
    rewrite sampleAt_lookup in Hy by lia; by injection Hy.
Qed.

Lemma unfilterScanlines_filterScanlines (width height bytesPerPixel : N)
    (raw : Buffer) (filters : list Z) :
  is_buffer raw ->
  N.of_nat (length raw) = (width * height * bytesPerPixel)%N ->
  N.of_nat (length filters) = height ->
  Forall (fun f => 0 <= f <= 4) filters ->
  unfilterScanlines (filterScanlines raw width bytesPerPixel filters)
                    width height bytesPerPixel = Ok raw.
Proof.
  intros Hraw Hlen Hfl Hrange. unfold unfilterScanlines, filterScanlines.
  rewrite length_filterRows.
  replace (N.of_nat (length filters
                     * (N.to_nat (width * bytesPerPixel) + 1)) =?
           height * (width * bytesPerPixel + 1))%N with true
    by (symmetry; apply N.eqb_eq; lia).
  cbn [negb].
  replace (N.to_nat (width * height * bytesPerPixel))
    with (length raw) by lia.
  rewrite N2Nat.inj_mul. apply unfilterRows_invert; try done; lia.
Qed.

Lemma pixels_N (w h : Z) :
  0 < w -> 0 < h ->
  N.of_nat (Z.to_nat (w * h)) = (Z.to_N w * Z.to_N h)%N.
Proof.
  intros Hw Hh. rewrite Z2Nat.inj_mul by lia.
  by rewrite Nat2N.inj_mul, !Z_nat_N.
Qed.

Section DecodeFacts.

Variable inflateSync : Buffer -> Throws Buffer.
Variable deflateSync : Buffer -> Buffer.

Lemma decodeImage_planes (w h ct : Z) (raw : Buffer) (filters : list Z)
    (datas : list Buffer) :
  0 < w -> 0 < h ->
  ct = 0 \/ ct = 2 \/ ct = 4 \/ ct = 6 ->
  datas <> [] ->
  is_buffer raw ->
  length raw = (Z.to_nat (w * h) * N.to_nat (samplesPerPixel ct))%nat ->
  length filters = Z.to_nat h ->
  Forall (fun f => 0 <= f <= 4) filters ->
  inflateSync (mjoin datas)
  = Ok (filterScanlines raw (Z.to_N w) (samplesPerPixel ct) filters) ->
  decodeImage inflateSync deflateSync
    {| width := w; height := h; bitDepth := 8; colorType := ct;
       interlace := 0; idatChunks := datas |}
  = Ok (mkParsedPng w h 8
          (deflateSync (rgbPlane ct (Z.to_nat (w * h)) raw))
          (deflateSync <$> alphaPlane ct (Z.to_nat (w * h)) raw)).
Proof.
  intros Hw Hh Hct Hdatas Hraw Hlen Hfl Hrange Hinflate.
  pose proof (pixels_N w h Hw Hh) as Hpx.
  unfold decodeImage.
  cbn [width height bitDepth colorType interlace idatChunks].
  replace (w =? 0) with false by (symmetry; apply Z.eqb_neq; lia).
  replace (h =? 0) with false by (symmetry; apply Z.eqb_neq; lia).
  rewrite bool_decide_eq_false_2 by done.
  cbn [orb Z.eqb Pos.eqb negb].
  assert (Hunfilter :
            unfilterScanlines
              (filterScanlines raw (Z.to_N w) (samplesPerPixel ct) filters)
              (Z.to_N w) (Z.to_N h) (samplesPerPixel ct) = Ok raw).
  { apply unfilterScanlines_filterScanlines; try done; lia. }
  set (pixels := Z.to_nat (w * h)) in *.
  destruct Hct as [->|[->|[->| ->]]];
    unfold samplesPerPixel in Hunfilter, Hlen, Hinflate;
    cbn [Z.eqb Pos.eqb N.to_nat Pos.to_nat Pos.iter_op Nat.add]
      in Hunfilter, Hlen, Hinflate;
    cbn [Z.eqb Pos.eqb negb andb]; rewrite Hinflate;
    cbn [mbind Throws_bind bindT]; rewrite Hunfilter;
    cbn [mbind Throws_bind bindT].
  - rewrite expand_gray by (done || lia). done.
  - rewrite rgbPlane_truecolour by lia. done.
  - rewrite expand_gray_alpha by (done || lia). done.
  - rewrite expand_rgba by (done || lia). done.
Qed.

(** X4: a well-formed file decodes to its pixels.  When the header
    declares width, height, bit depth 8, no interlacing and one of the
    four colour types, and the payloads of the data chunks, concatenated
    in order, inflate to the filtered rows of the raw samples, [parsePng]
    returns the header's dimensions, the colour plane with three bytes a
    pixel (grey broadcast to red, green and blue, truecolour copied) and,
    for the two colour types with an opacity sample, the opacity plane
    with one byte a pixel, each handed to [deflateSync]. *)
Theorem parsePng_decodes (cs idats : list Chunk) (hdr : Chunk) (tail : Buffer)
    (w h ct : Z) (raw : Buffer) (filters : list Z) :
  Forall wf_chunk cs ->
  filter known cs = hdr :: idats ->
  declares hdr w h 8 ct 0 ->
  0 < w < 2 ^ 32 -> 0 < h < 2 ^ 32 ->
  ct = 0 \/ ct = 2 \/ ct = 4 \/ ct = 6 ->
  Forall (fun c => typeTag c = IDAT) idats ->
  idats <> [] ->
  ends tail ->
  is_buffer raw ->
  length raw = (Z.to_nat (w * h) * N.to_nat (samplesPerPixel ct))%nat ->
  length filters = Z.to_nat h ->
  Forall (fun f => 0 <= f <= 4) filters ->
  inflateSync (mjoin (chunkData <$> idats))
  = Ok (filterScanlines raw (Z.to_N w) (samplesPerPixel ct) filters) ->
  parsePng inflateSync deflateSync (PNG_SIGNATURE ++ encodeChunks cs ++ tail)
  = Ok (mkParsedPng w h 8
          (deflateSync (rgbPlane ct (Z.to_nat (w * h)) raw))
          (deflateSync <$> alphaPlane ct (Z.to_nat (w * h)) raw)).
Proof.
  intros Hcs Hknown Hhdr Hw Hh Hct Hidats Hne Htail Hraw Hlen Hfl Hrange
         Hinflate.
  rewrite (parsePng_header_data inflateSync deflateSync cs idats hdr tail
             w h 8 ct 0) by (done || lia).
  apply (decodeImage_planes w h ct raw filters); try done; try lia.
  by destruct idats.
Qed.

End DecodeFacts.

(** *** What every decoded image satisfies *)

Lemma unfilterScanlines_sized inflated (w h bpp : N) raw :
  unfilterScanlines inflated w h bpp = Ok raw ->
  sized (N.to_nat (w * h * bpp)) raw.
Proof.
  unfold unfilterScanlines. case_match; [done|].
  apply forEachT_preserves.
  - intros row t t'. apply unfilterRow_sized.
  - split; [apply length_replicate|apply Buffer_alloc_is_buffer].
Qed.

Lemma readUInt32BE_range (buffer : Buffer) (offset : nat) (v : Z) :
  is_buffer buffer -> readUInt32BE buffer offset = Ok v -> 0 <= v < 2 ^ 32.
Proof.
  intros Hb. unfold readUInt32BE.
  pose proof (Forall_drop _ offset _ Hb) as Hd.
  destruct (drop offset buffer) as [|b0 [|b1 [|b2 [|b3 rest]]]]; try done.
  intros [= <-].
  apply Forall_cons in Hd as [H0 Hd]. apply Forall_cons in Hd as [H1 Hd].
  apply Forall_cons in Hd as [H2 Hd]. apply Forall_cons in Hd as [H3 _].
  unfold is_byte in *.
  change (2 ^ 24) with 16777216. change (2 ^ 16) with 65536.
  change (2 ^ 8) with 256. change (2 ^ 32) with 4294967296. lia.
Qed.

Lemma subarray_is_buffer (buffer : Buffer) (start end_ : nat) :
  is_buffer buffer -> is_buffer (subarray buffer start end_).
Proof. intros Hb. unfold subarray. by apply Forall_take, Forall_drop. Qed.

(** The declared dimensions stay 32-bit unsigned numbers through the
    chunk loop. *)
Definition dimensions_in_range (s : ScanState) : Prop :=
  0 <= width s < 2 ^ 32 /\ 0 <= height s < 2 ^ 32.

Definition stateOf (step : Step) : ScanState :=
  match step with Next _ s => s | Break s => s end.

Lemma scanChunk_dimensions buffer offset s step :
  is_buffer buffer -> dimensions_in_range s ->
  scanChunk buffer offset s = Ok step -> dimensions_in_range (stateOf step).
Proof.
  intros Hb Hs. unfold scanChunk.
  destruct (readUInt32BE buffer offset) as [len|e]; [|done].
  cbn [mbind Throws_bind bindT]. case_match; [done|].
  set (data := subarray buffer _ _).
  assert (Hdata : is_buffer data) by by apply subarray_is_buffer.
  destruct (decide (_ = IHDR)) as [Htype|Htype].
  - destruct (readUInt32BE data 0) as [w|e] eqn:Hw; [|done].
    destruct (readUInt32BE data 4) as [h|e] eqn:Hh; [|done].
    cbn [mbind Throws_bind bindT].
    destruct (readByte data 8); [|done].
    destruct (readByte data 9); [|done].
    destruct (readByte data 12); [|done].
    cbn [mbind Throws_bind bindT]. intros [= <-]. split; cbn.
    + by apply (readUInt32BE_range data 0).
    + by apply (readUInt32BE_range data 4).
  - repeat case_match; by intros [= <-].
Qed.

Lemma scanChunks_dimensions fuel buffer offset s s' :
  is_buffer buffer -> dimensions_in_range s ->
  scanChunks fuel buffer offset s = Ok s' -> dimensions_in_range s'.
Proof.
  intros Hb. revert offset s.
  induction fuel as [|fuel IH]; intros offset s Hs; cbn [scanChunks].
  - case_match; by intros [= <-].
  - case_match; [|by intros [= <-]].
    destruct (scanChunk buffer offset s) as [step|e] eqn:Hstep; [|done].
    apply scanChunk_dimensions in Hstep; [|done..].
    cbn [mbind Throws_bind bindT].
    destruct step as [offset' t|t]; cbn [stateOf] in Hstep.
    + by apply IH.
    + by intros [= <-].
Qed.

Section ImageFacts.

Variable inflateSync : Buffer -> Throws Buffer.
Variable deflateSync : Buffer -> Buffer.

Lemma decodeImage_planes_sized (s : ScanState) (png : ParsedPng) :
  dimensions_in_range s ->
  decodeImage inflateSync deflateSync s = Ok png ->
  let pixels := Z.to_nat (width s * height s) in
  png_width png = width s /\ png_height png = height s
  /\ width s <> 0 /\ height s <> 0
  /\ png_bitDepth png = 8
  /\ (exists rgb, rgbDeflated png = deflateSync rgb
                  /\ sized (pixels * 3) rgb)
  /\ (forall a, alphaDeflated png = Some a ->
                exists alpha, a = deflateSync alpha /\ sized pixels alpha)
  /\ (is_Some (alphaDeflated png)
      <-> colorType s = 4 \/ colorType s = 6).
Proof.
  intros [Hwr Hhr] Hrun pixels. unfold decodeImage in Hrun.
  destruct (Z.eqb_spec (width s) 0) as [|Hw]; [done|].
  destruct (Z.eqb_spec (height s) 0) as [|Hh]; [done|].
  cbn [orb] in Hrun. case_bool_decide; [done|].
  destruct (Z.eqb_spec (bitDepth s) 8) as [Hbd|]; [|done].
  cbn [negb] in Hrun.
  destruct (Z.eqb_spec (interlace s) 0) as [Hil|]; [|done].
  cbn [negb] in Hrun.
  destruct (inflateSync (mjoin (idatChunks s))) as [inflated|e];
    [|by repeat case_match].
  cbn [mbind Throws_bind bindT] in Hrun.
  assert (Hpair : forall (body : nat -> Buffer * Buffer
                                 -> Throws (Buffer * Buffer)) planes,
             (forall i rgb alpha st,
                 body i (rgb, alpha) = Ok st ->
                 exists p v1 v2 v3 v4,
                   st = (writeByte (writeByte (writeByte rgb p v1)
                                              (p + 1) v2) (p + 2) v3,
                         writeByte alpha i v4)) ->
             forEachT body (seq 0 pixels)
                      (Buffer_alloc (pixels * 3), Buffer_alloc pixels)
             = Ok planes ->
             sized (pixels * 3) planes.1 /\ sized pixels planes.2).
  { intros body planes Hbody.
    apply (forEachT_preserves body
             (fun st => sized (pixels * 3) st.1 /\ sized pixels st.2)).
    - intros i [rgb alpha] st [[Hl1 Hb1] [Hl2 Hb2]] Hst.
      apply Hbody in Hst as (p & v1 & v2 & v3 & v4 & ->). cbn [fst snd].
      split; (split; [by rewrite !length_writeByte|]);
        by repeat apply writeByte_is_buffer.
    - split; (split; [apply length_replicate|apply Buffer_alloc_is_buffer]). }
  destruct (Z.eqb_spec (colorType s) 6) as [Hct|Hn6].
  { rewrite Hct in Hrun. cbn [Z.eqb Pos.eqb negb andb] in Hrun.
    destruct (unfilterScanlines _ _ _ _) as [raw|e]; [|done].
    cbn [mbind Throws_bind bindT] in Hrun.
    destruct (forEachT _ _ _) as [planes|e] eqn:Hloop; [|done].
    cbn [mbind Throws_bind bindT] in Hrun. injection Hrun as <-.
    eapply Hpair in Hloop.
    - destruct Hloop as [H1 H2].
      cbn. repeat (split; [done|]). split; [by eexists|].
      split; [intros a [= <-]; by eexists|]. split; [by right|by eexists].
    - intros i rgb alpha st.
      destruct (readByte raw (i * 4)); [|done].
      destruct (readByte raw (i * 4 + 1)); [|done].
      destruct (readByte raw (i * 4 + 2)); [|done].
      destruct (readByte raw (i * 4 + 3)); [|done].
      cbn [mbind Throws_bind bindT]. intros [= <-]. by repeat eexists. }
  destruct (Z.eqb_spec (colorType s) 4) as [Hct|Hn4].
  { rewrite Hct in Hrun. cbn [Z.eqb Pos.eqb negb andb] in Hrun.
    destruct (unfilterScanlines _ _ _ _) as [raw|e]; [|done].
    cbn [mbind Throws_bind bindT] in Hrun.
    destruct (forEachT _ _ _) as [planes|e] eqn:Hloop; [|done].
    cbn [mbind Throws_bind bindT] in Hrun. injection Hrun as <-.
    eapply Hpair in Hloop.
    - destruct Hloop as [H1 H2].
      cbn. repeat (split; [done|]). split; [by eexists|].
      split; [intros a [= <-]; by eexists|]. split; [by left|by eexists].
    - intros i rgb alpha st.
      destruct (readByte raw (i * 2)); [|done].
      destruct (readByte raw (i * 2 + 1)); [|done].
      cbn [mbind Throws_bind bindT]. intros [= <-]. by repeat eexists. }
  destruct (Z.eqb_spec (colorType s) 2) as [Hct|Hn2].
  { rewrite Hct in Hrun. cbn [Z.eqb Pos.eqb negb andb] in Hrun.
    destruct (unfilterScanlines _ _ _ _) as [raw|e] eqn:Hraw; [|done].
    cbn [mbind Throws_bind bindT] in Hrun. injection Hrun as <-.
    apply unfilterScanlines_sized in Hraw as [Hl Hb].
    cbn. repeat (split; [done|]). split.
    - exists raw. split; [done|]. split; [|done].
      rewrite Hl. subst pixels.
      pose proof (pixels_N (width s) (height s)) as Hpx. lia.
    - split; [done|]. split; [by intros [a Ha]|intros [?|?]; lia]. }
  destruct (Z.eqb_spec (colorType s) 0) as [Hct|Hn0]; [|done].
  rewrite Hct in Hrun. cbn [Z.eqb Pos.eqb negb andb] in Hrun.
  destruct (unfilterScanlines _ _ _ _) as [raw|e]; [|done].
  cbn [mbind Throws_bind bindT] in Hrun.
  destruct (forEachT _ _ _) as [rgb|e] eqn:Hloop; [|done].
  cbn [mbind Throws_bind bindT] in Hrun. injection Hrun as <-.
  cbn. repeat (split; [done|]). split.
  - exists rgb. split; [done|]. revert Hloop. apply forEachT_preserves.
    + intros i t t' [Hl Hb]. destruct (readByte raw i); [|done].
      cbn [mbind Throws_bind bindT]. intros [= <-].
      split; [by rewrite !length_writeByte|].
      by repeat apply writeByte_is_buffer.
    + split; [apply length_replicate|apply Buffer_alloc_is_buffer].
  - split; [done|]. split; [by intros [a Ha]|intros [?|?]; lia].
Qed.

(** X5: what holds of every image [parsePng] returns, whatever the bytes
    of the file: the file starts with the signature, the bit depth is 8,
    width and height are between 1 and 2^32-1, the colour plane handed to
    [deflateSync] has exactly three bytes for each of the width*height
    pixels and the opacity plane, when there is one, exactly one byte for
    each pixel, all of them in 0..255. *)
Theorem parsePng_image_invariant (buffer : Buffer) (png : ParsedPng) :
  is_buffer buffer ->
  parsePng inflateSync deflateSync buffer = Ok png ->
  let pixels := Z.to_nat (png_width png * png_height png) in
  take 8 buffer = PNG_SIGNATURE
  /\ png_bitDepth png = 8
  /\ 0 < png_width png < 2 ^ 32
  /\ 0 < png_height png < 2 ^ 32
  /\ (exists rgb, rgbDeflated png = deflateSync rgb
                  /\ length rgb = (pixels * 3)%nat /\ is_buffer rgb)
  /\ (forall a, alphaDeflated png = Some a ->
                exists alpha, a = deflateSync alpha
                              /\ length alpha = pixels /\ is_buffer alpha).
Proof.
  intros Hb Hrun. unfold parsePng in Hrun.
  destruct (Nat.ltb_spec (length buffer) 8) as [|Hlen]; [done|].
  cbn [orb] in Hrun. case_bool_decide as Hsig; [|done].
  cbn [negb] in Hrun.
  destruct (scanChunks _ _ _ _) as [s|e] eqn:Hscan; [|done].
  cbn [mbind Throws_bind bindT] in Hrun.
  apply scanChunks_dimensions in Hscan; [|done|by compute].
  pose proof Hscan as [Hw Hh].
  apply decodeImage_planes_sized in Hrun
    as (-> & -> & Hw0 & Hh0 & Hbd & Hrgb & Halpha & _); [|done].
  cbn zeta. split.
  { unfold subarray in Hsig. by rewrite drop_0 in Hsig. }
  split; [done|]. split; [lia|]. split; [lia|]. split.
  - destruct Hrgb as (rgb & ? & ? & ?). by exists rgb.
  - intros a Ha. destruct (Halpha a Ha) as (alpha & ? & ? & ?).
    by exists alpha.
Qed.

End ImageFacts.

(** The sample image with a header that declares 16-bit samples. *)
Definition sample_IHDR16 : Chunk :=
  mkChunk IHDR (be32 1 ++ be32 1 ++ [16; 0; 0; 0; 0]) [0; 0; 0; 0].

(** X2 at the sample image with a 16-bit header. *)
Lemma parsePng_unsupported_format_witness :
  parsePng Zlib.inflateSync Zlib.deflateSync
    (PNG_SIGNATURE ++ encodeChunks [sample_IHDR16; sample_tEXt; sample_IDAT]
                   ++ encodeChunk sample_IEND)
  = Err (ErrBitDepth 16).
Proof.
  apply (parsePng_unsupported_format Zlib.inflateSync Zlib.deflateSync
           [sample_IHDR16; sample_tEXt; sample_IDAT] [sample_IDAT]
           sample_IHDR16 (encodeChunk sample_IEND) 1 1 16 0 0).
  - repeat constructor.
  - reflexivity.
  - split; [reflexivity|]. by exists 0, 0, [].
  - lia.
  - lia.
  - by repeat constructor.
  - done.
  - apply (ends_terminator _ sample_IEND []);
      [repeat constructor|reflexivity|by rewrite app_nil_r].
  - lia.
Defined.

(** X3 at a buffer of seven bytes and at the sample header followed by a
    chunk that declares 100 bytes and holds none. *)
Lemma parsePng_malformed_container_witness :
  parsePng Zlib.inflateSync Zlib.deflateSync [137; 80; 78; 71; 13; 10; 26]
    = Err ErrSignature
  /\ parsePng Zlib.inflateSync Zlib.deflateSync
       (PNG_SIGNATURE ++ encodeChunks [sample_IHDR]
                      ++ (be32 100 ++ IDAT ++ [0; 0; 0; 0]))
     = Err ErrChunkLength.
Proof.
  pose proof (parsePng_malformed_container Zlib.inflateSync Zlib.deflateSync)
    as (Hsig & Hcut & _).
  split.
  - apply Hsig. discriminate.
  - apply (Hcut [sample_IHDR] _ 100).
    + repeat constructor.
    + constructor; [|constructor].
      split; [discriminate|intros _; cbn; lia].
    + cbn. lia.
    + reflexivity.
    + cbn. lia.
Defined.

(** A 1x2 image with red, green, blue and opacity samples, its first row
    filtered with selector 1 and its second with selector 4. *)
Definition sample_rgba : Buffer := [10; 20; 30; 255; 200; 100; 50; 128].
Definition sample_IHDR_rgba : Chunk :=
  mkChunk IHDR (be32 1 ++ be32 2 ++ [8; 6; 0; 0; 0]) [0; 0; 0; 0].
Definition sample_IDAT_rgba : Chunk :=
  mkChunk IDAT (Zlib.deflateSync (filterScanlines sample_rgba 1 4 [1; 4]))
          [0; 0; 0; 0].

(** X4 at the 1x2 sample image. *)
Lemma parsePng_decodes_witness :
  parsePng Zlib.inflateSync Zlib.deflateSync
    (PNG_SIGNATURE
       ++ encodeChunks [sample_IHDR_rgba; sample_tEXt; sample_IDAT_rgba]
       ++ encodeChunk sample_IEND)
  = Ok (mkParsedPng 1 2 8
          (Zlib.deflateSync [10; 20; 30; 200; 100; 50])
          (Some (Zlib.deflateSync [255; 128]))).
Proof.
  apply (parsePng_decodes Zlib.inflateSync Zlib.deflateSync
           [sample_IHDR_rgba; sample_tEXt; sample_IDAT_rgba]
           [sample_IDAT_rgba] sample_IHDR_rgba (encodeChunk sample_IEND)
           1 2 6 sample_rgba [1; 4]).
  - repeat constructor.
  - reflexivity.
  - split; [reflexivity|]. by exists 0, 0, [].
  - lia.
  - lia.
  - tauto.
  - by repeat constructor.
  - done.
  - apply (ends_terminator _ sample_IEND []);
      [repeat constructor|reflexivity|by rewrite app_nil_r].
  - repeat constructor; unfold is_byte; lia.
  - reflexivity.
  - reflexivity.
  - repeat constructor; lia.
  - reflexivity.
Defined.

(** X5 at the 1x1 sample image. *)
Lemma parsePng_image_invariant_witness :
  let buffer :=
    PNG_SIGNATURE ++ encodeChunks [sample_IHDR; sample_IDAT; sample_IEND] in
  let png := mkParsedPng 1 1 8 (Zlib.deflateSync [77; 77; 77]) None in
  take 8 buffer = PNG_SIGNATURE
  /\ png_bitDepth png = 8
  /\ 0 < png_width png < 2 ^ 32
  /\ 0 < png_height png < 2 ^ 32
  /\ (exists rgb, rgbDeflated png = Zlib.deflateSync rgb
                  /\ length rgb = 3%nat /\ is_buffer rgb)
  /\ (forall a, alphaDeflated png = Some a ->
                exists alpha, a = Zlib.deflateSync alpha
                              /\ length alpha = 1%nat /\ is_buffer alpha).
Proof.
  intros buffer png.
  apply (parsePng_image_invariant Zlib.inflateSync Zlib.deflateSync
           buffer png).
  - let b := eval vm_compute in buffer in change (is_buffer b).
    repeat constructor; unfold is_byte; lia.
  - reflexivity.
Defined.

End Png.

(** * Document encoder *)

Module Pdf.

(** [objects: Buffer[]].  A slot is [None] where the array has a hole. *)
Abbreviation PdfBuilder := (list (option Buffer)).

Definition newPdfBuilder : PdfBuilder := [].

Definition addObject (body : Buffer) (objects : PdfBuilder)
  : PdfBuilder * nat :=
  let objects' := objects ++ [Some body] in
  (objects', length objects').

(** [this.objects[objectId - 1] = body].  Inside the array the slot is
    overwritten; past its end the array grows, with holes up to the slot;
    for the id 0 the store goes to the property "-1", which is no element
    of the array. *)
Definition setObject (objectId : nat) (body : Buffer) (objects : PdfBuilder)
  : PdfBuilder :=
  match objectId with
  | O => objects
  | Datatypes.S i =>
      if (i <? length objects)%nat then <[i := Some body]> objects
      else objects ++ replicate (i - length objects) None ++ [Some body]
  end.

Definition addRawObject (raw : string) (objects : PdfBuilder)
  : PdfBuilder * nat :=
  addObject (Buffer_from raw) objects.

Definition addPlaceholderObject (objects : PdfBuilder) : PdfBuilder * nat :=
  addObject (Buffer_from "<< >>") objects.

Definition addStreamObject (dict : string) (data : Buffer)
    (objects : PdfBuilder) : PdfBuilder * nat :=
  let header := Buffer_from (dict +:+ LF +:+ "stream" +:+ LF) in
  let footer := Buffer_from (LF +:+ "endstream") in
  addObject (header ++ data ++ footer) objects.

Definition pdfHeader : Buffer :=
  Buffer_from ("%PDF-1.4" +:+ LF +:+ "%"
               +:+ string_of_list_ascii (replicate 4 "255"%char) +:+ LF).

(** ["{id} 0 obj\n{body}\nendobj\n"]. *)
Definition objBlock (id : nat) (body : Buffer) : Buffer :=
  let objHeader := Buffer_from (toString id +:+ " 0 obj" +:+ LF) in
  let objFooter := Buffer_from (LF +:+ "endobj" +:+ LF) in
  objHeader ++ body ++ objFooter.

(** The variables the serialisation loop updates. *)
Record BuildState : Type := mkBuildState {
  chunks : list Buffer;
  offsets : list nat;
  offset : nat
}.

Definition buildObject (body : Buffer) (index : nat) (st : BuildState)
  : BuildState :=
  let block := objBlock (index + 1) body in
  {| chunks := chunks st ++ [block];
     offsets := offsets st ++ [offset st];
     offset := offset st + length block |}.

Definition xrefRow (currentOffset : nat) : string :=
  padStart (toString currentOffset) 10 "0" +:+ " 00000 n ".

Definition xrefText (rows : list string) (size : nat) : string :=
  "xref" +:+ LF +:+ "0 " +:+ toString size +:+ LF
  +:+ join LF rows +:+ LF.

Definition trailerText (size rootObjectId xrefStart : nat) : string :=
  "trailer" +:+ LF +:+ "<< /Size " +:+ toString size
  +:+ " /Root " +:+ toString rootObjectId +:+ " 0 R >>" +:+ LF
  +:+ "startxref" +:+ LF +:+ toString xrefStart +:+ LF
  +:+ "%%EOF" +:+ LF.

Definition build (rootObjectId : nat) (objects : PdfBuilder) : Throws Buffer :=
  let header := pdfHeader in
  let st :=
    forEachIndexed buildObject 0 objects
      {| chunks := [header]; offsets := [0%nat]; offset := length header |} in
  let xrefStart := offset st in
  xrefRows ←
    forEachT (fun i xrefRows =>
                match offsets st !! i with
                | None => Err ErrXrefOffset
                | Some currentOffset => Ok (xrefRows ++ [xrefRow currentOffset])
                end)
             (seq 1 (length (offsets st) - 1)) ["0000000000 65535 f "];
  let xref := xrefText xrefRows (length objects + 1) in
  let trailer := trailerText (length objects + 1) rootObjectId xrefStart in
  Ok (mjoin (chunks st ++ [Buffer_from (xref +:+ trailer)])).

(** ** The file format

    The bytes of a written object and of the cross-reference section with
    its trailer, written out from the file format, not from [build]: an
    object is "{id} 0 obj", a line feed, the body, a line feed, "endobj"
    and a line feed; a row of the table is the offset, with zeros before
    its numeral up to ten characters, and " 00000 n ". *)
Definition zeroPadded10 (off : nat) : string :=
  string_of_list_ascii
    (replicate (10 - String.length (toString off)) "0"%char)
  +:+ toString off.

Definition writtenObject (id : nat) (body : Buffer) : Buffer :=
  Buffer_from (toString id +:+ " 0 obj" +:+ LF)
  ++ body ++ Buffer_from (LF +:+ "endobj" +:+ LF).

Definition writtenXref (offs : list nat) (rootObjectId xrefStart : nat)
  : Buffer :=
  Buffer_from ("xref" +:+ LF +:+ "0 " +:+ toString (length offs + 1) +:+ LF)
  ++ Buffer_from ("0000000000 65535 f " +:+ LF)
  ++ mjoin ((fun off =>
               Buffer_from (zeroPadded10 off +:+ " 00000 n " +:+ LF))
              <$> offs)
  ++ Buffer_from ("trailer" +:+ LF
                  +:+ "<< /Size " +:+ toString (length offs + 1)
                  +:+ " /Root " +:+ toString rootObjectId
                  +:+ " 0 R >>" +:+ LF
                  +:+ "startxref" +:+ LF +:+ toString xrefStart +:+ LF
                  +:+ "%%EOF" +:+ LF).

(** Registering a sequence of bodies, one [addObject] each; the ids
    returned, in order. *)
Fixpoint addObjects (bodies : list Buffer) (objects : PdfBuilder)
  : PdfBuilder * list nat :=
  match bodies with
  | [] => (objects, [])
  | body :: rest =>
      let '(objects', id) := addObject body objects in
      let '(objects'', ids) := addObjects rest objects' in
      (objects'', id :: ids)
  end.

Example build_one_object :
  build 1 (addObjects [Buffer_from "<< >>"] newPdfBuilder).1
  = Ok (pdfHeader
        ++ Buffer_from ("1 0 obj" +:+ LF +:+ "<< >>" +:+ LF +:+ "endobj" +:+ LF
                        +:+ "xref" +:+ LF +:+ "0 2" +:+ LF
                        +:+ "0000000000 65535 f " +:+ LF
                        +:+ "0000000015 00000 n " +:+ LF
                        +:+ "trailer" +:+ LF
                        +:+ "<< /Size 2 /Root 1 0 R >>" +:+ LF
                        +:+ "startxref" +:+ LF +:+ "36" +:+ LF
                        +:+ "%%EOF" +:+ LF)).
Proof. vm_compute. reflexivity. Qed.




(** ** Serialisation *)

(** The blocks the loop of [build] emits for [bodies], the first with
    the id [index + 1], and the offsets it records for them when the
    first starts at [start]. *)
Fixpoint objBlocks (index : nat) (bodies : list Buffer) : list Buffer :=
  match bodies with
  | [] => []
  | body :: rest => objBlock (index + 1) body :: objBlocks (S index) rest
  end.

Fixpoint objOffsets (start index : nat) (bodies : list Buffer) : list nat :=
  match bodies with
  | [] => []
  | body :: rest =>
      start :: objOffsets (start + length (objBlock (index + 1) body))
                          (S index) rest
  end.

Lemma length_objOffsets start index bodies :
  length (objOffsets start index bodies) = length bodies.
Proof.
  revert start index. induction bodies as [|b bodies IH]; intros; [done|].
  cbn [objOffsets length]. by rewrite IH.
Qed.

Lemma forEachIndexed_buildObject bodies index st :
  forEachIndexed buildObject index (Some <$> bodies) st =
  {| chunks := chunks st ++ objBlocks index bodies;
     offsets := offsets st ++ objOffsets (offset st) index bodies;
     offset := offset st + length (mjoin (objBlocks index bodies)) |}.
Proof.
  revert index st. induction bodies as [|b bodies IH]; intros index st.
  - destruct st. cbn. by rewrite !app_nil_r, Nat.add_0_r.
  - cbn [fmap list_fmap forEachIndexed]. fold (fmap (M:=list) (@Some Buffer)).
    rewrite IH. cbn [buildObject chunks offsets offset objBlocks objOffsets].
    rewrite <- !app_assoc. cbn [app mjoin list_join].
    rewrite length_app. f_equal. exact (eq_sym (Nat.add_assoc _ _ _)).
Qed.

Lemma objOffsets_point bodies index start (prefix suffix : Buffer) i body off :
  length prefix = start ->
  bodies !! i = Some body ->
  objOffsets start index bodies !! i = Some off ->
  exists rest,
    drop off (prefix ++ mjoin (objBlocks index bodies) ++ suffix)
    = objBlock (index + i + 1) body ++ rest.
Proof.
  revert index start prefix i.
  induction bodies as [|b bodies IH]; intros index start prefix i Hp Hb Ho;
    [done|].
  destruct i as [|i]; cbn [objOffsets objBlocks mjoin list_join] in *.
  - injection Hb as ->. injection Ho as <-. subst start.
    rewrite drop_app_length, <- app_assoc, Nat.add_0_r. eauto.
  - cbn [lookup list_lookup] in Hb, Ho.
    destruct (IH (S index) (start + length (objBlock (index + 1) b))%nat
                 (prefix ++ objBlock (index + 1) b) i) as [rest Hrest];
      [rewrite length_app; lia|done|done|].
    exists rest.
    replace (index + S i + 1)%nat with (S index + i + 1)%nat by lia.
    rewrite <- Hrest. by rewrite <- !app_assoc.
Qed.

Lemma xrefRows_loop (pre l : list nat) (rows : list string) :
  forEachT (fun i xrefRows =>
              match (pre ++ l) !! i with
              | None => Err ErrXrefOffset
              | Some currentOffset => Ok (xrefRows ++ [xrefRow currentOffset])
              end)
           (seq (length pre) (length l)) rows
  = Ok (rows ++ (xrefRow <$> l)).
Proof.
  revert pre rows. induction l as [|o l IH]; intros pre rows.
  - cbn. by rewrite app_nil_r.
  - cbn [length seq forEachT].
    rewrite lookup_app_r, Nat.sub_diag by lia. cbn [lookup list_lookup].
    specialize (IH (pre ++ [o]) (rows ++ [xrefRow o])).
    rewrite length_app, <- !app_assoc in IH. cbn [length app] in IH.
    rewrite Nat.add_1_r in IH. by rewrite IH.
Qed.

Lemma addObjects_spec bodies objects :
  addObjects bodies objects
  = (objects ++ (Some <$> bodies), seq (length objects + 1) (length bodies)).
Proof.
  revert objects. induction bodies as [|b bodies IH]; intros objects.
  - cbn. by rewrite app_nil_r.
  - cbn [addObjects addObject]. rewrite IH, length_app. cbn [length].
    rewrite <- app_assoc. cbn [fmap list_fmap app seq length].
    by rewrite !Nat.add_1_r.
Qed.

Lemma build_dense (bodies : list Buffer) (rootObjectId : nat) :
  build rootObjectId (Some <$> bodies)
  = Ok ((pdfHeader ++ mjoin (objBlocks 0 bodies))
        ++ Buffer_from
             (xrefText ("0000000000 65535 f "
                          :: (xrefRow <$> objOffsets (length pdfHeader) 0
                                                     bodies))
                       (length bodies + 1)
              +:+ trailerText (length bodies + 1) rootObjectId
                              (length (pdfHeader
                                         ++ mjoin (objBlocks 0 bodies))))).
Proof.
  unfold build. rewrite forEachIndexed_buildObject.
  cbn [chunks offsets offset]. rewrite length_fmap.
  set (offs := objOffsets (length pdfHeader) 0 bodies).
  set (blocks := objBlocks 0 bodies).
  replace (length ([0%nat] ++ offs) - 1)%nat with (length offs)
    by (cbn [app length]; lia).
  rewrite (xrefRows_loop [0%nat] offs). cbn [mbind Throws_bind bindT app].
  f_equal.
  change (pdfHeader :: blocks ++ ?tl) with ([pdfHeader] ++ blocks ++ tl).
  rewrite !join_app. cbn [mjoin list_join].
  rewrite !app_nil_r, length_app. by rewrite <- app_assoc.
Qed.

(** The text [build] joins for the cross-reference section and the
    trailer is the section of the file format. *)
Lemma xref_bytes (offs : list nat) (rootObjectId xrefStart : nat) :
  Buffer_from
    (xrefText ("0000000000 65535 f " :: (xrefRow <$> offs)) (length offs + 1)
     +:+ trailerText (length offs + 1) rootObjectId xrefStart)
  = writtenXref offs rootObjectId xrefStart.
Proof.
  unfold xrefText, writtenXref.
  rewrite Buffer_from_app.
  replace ("xref" +:+ LF +:+ "0 " +:+ toString (length offs + 1) +:+ LF
           +:+ join LF ("0000000000 65535 f " :: (xrefRow <$> offs)) +:+ LF)
    with (("xref" +:+ LF +:+ "0 " +:+ toString (length offs + 1) +:+ LF)
          +:+ (join LF ("0000000000 65535 f " :: (xrefRow <$> offs)) +:+ LF)).
  2:{ by rewrite !string_app_assoc. }
  rewrite Buffer_from_app, Buffer_from_join_lines, <- list_fmap_compose.
  rewrite <- !app_assoc. do 4 f_equal.
  apply list_fmap_ext. intros _ off _. cbn [compose].
  unfold xrefRow, padStart, zeroPadded10. by rewrite string_app_assoc.
Qed.

Lemma object_bytes (id : nat) (body : Buffer) :
  objBlock id body = writtenObject id body.
Proof. reflexivity. Qed.

Lemma objBlocks_imap (index : nat) (bodies : list Buffer) :
  objBlocks index bodies
  = imap (fun i body => writtenObject (index + i + 1) body) bodies.
Proof.
  revert index. induction bodies as [|b bodies IH]; intros index; [done|].
  cbn [objBlocks imap]. rewrite IH, Nat.add_0_r. f_equal.
  apply imap_ext. intros i body _. cbn [compose].
  by replace (S index + i + 1)%nat with (index + S i + 1)%nat by lia.
Qed.

Lemma objOffsets_lookup (start index : nat) (bodies : list Buffer) i off :
  objOffsets start index bodies !! i = Some off ->
  off = (start + length (mjoin (take i (objBlocks index bodies))))%nat.
Proof.
  revert start index i.
  induction bodies as [|b bodies IH]; intros start index i; [done|].
  destruct i as [|i]; cbn [objOffsets objBlocks lookup list_lookup firstn].
  - intros [= <-]. cbn. lia.
  - intros ->%IH. cbn [mjoin list_join]. rewrite length_app.
    exact (eq_sym (Nat.add_assoc _ _ _)).
Qed.

Lemma pdfHeader_bytes :
  pdfHeader = Buffer_from ("%PDF-1.4" +:+ LF) ++ [37; 255; 255; 255; 255; 10].
Proof. reflexivity. Qed.

(** C1: for every sequence of registered objects and every root id,
    [build] returns a byte stream and there is one offset for each object
    such that: at the offset of the i-th object (1-based) the stream holds
    "{i} 0 obj", a line feed, the body, a line feed, "endobj" and a line
    feed; and from some offset [xrefStart] to its end the stream is the
    cross-reference section and the trailer: "xref", "0 {count + 1}", the
    free entry "0000000000 65535 f ", then for each object, in order, a
    row that is its offset with zeros before the numeral up to ten
    characters followed by " 00000 n ", then the trailer with /Size the
    object count plus one and /Root the root id, "startxref", the numeral
    of [xrefStart] and "%%EOF".  The numerals are decimal: [toString n]
    is the decimal numeral of [n]; a text stands for the bytes of its
    characters, the line feed [LF] for the byte 10. *)
Theorem build_xref_offsets (bodies : list Buffer) (rootObjectId : nat) :
  exists (out : Buffer) (offs : list nat) (xrefStart : nat),
    build rootObjectId (addObjects bodies newPdfBuilder).1 = Ok out
    /\ length offs = length bodies
    /\ (forall i body off,
           bodies !! i = Some body -> offs !! i = Some off ->
           exists rest,
             drop off out
             = Buffer_from (toString (i + 1) +:+ " 0 obj" +:+ LF)
               ++ body ++ Buffer_from (LF +:+ "endobj" +:+ LF) ++ rest)
    /\ (xrefStart <= length out)%nat
    /\ drop xrefStart out
       = Buffer_from ("xref" +:+ LF
                      +:+ "0 " +:+ toString (length bodies + 1) +:+ LF)
         ++ Buffer_from ("0000000000 65535 f " +:+ LF)
         ++ mjoin ((fun off =>
                      Buffer_from
                        ((string_of_list_ascii
                            (replicate (10 - String.length (toString off))
                                       "0"%char)
                          +:+ toString off)
                         +:+ " 00000 n " +:+ LF)) <$> offs)
         ++ Buffer_from ("trailer" +:+ LF
                         +:+ "<< /Size " +:+ toString (length bodies + 1)
                         +:+ " /Root " +:+ toString rootObjectId
                         +:+ " 0 R >>" +:+ LF
                         +:+ "startxref" +:+ LF
                         +:+ toString xrefStart +:+ LF
                         +:+ "%%EOF" +:+ LF)
    /\ (forall n, decimalOf n (Buffer_from (toString n)))
    /\ Buffer_from LF = [10]
    /\ Buffer_from " 0 obj" = [32; 48; 32; 111; 98; 106].
Proof.
  rewrite addObjects_spec. cbn [fst newPdfBuilder app].
  rewrite build_dense.
  set (offs := objOffsets (length pdfHeader) 0 bodies).
  set (blocks := objBlocks 0 bodies).
  assert (Hoffs : length offs = length bodies) by apply length_objOffsets.
  rewrite <- Hoffs, xref_bytes.
  exists ((pdfHeader ++ mjoin blocks)
          ++ writtenXref offs rootObjectId (length (pdfHeader ++ mjoin blocks))),
    offs, (length (pdfHeader ++ mjoin blocks)).
  split; [done|]. split; [done|]. split; [|split; [|split]].
  - intros i body off Hb Ho.
    destruct (objOffsets_point bodies 0 (length pdfHeader) pdfHeader
                (writtenXref offs rootObjectId
                   (length (pdfHeader ++ mjoin blocks))) i body off)
      as [rest Hrest]; [done..|].
    exists rest. rewrite <- app_assoc. fold blocks in Hrest. rewrite Hrest.
    change (0 + i + 1)%nat with (i + 1)%nat.
    rewrite object_bytes. unfold writtenObject.
    by rewrite <- !app_assoc.
  - rewrite !length_app. lia.
  - rewrite drop_app_length. unfold writtenXref, zeroPadded10.
    by rewrite Hoffs.
  - split; [apply toString_decimal|]. split; reflexivity.
Qed.

(** [build] never throws: every index the cross-reference loop reads
    is inside [offsets]. *)
Lemma build_total (rootObjectId : nat) (objects : PdfBuilder) :
  exists out, build rootObjectId objects = Ok out.
Proof.
  unfold build.
  set (st := forEachIndexed buildObject 0 objects _).
  destruct (Png.forEachT_seq_inv
              (fun i xrefRows =>
                 match offsets st !! i with
                 | None => Err ErrXrefOffset
                 | Some currentOffset =>
                     Ok (xrefRows ++ [xrefRow currentOffset])
                 end)
              (fun _ _ => True) (length (offsets st) - 1) 1
              ["0000000000 65535 f "])
    as (rows & -> & _); [done| |by eexists].
  intros i t Hi _.
  destruct (lookup_lt_is_Some_2 (offsets st) i) as [o ->]; [lia|].
  by eexists.
Qed.

(** ** Identifiers *)





(** ** Arrays without holes *)

Lemma dense_bodies (objects : PdfBuilder) :
  Forall is_Some objects -> exists bodies, objects = Some <$> bodies.
Proof.
  induction 1 as [|o objects [body ->] _ [bodies ->]]; [by exists []|].
  by exists (body :: bodies).
Qed.

(** ** Arrays with holes *)

(** The blocks and offsets the loop of [build] produces for an array
    that may have holes: a hole gives no block and no offset, and the
    slot after it keeps its own id. *)
Fixpoint storedBlocks (index : nat) (objects : PdfBuilder) : list Buffer :=
  match objects with
  | [] => []
  | None :: rest => storedBlocks (S index) rest
  | Some body :: rest => objBlock (index + 1) body :: storedBlocks (S index) rest
  end.

Fixpoint storedOffsets (start index : nat) (objects : PdfBuilder)
  : list nat :=
  match objects with
  | [] => []
  | None :: rest => storedOffsets start (S index) rest
  | Some body :: rest =>
      start :: storedOffsets (start + length (objBlock (index + 1) body))
                             (S index) rest
  end.

Lemma length_storedOffsets start index (objects : PdfBuilder) :
  length (storedOffsets start index objects)
  = length (filter is_Some objects).
Proof.
  revert start index.
  induction objects as [|[body|] objects IH]; intros start index; [done|..].
  - rewrite filter_cons_True by by eexists.
    cbn [storedOffsets length]. by rewrite IH.
  - rewrite filter_cons_False by by intros [? [=]].
    cbn [storedOffsets]. by rewrite IH.
Qed.

Lemma forEachIndexed_stored (objects : PdfBuilder) index st :
  forEachIndexed buildObject index objects st =
  {| chunks := chunks st ++ storedBlocks index objects;
     offsets := offsets st ++ storedOffsets (offset st) index objects;
     offset := offset st + length (mjoin (storedBlocks index objects)) |}.
Proof.
  revert index st. induction objects as [|[body|] objects IH]; intros index st.
  - destruct st. cbn. by rewrite !app_nil_r, Nat.add_0_r.
  - cbn [forEachIndexed]. rewrite IH.
    cbn [buildObject chunks offsets offset storedBlocks storedOffsets].
    rewrite <- !app_assoc. cbn [app mjoin list_join].
    rewrite length_app. f_equal. exact (eq_sym (Nat.add_assoc _ _ _)).
  - cbn [forEachIndexed storedBlocks storedOffsets]. apply IH.
Qed.

Lemma filter_is_Some_length {A} (l : list (option A)) :
  length (filter is_Some l) = length l <-> Forall is_Some l.
Proof.
  split.
  - induction l as [|[a|] l IH]; intros Hlen; [done|..].
    + rewrite filter_cons_True in Hlen by by eexists.
      constructor; [by eexists|]. apply IH. cbn [length] in Hlen. lia.
    + rewrite filter_cons_False in Hlen by by intros [? [=]].
      pose proof (length_filter is_Some l). cbn [length] in Hlen. lia.
  - induction 1 as [|a l Ha Hl IH]; [done|].
    rewrite filter_cons_True by done. cbn [length]. by rewrite IH.
Qed.

(** X9: [build] returns for every state of the object array, also one
    with holes left by [setObject] past the end: the missing-offset error
    is never raised.  The output is the header, one block for each stored
    object under its own id, and the cross-reference section with one row
    for each stored object; /Size is the array length plus one, so the
    table has as many rows as /Size declares exactly when the array has
    no hole, and [setObject] two or more past the end leaves it short. *)
Theorem build_any_array (rootObjectId : nat) (objects : PdfBuilder) :
  (exists (objectsPart : Buffer) (offs : list nat),
      build rootObjectId objects
      = Ok (objectsPart
            ++ Buffer_from
                 (xrefText ("0000000000 65535 f " :: (xrefRow <$> offs))
                           (length objects + 1)
                  +:+ trailerText (length objects + 1) rootObjectId
                                  (length objectsPart)))
      /\ objectsPart = pdfHeader ++ mjoin (storedBlocks 0 objects)
      /\ length offs = length (filter is_Some objects)
      /\ (length offs = length objects <-> Forall is_Some objects))
  /\ (forall (objectId : nat) (body : Buffer),
         (length objects + 2 <= objectId)%nat ->
         ~ Forall is_Some (setObject objectId body objects)).
Proof.
  split.
  - unfold build. rewrite forEachIndexed_stored.
    cbn [chunks offsets offset].
    set (offs := storedOffsets (length pdfHeader) 0 objects).
    set (blocks := storedBlocks 0 objects).
    replace (length ([0%nat] ++ offs) - 1)%nat with (length offs)
      by (cbn [app length]; lia).
    rewrite (xrefRows_loop [0%nat] offs). cbn [mbind Throws_bind bindT app].
    exists (pdfHeader ++ mjoin blocks), offs.
    assert (Hlen : length offs = length (filter is_Some objects))
      by apply length_storedOffsets.
    split; [|split; [done|split; [done|]]].
    + f_equal.
      change (pdfHeader :: blocks ++ ?tl) with ([pdfHeader] ++ blocks ++ tl).
      rewrite !join_app. cbn [mjoin list_join].
      rewrite !app_nil_r, length_app. by rewrite <- app_assoc.
    + rewrite Hlen. apply filter_is_Some_length.
  - intros objectId body Hid Hall. unfold setObject in Hall.
    destruct objectId as [|i]; [lia|].
    destruct (Nat.ltb_spec i (length objects)); [lia|].
    apply Forall_app in Hall as [_ Hall].
    apply Forall_app in Hall as [Hall _].
    destruct (i - length objects)%nat as [|k] eqn:Hk; [lia|].
    cbn [replicate] in Hall. apply Forall_cons in Hall as [[? [=]] _].
Qed.

End Pdf.

(** * Tile catalog *)

Module Catalog.

Record ParsedTileFile : Type := mkTileFile {
  filePath : string;
  label : string
}.

Inductive Suit : Type := suit_m | suit_p | suit_s | suit_z.

#[global] Instance Suit_eq_dec : EqDecision Suit.
Proof. solve_decision. Defined.

Definition SUIT_ORDER (suit : Suit) : Z :=
  match suit with suit_m => 0 | suit_p => 1 | suit_s => 2 | suit_z => 3 end.

(** ** Numbers

    A number of the runtime is a double.  The catalog meets the doubles
    that are integers and the infinities; [NaN] is what an operation
    without a result returns. *)

Inductive JsNumber : Type :=
| Finite (value : Z)
| PosInfinity
| NegInfinity
| NaN.

#[global] Instance JsNumber_eq_dec : EqDecision JsNumber.
Proof. solve_decision. Defined.

(** The magnitude [m], of more than 53 bits, rounded to 53 significant
    bits: to the nearest multiple of 2^shift, and to the one with the even
    quotient when two are equally near. *)
Definition roundMagnitude (m : Z) : Z :=
  let shift := Z.log2 m + 1 - 53 in
  let q := m / 2 ^ shift in
  let r := m mod 2 ^ shift in
  let half := 2 ^ (shift - 1) in
  (if (half <? r) || ((r =? half) && Z.odd q) then q + 1 else q) * 2 ^ shift.

(** The double nearest to the integer [n]: [n] itself when it has at
    most 53 bits, infinite from 2^1024 - 2^970 on. *)
Definition roundDouble (n : Z) : JsNumber :=
  let magnitude := Z.abs n in
  if Z.log2 magnitude + 1 <=? 53 then Finite n
  else
    let rounded := roundMagnitude magnitude in
    if 2 ^ 1024 <=? rounded
    then (if n <? 0 then NegInfinity else PosInfinity)
    else Finite (Z.sgn n * rounded).

(** [a - b]. *)
Definition jsMinus (a b : JsNumber) : JsNumber :=
  match a, b with
  | Finite x, Finite y => roundDouble (x - y)
  | Finite _, PosInfinity => NegInfinity
  | Finite _, NegInfinity => PosInfinity
  | PosInfinity, (Finite _ | NegInfinity) => PosInfinity
  | NegInfinity, (Finite _ | PosInfinity) => NegInfinity
  | _, _ => NaN
  end.

(** [a !== b] on numbers: [NaN] differs from every number. *)
Definition strictNotEqual (a b : JsNumber) : bool :=
  match a, b with
  | NaN, _ | _, NaN => true
  | _, _ => negb (bool_decide (a = b))
  end.

(** What the sort reads of the number a comparator returns: its sign,
    [NaN] counting as zero. *)
Definition sign (v : JsNumber) : Z :=
  match v with
  | Finite z => Z.sgn z
  | PosInfinity => 1
  | NegInfinity => -1
  | NaN => 0
  end.

Lemma bits_le (m : Z) : 0 <= m -> (Z.log2 m + 1 <=? 53) = true <-> m < 2 ^ 53.
Proof.
  intros Hm. rewrite Z.leb_le.
  destruct (Z.eq_dec m 0) as [->|Hne]; [cbn; lia|].
  rewrite (Z.log2_lt_pow2 m 53) by lia. lia.
Qed.

Lemma roundDouble_exact (n : Z) :
  Z.abs n < 2 ^ 53 -> roundDouble n = Finite n.
Proof.
  intros Hn. unfold roundDouble.
  by rewrite (proj2 (bits_le (Z.abs n) (Z.abs_nonneg n))) by lia.
Qed.

(** The rounded magnitude, for a magnitude of more than 53 bits. *)
Lemma rounded_bounds (m : Z) :
  2 ^ 53 <= m ->
  let shift := Z.log2 m + 1 - 53 in
  let q := m / 2 ^ shift in
  0 < shift /\ 2 ^ 52 <= q < 2 ^ 53 /\ 0 < 2 ^ shift
  /\ m = q * 2 ^ shift + m mod 2 ^ shift /\ 0 <= m mod 2 ^ shift < 2 ^ shift.
Proof.
  intros Hm shift q.
  assert (Hlog : 53 <= Z.log2 m) by (apply Z.log2_le_pow2; lia).
  assert (Hs : 0 < shift) by (subst shift; lia).
  assert (Hp : 0 < 2 ^ shift) by (apply Z.pow_pos_nonneg; lia).
  pose proof (Z.log2_spec m ltac:(lia)) as [Hlo Hhi].
  assert (Hsplit : Z.log2 m = 52 + shift) by (subst shift; lia).
  rewrite Hsplit, Z.pow_add_r in Hlo by lia.
  replace (Z.succ (Z.log2 m)) with (53 + shift) in Hhi by lia.
  rewrite Z.pow_add_r in Hhi by lia.
  pose proof (Z.div_mod m (2 ^ shift) ltac:(lia)) as Hdm.
  pose proof (Z.mod_pos_bound m (2 ^ shift) Hp) as Hr.
  split; [done|]. split; [|split; [done|split; [fold q; lia|done]]].
  subst q. split.
  - apply Z.div_le_lower_bound; lia.
  - apply Z.div_lt_upper_bound; lia.
Qed.

Lemma roundMagnitude_pos (m : Z) : 2 ^ 53 <= m -> 0 < roundMagnitude m.
Proof.
  intros Hm. destruct (rounded_bounds m Hm) as (Hs & Hq & Hp & _).
  unfold roundMagnitude. destruct (_ || _); nia.
Qed.

Lemma many_bits (n : Z) : 53 < Z.log2 (Z.abs n) + 1 -> 2 ^ 53 <= Z.abs n.
Proof.
  intros Hb. destruct (Z.lt_ge_cases (Z.abs n) (2 ^ 53)) as [Hlt|]; [|done].
  apply (bits_le _ (Z.abs_nonneg n)) in Hlt. apply Z.leb_le in Hlt. lia.
Qed.

Lemma sign_roundDouble (n : Z) : sign (roundDouble n) = Z.sgn n.
Proof.
  unfold roundDouble.
  destruct (Z.leb_spec (Z.log2 (Z.abs n) + 1) 53) as [Hb|Hb]; [done|].
  pose proof (many_bits n Hb) as Hm.
  pose proof (roundMagnitude_pos _ Hm) as Hpos. cbv zeta.
  assert (Hn0 : n <> 0) by (intros ->; cbn in Hm; lia).
  destruct (Z.leb_spec (2 ^ 1024) (roundMagnitude (Z.abs n))).
  - destruct (Z.ltb_spec n 0); cbn [sign]; lia.
  - cbn [sign]. rewrite Z.sgn_mul, (Z.sgn_pos (roundMagnitude _)) by done.
    lia.
Qed.

Lemma roundDouble_range (n : Z) (z : Z) :
  roundDouble n = Finite z -> Z.abs z < 2 ^ 1024.
Proof.
  unfold roundDouble.
  destruct (Z.leb_spec (Z.log2 (Z.abs n) + 1) 53) as [Hb|Hb].
  - intros [= <-].
    assert (Z.abs n < 2 ^ 53).
    { apply (bits_le _ (Z.abs_nonneg n)). by apply Z.leb_le. }
    assert (2 ^ 53 < 2 ^ 1024) by (apply Z.pow_lt_mono_r; lia). lia.
  - cbv zeta. pose proof (roundMagnitude_pos _ (many_bits n Hb)) as Hpos.
    destruct (Z.leb_spec (2 ^ 1024) (roundMagnitude (Z.abs n))) as [|Hlt].
    + by destruct (n <? 0).
    + intros [= <-]. rewrite Z.abs_mul.
      rewrite (Z.abs_eq (roundMagnitude _)) by lia.
      assert (Z.abs (Z.sgn n) <= 1) by lia. nia.
Qed.

(** Rounding moves a magnitude by at most half a unit of the last of its
    53 bits, and leaves a multiple of that unit whose quotient has at
    most 53 bits or is 2^53. *)
Lemma roundMagnitude_nearest (m : Z) :
  2 ^ 53 <= m ->
  let shift := Z.log2 m + 1 - 53 in
  exists q, roundMagnitude m = q * 2 ^ shift
            /\ 2 ^ 52 <= q <= 2 ^ 53
            /\ 2 * Z.abs (roundMagnitude m - m) <= 2 ^ shift
            /\ (2 * Z.abs (roundMagnitude m - m) = 2 ^ shift -> Z.even q = true).
Proof.
  intros Hm shift.
  destruct (rounded_bounds m Hm) as (Hs & Hq & Hp & Hsplit & Hr).
  fold shift in Hq, Hp, Hsplit, Hr.
  unfold roundMagnitude. fold shift.
  set (q := m / 2 ^ shift) in *. set (r := m mod 2 ^ shift) in *.
  assert (Hhalf : 2 ^ shift = 2 * 2 ^ (shift - 1)).
  { rewrite <- Z.pow_succ_r by lia. f_equal. lia. }
  set (half := 2 ^ (shift - 1)) in *.
  destruct (Z.ltb_spec half r) as [Hgt|Hle]; cbn [orb].
  - exists (q + 1). split; [done|]. split; [lia|]. split; [nia|nia].
  - destruct (Z.eqb_spec r half) as [Heq|Hne]; cbn [andb].
    + destruct (Z.odd q) eqn:Hodd.
      * exists (q + 1). split; [done|]. split; [lia|]. split; [nia|].
        intros _. rewrite Z.even_add, <- Z.negb_odd, Hodd. done.
      * exists q. split; [done|]. split; [lia|]. split; [nia|].
        intros _. by rewrite <- Z.negb_odd, Hodd.
    + exists q. split; [done|]. split; [lia|]. split; [nia|nia].
Qed.

(** ** The nearest double

    What it means for [x] to be the double nearest to the natural number
    [v], written without the rounding function: below 2^53 it is [v]; from
    there on, with [shift] the number of bits of [v] beyond 53, it is a
    multiple [q * 2^shift] with [q] of 53 bits (or 2^53, when [v] is
    rounded up to the next power of two) that lies within half of
    [2^shift] of [v], and [q] is even when [v] lies exactly between two
    multiples; and it is infinite when that multiple reaches 2^1024. *)
Definition nearestDouble (v : Z) (x : JsNumber) : Prop :=
  (v < 2 ^ 53 /\ x = Finite v)
  \/ exists shift q : Z,
       0 < shift
       /\ 2 ^ (52 + shift) <= v < 2 ^ (53 + shift)
       /\ 2 ^ 52 <= q <= 2 ^ 53
       /\ 2 * Z.abs (q * 2 ^ shift - v) <= 2 ^ shift
       /\ (2 * Z.abs (q * 2 ^ shift - v) = 2 ^ shift -> Z.even q = true)
       /\ ((q * 2 ^ shift < 2 ^ 1024 /\ x = Finite (q * 2 ^ shift))
           \/ (2 ^ 1024 <= q * 2 ^ shift /\ x = PosInfinity)).

Lemma roundDouble_nearest (v : Z) : 0 <= v -> nearestDouble v (roundDouble v).
Proof.
  intros Hv. unfold roundDouble. rewrite (Z.abs_eq v) by done.
  destruct (Z.leb_spec (Z.log2 v + 1) 53) as [Hb|Hb].
  - left. split; [|done]. apply (bits_le v Hv). by apply Z.leb_le.
  - right.
    assert (Hm : 2 ^ 53 <= v).
    { pose proof (many_bits v) as H. rewrite (Z.abs_eq v) in H by done.
      by apply H. }
    destruct (roundMagnitude_nearest v Hm) as (q & Hq & Hbound & Herr & Htie).
    destruct (rounded_bounds v Hm) as (Hs & _).
    pose proof (Z.log2_spec v ltac:(lia)) as Hlog.
    exists (Z.log2 v + 1 - 53), q. split; [done|].
    replace (52 + (Z.log2 v + 1 - 53)) with (Z.log2 v) by lia.
    replace (53 + (Z.log2 v + 1 - 53)) with (Z.succ (Z.log2 v)) by lia.
    split; [done|]. split; [done|]. rewrite <- Hq.
    split; [done|]. split; [done|]. cbv zeta.
    destruct (Z.leb_spec (2 ^ 1024) (roundMagnitude v)) as [Hbig|Hsmall].
    + right. split; [done|]. by destruct (Z.ltb_spec v 0); [lia|].
    + left. split; [done|]. f_equal. rewrite (Z.sgn_pos v) by lia. lia.
Qed.

(** The numbers a numeral is read as: not negative, and not [NaN]. *)
Definition valid (v : JsNumber) : Prop :=
  match v with
  | Finite z => 0 <= z < 2 ^ 1024
  | PosInfinity => True
  | _ => False
  end.

Lemma roundDouble_nonneg (n : Z) : 0 <= n -> valid (roundDouble n).
Proof.
  intros Hn. pose proof (sign_roundDouble n) as Hsign.
  pose proof (roundDouble_range n) as Hrange.
  destruct (roundDouble n) as [z| | |] eqn:Hr; cbn [sign valid] in *.
  - specialize (Hrange z eq_refl). lia.
  - done.
  - lia.
  - assert (n = 0) as -> by lia. by vm_compute in Hr.
Qed.

(** The place of a number on the line of the integers, the infinities
    beyond every double. *)
Definition rankOf (v : JsNumber) : Z :=
  match v with
  | Finite z => z
  | PosInfinity => 2 ^ 1024
  | NegInfinity => - 2 ^ 1024
  | NaN => 0
  end.

Lemma strictNotEqual_valid (a b : JsNumber) :
  valid a -> valid b ->
  strictNotEqual a b = negb (rankOf a =? rankOf b).
Proof.
  destruct a as [x| | |], b as [y| | |]; try done; cbn [valid rankOf];
    intros Ha Hb; unfold strictNotEqual.
  - destruct (Z.eqb_spec x y) as [->|Hne].
    + by rewrite bool_decide_eq_true_2.
    + by rewrite bool_decide_eq_false_2 by congruence.
  - rewrite bool_decide_eq_false_2 by done.
    by destruct (Z.eqb_spec x (2 ^ 1024)); [lia|].
  - rewrite bool_decide_eq_false_2 by done.
    by destruct (Z.eqb_spec (2 ^ 1024) y); [lia|].
Qed.

Lemma sign_jsMinus_valid (a b : JsNumber) :
  valid a -> valid b -> rankOf a <> rankOf b ->
  sign (jsMinus a b) = Z.sgn (rankOf a - rankOf b)
  /\ jsMinus a b <> NaN.
Proof.
  destruct a as [x| | |], b as [y| | |]; try done; cbn [valid rankOf jsMinus];
    intros Ha Hb Hne.
  - split; [apply sign_roundDouble|].
    intros Hnan. pose proof (sign_roundDouble (x - y)) as Hs.
    rewrite Hnan in Hs. cbn [sign] in Hs. lia.
  - split; [cbn [sign]; lia|done].
  - split; [cbn [sign]; lia|done].
Qed.

(** [HONOR_PRINT_ORDER[n]]; [None] where the table has no entry. *)
Definition HONOR_PRINT_ORDER (n : JsNumber) : option Z :=
  match n with
  | Finite 5 => Some 0
  | Finite 6 => Some 1
  | Finite 7 => Some 2
  | Finite 1 => Some 3
  | Finite 2 => Some 4
  | Finite 3 => Some 5
  | Finite 4 => Some 6
  | _ => None
  end.

Definition MAX_SAFE_INTEGER : Z := 9007199254740991.

Record TileName : Type := mkTileName {
  number : JsNumber;
  suit : Suit
}.

(** ** The identity grammar [/^(\d+)([mpsz])$/i] *)

Definition isDigit (c : ascii) : bool :=
  (48 <=? N_of_ascii c)%N && (N_of_ascii c <=? 57)%N.

(** [[mpsz]] under the flag [i], lowered by [toLowerCase]. *)
Definition suitOfChar (c : ascii) : option Suit :=
  match c with
  | "m"%char | "M"%char => Some suit_m
  | "p"%char | "P"%char => Some suit_p
  | "s"%char | "S"%char => Some suit_s
  | "z"%char | "Z"%char => Some suit_z
  | _ => None
  end.

(** The value of a decimal numeral. *)
Definition digitsValue (digits : list ascii) : Z :=
  fold_left (fun acc c => 10 * acc + (Z.of_N (N_of_ascii c) - 48)) digits 0.

(** [Number(numberPart)] for a string of digits: the double nearest to
    the value of the numeral. *)
Definition Number (digits : list ascii) : JsNumber :=
  roundDouble (digitsValue digits).

Definition parseTileName (label : string) : option TileName :=
  match reverse (list_ascii_of_string label) with
  | [] => None
  | suitPart :: revNumberPart =>
      match suitOfChar suitPart with
      | None => None
      | Some suit =>
          match revNumberPart with
          | [] => None
          | _ =>
              if forallb isDigit revNumberPart
              then Some {| number := Number (reverse revNumberPart);
                           suit := suit |}
              else None
          end
      end
  end.

Example parseTileName_samples :
  parseTileName "5z" = Some (mkTileName (Finite 5) suit_z)
  /\ parseTileName "12M" = Some (mkTileName (Finite 12) suit_m)
  /\ parseTileName "9007199254740993s"
     = Some (mkTileName (Finite 9007199254740992) suit_s)
  /\ parseTileName "1m.svg" = None
  /\ parseTileName "m" = None
  /\ parseTileName "" = None.
Proof. repeat split. Qed.

(** ** Ordering *)

Section Sorting.

(** [a.localeCompare(b)]: the collation of the runtime. *)
Variable localeCompare : string -> string -> Z.

(** The comparator of [sortTileFiles]. *)
Definition compareTiles (a b : ParsedTileFile) : JsNumber :=
  match parseTileName (label a), parseTileName (label b) with
  | Some pa, Some pb =>
      if negb (bool_decide (suit pa = suit pb)) then
        jsMinus (Finite (SUIT_ORDER (suit pa))) (Finite (SUIT_ORDER (suit pb)))
      else
        let rankA := default MAX_SAFE_INTEGER (HONOR_PRINT_ORDER (number pa)) in
        let rankB := default MAX_SAFE_INTEGER (HONOR_PRINT_ORDER (number pb)) in
        if bool_decide (suit pa = suit_z) && bool_decide (suit pb = suit_z)
           && negb (rankA =? rankB)
        then jsMinus (Finite rankA) (Finite rankB)
        else if strictNotEqual (number pa) (number pb)
             then jsMinus (number pa) (number pb)
             else Finite (localeCompare (label a) (label b))
  | Some _, None => Finite (-1)
  | None, Some _ => Finite 1
  | None, None => Finite (localeCompare (label a) (label b))
  end.

(** [Array.prototype.sort] is a stable sort and leaves the algorithm
    open; insertion from the left is taken here: an element goes in front
    of the first one it compares below. *)
Fixpoint insertBy {A} (cmp : A -> A -> JsNumber) (x : A) (sorted : list A)
  : list A :=
  match sorted with
  | [] => [x]
  | y :: rest =>
      if sign (cmp x y) <? 0 then x :: y :: rest
      else y :: insertBy cmp x rest
  end.

Definition sortBy {A} (cmp : A -> A -> JsNumber) (items : list A) : list A :=
  fold_left (fun sorted x => insertBy cmp x sorted) items [].

Definition sortTileFiles (files : list ParsedTileFile) : list ParsedTileFile :=
  sortBy compareTiles files.

(** ** Directory scan *)

Record Dirent : Type := mkDirent {
  name : string;
  isFile : bool
}.

Definition toLower (c : ascii) : ascii :=
  let n := N_of_ascii c in
  if (65 <=? n)%N && (n <=? 90)%N then ascii_of_N (n + 32) else c.

(** [/\.png$/i.test(name)]. *)
Definition endsWithPng (name : string) : bool :=
  match reverse (list_ascii_of_string name) with
  | g :: n :: p :: dot :: _ =>
      bool_decide (toLower g = "g"%char) && bool_decide (toLower n = "n"%char)
      && bool_decide (toLower p = "p"%char) && bool_decide (dot = "."%char)
  | _ => false
  end.

(** [path.extname] and [path.basename] on a directory entry, which has no
    separator in it: the extension runs from the last dot, unless that dot
    is the first character or the name is ".."; [basename] drops the
    extension, when there is one, from the end of the name. *)
Fixpoint lastDot (cs : list ascii) : option nat :=
  match cs with
  | [] => None
  | c :: rest =>
      match lastDot rest with
      | Some i => Some (S i)
      | None => if bool_decide (c = "."%char) then Some 0%nat else None
      end
  end.

Definition extname (name : string) : string :=
  let cs := list_ascii_of_string name in
  match lastDot cs with
  | None | Some O => ""
  | Some i =>
      if bool_decide (name = "..") then ""
      else string_of_list_ascii (drop i cs)
  end.

Definition basename (name ext : string) : string :=
  let cs := list_ascii_of_string name in
  let es := list_ascii_of_string ext in
  if bool_decide (ext = "") || (length cs <? length es)%nat then name
  else if bool_decide (ext = name) then ""
  else if bool_decide (drop (length cs - length es) cs = es)
       then string_of_list_ascii (take (length cs - length es) cs)
       else name.

Variable path_join : string -> string -> string.

Definition tileOfEntry (inputDir : string) (entry : Dirent) : ParsedTileFile :=
  {| filePath := path_join inputDir (name entry);
     label := basename (name entry) (extname (name entry)) |}.

(** [findPngFiles] on the entries [fs.readdir] returned. *)
Definition findPngFiles (inputDir : string) (entries : list Dirent)
  : list ParsedTileFile :=
  let pngs :=
    filter (fun tile => parseTileName (label tile) <> None)
           (tileOfEntry inputDir
              <$> filter (fun entry => isFile entry && endsWithPng (name entry))
                         entries) in
  sortTileFiles pngs.

End Sorting.

(** ** What a label parses to *)

Lemma digitsValue_nonneg (digits : list ascii) :
  forallb isDigit digits = true -> 0 <= digitsValue digits.
Proof.
  unfold digitsValue.
  assert (forall acc, 0 <= acc -> forallb isDigit digits = true ->
            0 <= fold_left
                   (fun acc c => 10 * acc + (Z.of_N (N_of_ascii c) - 48))
                   digits acc) as H; [|by apply H].
  induction digits as [|c digits IH]; intros acc0 Hacc; [done|].
  cbn [forallb fold_left]. intros [Hc Hd]%andb_true_iff.
  apply IH; [|done]. unfold isDigit in Hc.
  apply andb_true_iff in Hc as [Hlo _]. apply N.leb_le in Hlo. lia.
Qed.

Lemma parseTileName_valid (l : string) (pn : TileName) :
  parseTileName l = Some pn -> valid (number pn).
Proof.
  unfold parseTileName.
  destruct (reverse (list_ascii_of_string l)) as [|c ds]; [done|].
  destruct (suitOfChar c); [|done].
  destruct ds as [|d ds]; [done|].
  destruct (forallb isDigit (d :: ds)) eqn:Hd; [|done].
  intros [= <-]. cbn [number]. apply roundDouble_nonneg, digitsValue_nonneg.
  rewrite forallb_forall in *. intros x Hx. apply Hd.
  apply list_elem_of_In, elem_of_reverse. by apply list_elem_of_In.
Qed.

(** ** The labels that parse *)

(** The letters of the four suits, each in either case, with the suit
    they stand for. *)
Definition suitLetters : list (ascii * Suit) :=
  [("m"%char, suit_m); ("M"%char, suit_m); ("p"%char, suit_p);
   ("P"%char, suit_p); ("s"%char, suit_s); ("S"%char, suit_s);
   ("z"%char, suit_z); ("Z"%char, suit_z)].

Lemma suitOfChar_letters (c : ascii) (s : Suit) :
  suitOfChar c = Some s <-> (c, s) ∈ suitLetters.
Proof.
  unfold suitLetters. rewrite !elem_of_cons, elem_of_nil. split.
  - destruct c as [[] [] [] [] [] [] [] []]; try discriminate;
      (intros [= <-]; tauto).
  - intros H. destruct_or!; simplify_eq; done.
Qed.

(** The characters of a decimal numeral [d], leading zeros kept. *)
Definition digitsOf (d : Decimal.uint) : list ascii :=
  list_ascii_of_string (NilEmpty.string_of_uint d).

Lemma isDigit_digitsOf (d : Decimal.uint) :
  forallb isDigit (digitsOf d) = true.
Proof. unfold digitsOf. induction d; cbn; try done. Qed.

Lemma isDigit_cases (c : ascii) :
  isDigit c = true ->
  c ∈ ["0"; "1"; "2"; "3"; "4"; "5"; "6"; "7"; "8"; "9"]%char.
Proof.
  destruct c as [[] [] [] [] [] [] [] []]; vm_compute; try discriminate;
    intros _; repeat (first [apply list_elem_of_here|apply list_elem_of_further]).
Qed.

Lemma digits_uint (cs : list ascii) :
  forallb isDigit cs = true -> exists d, digitsOf d = cs.
Proof.
  induction cs as [|c cs IH]; [by exists Decimal.Nil|].
  cbn [forallb]. intros [Hc [d <-]%IH]%andb_true_iff.
  apply isDigit_cases in Hc.
  repeat (apply elem_of_cons in Hc as [->|Hc];
          [first [by exists (Decimal.D0 d)|by exists (Decimal.D1 d)
                 |by exists (Decimal.D2 d)|by exists (Decimal.D3 d)
                 |by exists (Decimal.D4 d)|by exists (Decimal.D5 d)
                 |by exists (Decimal.D6 d)|by exists (Decimal.D7 d)
                 |by exists (Decimal.D8 d)|by exists (Decimal.D9 d)]|]).
  by apply elem_of_nil in Hc.
Qed.

Lemma digitsValue_fold_uint (d : Decimal.uint) (acc : nat) :
  fold_left (fun acc c => 10 * acc + (Z.of_N (N_of_ascii c) - 48))
            (digitsOf d) (Z.of_nat acc)
  = Z.of_nat (Nat.of_uint_acc d acc).
Proof.
  unfold digitsOf. revert acc.
  induction d as [|d IH|d IH|d IH|d IH|d IH|d IH|d IH|d IH|d IH|d IH];
    intros acc; [done|..];
    cbn [NilEmpty.string_of_uint list_ascii_of_string fold_left
         Nat.of_uint_acc];
    rewrite <- IH; f_equal; rewrite Nat.tail_mul_spec;
    cbn [N_of_ascii N_of_digits]; lia.
Qed.

Lemma Number_digitsOf (d : Decimal.uint) :
  Number (digitsOf d) = roundDouble (Z.of_nat (Nat.of_uint d)).
Proof.
  unfold Number, digitsValue. f_equal. apply (digitsValue_fold_uint d 0).
Qed.

Lemma parseTileName_numeral (d : Decimal.uint) (c : ascii) (s : Suit) :
  d <> Decimal.Nil -> suitOfChar c = Some s ->
  parseTileName (NilEmpty.string_of_uint d +:+ String c EmptyString)
  = Some {| number := roundDouble (Z.of_nat (Nat.of_uint d)); suit := s |}.
Proof.
  intros Hd Hc. unfold parseTileName.
  rewrite string_app_chars. fold (digitsOf d).
  cbn [list_ascii_of_string]. rewrite reverse_snoc, Hc.
  assert (Hne : reverse (digitsOf d) <> []).
  { intros Hnil%(f_equal length). rewrite length_reverse in Hnil.
    by destruct d. }
  destruct (reverse (digitsOf d)) as [|x xs] eqn:Hrev; [done|].
  assert (Hdigits : forallb isDigit (x :: xs) = true).
  { rewrite <- Hrev. rewrite forallb_forall. intros y Hy.
    pose proof (isDigit_digitsOf d) as Hall. rewrite forallb_forall in Hall.
    apply Hall. apply list_elem_of_In. apply list_elem_of_In in Hy.
    by rewrite elem_of_reverse in Hy. }
  rewrite Hdigits, <- Hrev, reverse_involutive. by rewrite Number_digitsOf.
Qed.

Lemma parseTileName_shape (l : string) (pn : TileName) :
  parseTileName l = Some pn <->
  exists (d : Decimal.uint) (c : ascii),
    d <> Decimal.Nil
    /\ l = NilEmpty.string_of_uint d +:+ String c EmptyString
    /\ (c, suit pn) ∈ suitLetters
    /\ number pn = roundDouble (Z.of_nat (Nat.of_uint d)).
Proof.
  split.
  - unfold parseTileName.
    destruct (reverse (list_ascii_of_string l)) as [|c ds] eqn:Hrev;
      [done|].
    destruct (suitOfChar c) as [s|] eqn:Hc; [|done].
    destruct ds as [|x xs]; [done|].
    destruct (forallb isDigit (x :: xs)) eqn:Hdigits; [|done].
    intros [= <-]. cbn [number suit].
    destruct (digits_uint (reverse (x :: xs))) as [d Hd].
    { rewrite forallb_forall in *. intros y Hy. apply Hdigits.
      apply list_elem_of_In. apply list_elem_of_In in Hy.
      by rewrite elem_of_reverse in Hy. }
    exists d, c. split; [|split; [|split; [by apply suitOfChar_letters|]]].
    + intros ->. apply (f_equal length) in Hd.
      rewrite length_reverse in Hd. done.
    + apply (f_equal reverse) in Hrev. rewrite reverse_involutive in Hrev.
      rewrite reverse_cons, <- Hd in Hrev.
      rewrite <- (string_of_list_ascii_of_string l), Hrev.
      rewrite <- (string_of_list_ascii_of_string
                    (NilEmpty.string_of_uint d +:+ String c EmptyString)).
      by rewrite string_app_chars.
    + by rewrite <- Hd, Number_digitsOf.
  - intros (d & c & Hd & -> & Hc%suitOfChar_letters & Hn).
    destruct pn as [n s]. cbn [number suit] in *. subst n.
    by apply parseTileName_numeral.
Qed.

(** ** Sort keys

    The comparator read as a lexicographic order: the suit (an entry that
    does not parse counts as a fifth suit), the honor print rank within
    the suit z, the number, and the label last. *)

Definition key1 (a : ParsedTileFile) : Z :=
  match parseTileName (label a) with
  | Some pa => SUIT_ORDER (suit pa)
  | None => 4
  end.

Definition key2 (a : ParsedTileFile) : Z :=
  match parseTileName (label a) with
  | Some pa =>
      if bool_decide (suit pa = suit_z)
      then default MAX_SAFE_INTEGER (HONOR_PRINT_ORDER (number pa))
      else 0
  | None => 0
  end.

Definition key3 (a : ParsedTileFile) : Z :=
  match parseTileName (label a) with
  | Some pa => rankOf (number pa)
  | None => 0
  end.

(** The place of [x] in the list [l], from 0. *)
Fixpoint position {A} `{EqDecision A} (x : A) (l : list A) : nat :=
  match l with
  | [] => 0%nat
  | y :: rest => if decide (x = y) then 0%nat else S (position x rest)
  end.

(** Comparison of strings by character codes, an instance of
    [localeCompare] to run the catalog with. *)
Definition codeCompare (a b : string) : Z :=
  match String.compare a b with
  | Lt => -1
  | Eq => 0
  | Gt => 1
  end.

Ltac positions :=
  repeat match goal with
         | |- context [position ?x ?l] =>
             let v := eval vm_compute in (position x l) in
             change (position x l) with v
         end.

Section SortingFacts.

Variable localeCompare : string -> string -> Z.

(** The comparator on two labels that parse, by keys. *)
Lemma compareParsed_sign (la lb : string) (na nb : JsNumber) (sa sb : Suit) :
  valid na -> valid nb ->
  let ra := default MAX_SAFE_INTEGER (HONOR_PRINT_ORDER na) in
  let rb := default MAX_SAFE_INTEGER (HONOR_PRINT_ORDER nb) in
  let v :=
    if negb (bool_decide (sa = sb)) then
      jsMinus (Finite (SUIT_ORDER sa)) (Finite (SUIT_ORDER sb))
    else
      if bool_decide (sa = suit_z) && bool_decide (sb = suit_z)
         && negb (ra =? rb)
      then jsMinus (Finite ra) (Finite rb)
      else if strictNotEqual na nb then jsMinus na nb
           else Finite (localeCompare la lb) in
  let k2a := if bool_decide (sa = suit_z) then ra else 0 in
  let k2b := if bool_decide (sb = suit_z) then rb else 0 in
  v <> NaN
  /\ sign v
     = if negb (SUIT_ORDER sa =? SUIT_ORDER sb)
       then Z.sgn (SUIT_ORDER sa - SUIT_ORDER sb)
       else if negb (k2a =? k2b) then Z.sgn (k2a - k2b)
       else if negb (rankOf na =? rankOf nb)
            then Z.sgn (rankOf na - rankOf nb)
            else Z.sgn (localeCompare la lb).
Proof.
  intros Ha Hb ra rb. cbv zeta.
  rewrite (strictNotEqual_valid na nb Ha Hb).
  assert (Hnum : negb (rankOf na =? rankOf nb) = true ->
                 jsMinus na nb <> NaN
                 /\ sign (jsMinus na nb) = Z.sgn (rankOf na - rankOf nb)).
  { intros Hne. apply negb_true_iff, Z.eqb_neq in Hne.
    by destruct (sign_jsMinus_valid na nb Ha Hb Hne). }
  assert (Hfin : forall x y, jsMinus (Finite x) (Finite y) <> NaN
                             /\ sign (jsMinus (Finite x) (Finite y))
                                = Z.sgn (x - y)).
  { intros x y. cbn [jsMinus]. split; [|apply sign_roundDouble].
    intros Hnan. pose proof (sign_roundDouble (x - y)) as Hs.
    rewrite Hnan in Hs. cbn [sign] in Hs.
    assert (x - y = 0) as Hz by lia. rewrite Hz in Hnan.
    by vm_compute in Hnan. }
  destruct (negb (rankOf na =? rankOf nb)) eqn:Hrank.
  - destruct (Hnum eq_refl) as [Hnan Hsign].
    destruct sa, sb; cbn [negb andb SUIT_ORDER];
      rewrite ?bool_decide_eq_true_2, ?bool_decide_eq_false_2 by done;
      cbn [negb andb Z.eqb];
      try (split; [apply Hfin|by rewrite (proj2 (Hfin _ _))]);
      try (split; [exact Hnan|exact Hsign]).
    destruct (negb (ra =? rb)) eqn:Hr.
    + split; [apply Hfin|by rewrite (proj2 (Hfin _ _))].
    + split; [exact Hnan|exact Hsign].
  - destruct sa, sb; cbn [negb andb SUIT_ORDER];
      rewrite ?bool_decide_eq_true_2, ?bool_decide_eq_false_2 by done;
      cbn [negb andb Z.eqb sign];
      try (split; [apply Hfin|by rewrite (proj2 (Hfin _ _))]);
      try (split; [done|done]).
    destruct (negb (ra =? rb)) eqn:Hr.
    + split; [apply Hfin|by rewrite (proj2 (Hfin _ _))].
    + split; [done|done].
Qed.

Lemma compareTiles_sign (a b : ParsedTileFile) :
  compareTiles localeCompare a b <> NaN
  /\ sign (compareTiles localeCompare a b)
     = if negb (key1 a =? key1 b) then Z.sgn (key1 a - key1 b)
       else if negb (key2 a =? key2 b) then Z.sgn (key2 a - key2 b)
       else if negb (key3 a =? key3 b) then Z.sgn (key3 a - key3 b)
       else Z.sgn (localeCompare (label a) (label b)).
Proof.
  unfold compareTiles, key1, key2, key3.
  destruct (parseTileName (label a)) as [[na sa]|] eqn:Hpa,
           (parseTileName (label b)) as [[nb sb]|] eqn:Hpb; cbn [suit number].
  - apply parseTileName_valid in Hpa, Hpb. cbn [number] in Hpa, Hpb.
    apply (compareParsed_sign (label a) (label b) na nb sa sb Hpa Hpb).
  - split; [done|]. by destruct sa.
  - split; [done|]. by destruct sb.
  - split; [done|]. done.
Qed.

Lemma compareTiles_lt_iff (a b : ParsedTileFile) :
  sign (compareTiles localeCompare a b) < 0 <->
  key1 a < key1 b
  \/ (key1 a = key1 b
      /\ (key2 a < key2 b
          \/ (key2 a = key2 b
              /\ (key3 a < key3 b
                  \/ (key3 a = key3 b
                      /\ localeCompare (label a) (label b) < 0))))).
Proof.
  rewrite (proj2 (compareTiles_sign a b)).
  destruct (Z.eqb_spec (key1 a) (key1 b)); cbn [negb]; [|lia].
  destruct (Z.eqb_spec (key2 a) (key2 b)); cbn [negb]; [|lia].
  destruct (Z.eqb_spec (key3 a) (key3 b)); cbn [negb]; lia.
Qed.

Lemma compareTiles_gt_iff (a b : ParsedTileFile) :
  0 < sign (compareTiles localeCompare a b) <->
  key1 b < key1 a
  \/ (key1 a = key1 b
      /\ (key2 b < key2 a
          \/ (key2 a = key2 b
              /\ (key3 b < key3 a
                  \/ (key3 a = key3 b
                      /\ 0 < localeCompare (label a) (label b)))))).
Proof.
  rewrite (proj2 (compareTiles_sign a b)).
  destruct (Z.eqb_spec (key1 a) (key1 b)); cbn [negb]; [|lia].
  destruct (Z.eqb_spec (key2 a) (key2 b)); cbn [negb]; [|lia].
  destruct (Z.eqb_spec (key3 a) (key3 b)); cbn [negb]; lia.
Qed.

Lemma key_label (a b : ParsedTileFile) :
  label a = label b -> key1 a = key1 b /\ key2 a = key2 b /\ key3 a = key3 b.
Proof. unfold key1, key2, key3. by intros ->. Qed.

Lemma rankOf_inj (a b : JsNumber) :
  valid a -> valid b -> rankOf a = rankOf b -> a = b.
Proof.
  destruct a as [x| | |], b as [y| | |]; try done; cbn [valid rankOf];
    intros Ha Hb Heq; try lia. by subst.
Qed.

(** The tiles of the sorting example; the comparator never reads the
    path. *)
Definition tilesOf (labels : list string) : list ParsedTileFile :=
  mkTileFile "" <$> labels.

(** [localeCompare] as a lexical comparison: a strict total order on
    strings, given by the sign of the result. *)
Hypothesis localeCompare_eq :
  forall a b, localeCompare a b = 0 <-> a = b.
Hypothesis localeCompare_antisym :
  forall a b, localeCompare a b < 0 <-> 0 < localeCompare b a.
Hypothesis localeCompare_trans :
  forall a b c, localeCompare a b < 0 -> localeCompare b c < 0 ->
                localeCompare a c < 0.

(** C2: the comparator of the catalog returns a number, never [NaN], and
    by its sign it is a strict total order on labels (irreflexive,
    transitive, antisymmetric, and zero on equal labels only); its first
    key is the suit, in the order m, p, s, z; within the suit z the ranks
    1..7 compare by their place in 5,6,7,1,2,3,4, and within the other
    suits by number, the rank the label was read to; entries of equal
    suit and number compare by label; an entry that does not parse comes
    after every entry that does, and two such entries compare by label.
    On the labels themselves: of two labels that are a decimal numeral
    below 2^53 and a suit letter (m, p, s, z in either case), the one
    with the earlier suit comes first; with the same suit other than z,
    the one with the smaller numeral; and with the suit z and numerals
    from 1 to 7, the one whose numeral stands earlier in 5,6,7,1,2,3,4.
    The tiles 5z, 1z, 9m, 1m, 3p are sorted to 1m, 9m, 3p, 5z, 1z; and
    the tiles 2s, 5z, 1z, 9m, 1S, 1m, 3p, 10m, x, 7Z, 4z to 1m, 9m, 10m,
    3p, 1S, 2s, 5z, 7Z, 1z, 4z, x. *)
Theorem compareTiles_strict_total_order :
  let cmp := fun a b => sign (compareTiles localeCompare a b) in
  let suits := [suit_m; suit_p; suit_s; suit_z] in
  let honors := [5; 6; 7; 1; 2; 3; 4] in
  (forall a b, compareTiles localeCompare a b <> NaN)
  /\ (forall a, ~ cmp a a < 0)
  /\ (forall a b c, cmp a b < 0 -> cmp b c < 0 -> cmp a c < 0)
  /\ (forall a b, cmp a b < 0 <-> 0 < cmp b a)
  /\ (forall a b, cmp a b = 0 <-> label a = label b)
  /\ (forall a b pa pb,
         parseTileName (label a) = Some pa ->
         parseTileName (label b) = Some pb ->
         (suit pa <> suit pb ->
          (cmp a b < 0 <->
           (position (suit pa) suits < position (suit pb) suits)%nat))
         /\ (suit pa = suit_z -> suit pb = suit_z ->
             forall na nb,
               number pa = Finite na -> number pb = Finite nb ->
               1 <= na <= 7 -> 1 <= nb <= 7 -> na <> nb ->
               (cmp a b < 0 <->
                (position na honors < position nb honors)%nat))
         /\ (suit pa = suit pb -> suit pa <> suit_z ->
             number pa <> number pb ->
             (cmp a b < 0 <-> rankOf (number pa) < rankOf (number pb)))
         /\ (suit pa = suit pb -> number pa = number pb ->
             compareTiles localeCompare a b
             = Finite (localeCompare (label a) (label b))))
  /\ (forall a b,
         parseTileName (label a) <> None -> parseTileName (label b) = None ->
         cmp a b < 0 /\ 0 < cmp b a)
  /\ (forall a b,
         parseTileName (label a) = None -> parseTileName (label b) = None ->
         compareTiles localeCompare a b
         = Finite (localeCompare (label a) (label b)))
  /\ (forall a b (n m : nat) (c c' : ascii) (s s' : Suit),
         label a = toString n +:+ String c EmptyString ->
         label b = toString m +:+ String c' EmptyString ->
         (c, s) ∈ suitLetters -> (c', s') ∈ suitLetters ->
         Z.of_nat n < 2 ^ 53 -> Z.of_nat m < 2 ^ 53 ->
         (s <> s' ->
          (cmp a b < 0 <-> (position s suits < position s' suits)%nat))
         /\ (s = s' -> s <> suit_z -> n <> m ->
             (cmp a b < 0 <-> (n < m)%nat))
         /\ (s = suit_z -> s' = suit_z ->
             (1 <= n <= 7)%nat -> (1 <= m <= 7)%nat -> n <> m ->
             (cmp a b < 0 <->
              (position (Z.of_nat n) honors
               < position (Z.of_nat m) honors)%nat)))
  /\ label <$> sortTileFiles localeCompare
                 (tilesOf ["5z"; "1z"; "9m"; "1m"; "3p"])
     = ["1m"; "9m"; "3p"; "5z"; "1z"]
  /\ label <$> sortTileFiles localeCompare
                 (tilesOf ["2s"; "5z"; "1z"; "9m"; "1S"; "1m"; "3p"; "10m";
                           "x"; "7Z"; "4z"])
     = ["1m"; "9m"; "10m"; "3p"; "1S"; "2s"; "5z"; "7Z"; "1z"; "4z"; "x"].
Proof.
  intros cmp suits honors.
  assert (Hparsed : forall a b pa pb,
    parseTileName (label a) = Some pa ->
    parseTileName (label b) = Some pb ->
    (suit pa <> suit pb ->
     (sign (compareTiles localeCompare a b) < 0 <->
      (position (suit pa) suits < position (suit pb) suits)%nat))
    /\ (suit pa = suit_z -> suit pb = suit_z ->
        forall na nb,
          number pa = Finite na -> number pb = Finite nb ->
          1 <= na <= 7 -> 1 <= nb <= 7 -> na <> nb ->
          (sign (compareTiles localeCompare a b) < 0 <->
           (position na honors < position nb honors)%nat))
    /\ (suit pa = suit pb -> suit pa <> suit_z ->
        number pa <> number pb ->
        (sign (compareTiles localeCompare a b) < 0 <->
         rankOf (number pa) < rankOf (number pb)))
    /\ (suit pa = suit pb -> number pa = number pb ->
        compareTiles localeCompare a b
        = Finite (localeCompare (label a) (label b)))).
  { subst suits honors.
    intros a b [na sa] [nb sb] Ha Hb. cbn [suit number].
    pose proof (parseTileName_valid _ _ Ha) as Hva.
    pose proof (parseTileName_valid _ _ Hb) as Hvb.
    cbn [number] in Hva, Hvb.
    rewrite compareTiles_lt_iff. unfold compareTiles, key1, key2, key3.
    rewrite Ha, Hb. cbn [suit number].
    split; [|split; [|split]].
    - intros Hne.
      match goal with |- (_ \/ _ /\ ?rest) <-> _ => generalize rest end.
      intros rest. destruct sa, sb; try done; positions; cbn; lia.
    - intros -> -> za zb -> -> Hza Hzb Hne.
      rewrite !bool_decide_eq_true_2 by done. cbn [rankOf SUIT_ORDER].
      assert (za = 1 \/ za = 2 \/ za = 3 \/ za = 4 \/ za = 5 \/ za = 6
              \/ za = 7) as Hca by lia.
      assert (zb = 1 \/ zb = 2 \/ zb = 3 \/ zb = 4 \/ zb = 5 \/ zb = 6
              \/ zb = 7) as Hcb by lia.
      destruct Hca as [->|[->|[->|[->|[->|[->| ->]]]]]];
        destruct Hcb as [->|[->|[->|[->|[->|[->| ->]]]]]];
        try done; positions; cbn; rewrite sign_roundDouble; lia.
    - intros -> Hz Hne.
      rewrite (bool_decide_eq_false_2 (sb = suit_z)) by done.
      assert (rankOf na <> rankOf nb)
        by (intros Heq; by apply Hne, rankOf_inj).
      lia.
    - intros -> ->. rewrite bool_decide_eq_true_2 by done.
      rewrite Z.eqb_refl. cbn [negb]. rewrite andb_false_r.
      by rewrite (strictNotEqual_valid nb nb Hvb Hvb), Z.eqb_refl. }
  subst cmp suits honors. cbv beta.
  split; [|split; [|split; [|split; [|split; [|split; [|split;
    [|split; [|split; [|split]]]]]]]]].
  - intros a b. apply compareTiles_sign.
  - intros a. rewrite compareTiles_lt_iff.
    pose proof (proj2 (localeCompare_eq (label a) (label a)) eq_refl). lia.
  - intros a b c. rewrite !compareTiles_lt_iff.
    pose proof (localeCompare_trans (label a) (label b) (label c)). lia.
  - intros a b. rewrite compareTiles_lt_iff, compareTiles_gt_iff.
    pose proof (localeCompare_antisym (label a) (label b)). lia.
  - intros a b.
    pose proof (compareTiles_lt_iff a b) as Hlt.
    pose proof (compareTiles_gt_iff a b) as Hgt.
    pose proof (localeCompare_eq (label a) (label b)) as Heq.
    split.
    + intros H0. apply Heq. lia.
    + intros Hl. pose proof (key_label a b Hl). apply Heq in Hl. lia.
  - exact Hparsed.
  - intros a b Ha Hb.
    rewrite compareTiles_lt_iff, compareTiles_gt_iff.
    unfold key1. rewrite Hb.
    destruct (parseTileName (label a)) as [[na sa]|]; [|done].
    destruct sa; cbn; lia.
  - intros a b Ha Hb. unfold compareTiles. by rewrite Ha, Hb.
  - intros a b n m c c' s s' Hla Hlb Hc%suitOfChar_letters
      Hc'%suitOfChar_letters Hn Hm.
    assert (Hnum : forall (k : nat) (x : ascii) (t : Suit),
              suitOfChar x = Some t -> Z.of_nat k < 2 ^ 53 ->
              parseTileName (toString k +:+ String x EmptyString)
              = Some (mkTileName (Finite (Z.of_nat k)) t)).
    { intros k x t Hx Hk. rewrite toString_uint.
      rewrite (parseTileName_numeral _ x t)
        by (done || apply to_uint_nonnil).
      rewrite DecimalNat.Unsigned.of_to. do 2 f_equal.
      apply roundDouble_exact. lia. }
    pose proof (Hnum n c s Hc Hn) as Ha. pose proof (Hnum m c' s' Hc' Hm) as Hb.
    rewrite <- Hla in Ha. rewrite <- Hlb in Hb.
    destruct (Hparsed a b _ _ Ha Hb) as (Hsuit & Hhonor & Hrank & _).
    cbn [suit number rankOf] in Hsuit, Hhonor, Hrank.
    split; [exact Hsuit|]. split.
    + intros Hs Hz Hne. rewrite Hrank; [lia|done|done|].
      intros [= Heq]. lia.
    + intros Hs Hs' Hn7 Hm7 Hne.
      apply (Hhonor Hs Hs' (Z.of_nat n) (Z.of_nat m)); [done|done|lia..].
  - vm_compute. reflexivity.
  - vm_compute. reflexivity.
Qed.

End SortingFacts.

(** ** The comparison by character codes is a lexical order *)

Lemma String_compare_refl (a : string) : String.compare a a = Eq.
Proof.
  induction a as [|c a IH]; [done|]. cbn [String.compare].
  unfold Ascii.compare. by rewrite N.compare_refl.
Qed.

Lemma String_compare_trans (a b c : string) :
  String.compare a b = Lt -> String.compare b c = Lt ->
  String.compare a c = Lt.
Proof.
  revert b c. induction a as [|x a IH]; intros [|y b] [|w c]; try done.
  cbn [String.compare]. unfold Ascii.compare.
  destruct (N.compare_spec (N_of_ascii x) (N_of_ascii y)) as [Hxy|Hxy|Hxy];
    destruct (N.compare_spec (N_of_ascii y) (N_of_ascii w)) as [Hyw|Hyw|Hyw];
    try done; intros Hab Hbc.
  - rewrite Hxy, Hyw, N.compare_refl. by apply (IH b).
  - rewrite Hxy. by apply N.compare_lt_iff in Hyw as ->.
  - rewrite <- Hyw. by apply N.compare_lt_iff in Hxy as ->.
  - assert (N_of_ascii x < N_of_ascii w)%N as Hxw by lia.
    by apply N.compare_lt_iff in Hxw as ->.
Qed.

Lemma codeCompare_eq (a b : string) : codeCompare a b = 0 <-> a = b.
Proof.
  unfold codeCompare. split.
  - destruct (String.compare a b) eqn:Hc; try done.
    intros _. by apply String.compare_eq_iff.
  - intros ->. by rewrite String_compare_refl.
Qed.

Lemma codeCompare_antisym (a b : string) :
  codeCompare a b < 0 <-> 0 < codeCompare b a.
Proof.
  unfold codeCompare. rewrite (String.compare_antisym a b).
  destruct (String.compare b a); cbn [CompOpp]; lia.
Qed.

Lemma codeCompare_trans (a b c : string) :
  codeCompare a b < 0 -> codeCompare b c < 0 -> codeCompare a c < 0.
Proof.
  unfold codeCompare.
  destruct (String.compare a b) eqn:Hab; try lia.
  destruct (String.compare b c) eqn:Hbc; try lia.
  by rewrite (String_compare_trans a b c).
Qed.

(** C2 with the comparison by character codes for [localeCompare]. *)
Lemma compareTiles_strict_total_order_witness :
  (forall a b c,
      sign (compareTiles codeCompare a b) < 0 ->
      sign (compareTiles codeCompare b c) < 0 ->
      sign (compareTiles codeCompare a c) < 0)
  /\ label <$> sortTileFiles codeCompare
                 (tilesOf ["5z"; "1z"; "9m"; "1m"; "3p"])
     = ["1m"; "9m"; "3p"; "5z"; "1z"]
  /\ label <$> sortTileFiles codeCompare
                 (tilesOf ["2s"; "5z"; "1z"; "9m"; "1S"; "1m"; "3p"; "10m";
                           "x"; "7Z"; "4z"])
     = ["1m"; "9m"; "10m"; "3p"; "1S"; "2s"; "5z"; "7Z"; "1z"; "4z"; "x"].
Proof.
  pose proof (compareTiles_strict_total_order codeCompare codeCompare_eq
                codeCompare_antisym codeCompare_trans) as H.
  cbv zeta in H. split; [apply H|split; apply H].
Defined.

(** Two numerals above 2^53 that are read to the same double compare by
    label: 09007199254740993m comes before 9007199254740992m. *)
Example compareTiles_equal_doubles :
  parseTileName "09007199254740993m"
  = Some (mkTileName (Finite 9007199254740992) suit_m)
  /\ parseTileName "9007199254740992m"
     = Some (mkTileName (Finite 9007199254740992) suit_m)
  /\ label <$> sortTileFiles codeCompare
                 (tilesOf ["9007199254740992m"; "09007199254740993m"])
     = ["09007199254740993m"; "9007199254740992m"].
Proof. repeat split; vm_compute; reflexivity. Qed.

(** ** The sort keeps the files *)

Lemma insertBy_Permutation {A} (cmp : A -> A -> JsNumber) (x : A)
    (l : list A) :
  insertBy cmp x l ≡ₚ x :: l.
Proof.
  induction l as [|y l IH]; [done|]. cbn [insertBy].
  destruct (sign (cmp x y) <? 0); [done|].
  rewrite IH. apply Permutation_swap.
Qed.

Lemma sortBy_Permutation {A} (cmp : A -> A -> JsNumber) (l : list A) :
  sortBy cmp l ≡ₚ l.
Proof.
  unfold sortBy.
  assert (forall acc,
             fold_left (fun sorted x => insertBy cmp x sorted) l acc
             ≡ₚ acc ++ l) as H; [|by rewrite H].
  induction l as [|x l IH]; intros acc; cbn [fold_left].
  - by rewrite app_nil_r.
  - rewrite IH, insertBy_Permutation.
    by rewrite (Permutation_middle acc l x).
Qed.

(** C8, as stated, fails for the rank bound: the files 10z.png, 0m.png
    and 9007199254740993s.png are in the catalog, with the ranks 10
    (suit z), 0 (suit m) and 9007199254740992 (suit s). *)
Lemma findPngFiles_rank_out_of_range :
  findPngFiles codeCompare (fun dir name => dir +:+ "/" +:+ name) "tiles"
    [mkDirent "10z.png" true; mkDirent "0m.png" true;
     mkDirent "1m.svg.png" true; mkDirent "9007199254740993s.png" true]
  = [mkTileFile "tiles/0m.png" "0m";
     mkTileFile "tiles/9007199254740993s.png" "9007199254740993s";
     mkTileFile "tiles/10z.png" "10z"]
  /\ parseTileName "10z" = Some (mkTileName (Finite 10) suit_z)
  /\ ~ (1 <= 10 <= 7)
  /\ parseTileName "0m" = Some (mkTileName (Finite 0) suit_m)
  /\ ~ (1 <= 0 <= 9)
  /\ parseTileName "9007199254740993s"
     = Some (mkTileName (Finite 9007199254740992) suit_s)
  /\ ~ (1 <= 9007199254740992 <= 9).
Proof. repeat split; try (vm_compute; reflexivity); lia. Qed.

(** X8: the labels that [parseTileName] accepts are exactly the
    non-empty decimal numerals followed by one of the letters m, p, s, z
    in either case; the suit is that of the letter, and the number is the
    double nearest to the value of the numeral (leading zeros do not
    count; of two doubles equally near, the one with the even
    significand): the value itself when it is below 2^53, so that the
    numeral [toString] prints for such an [n], followed by a suit letter,
    parses back to [n]; above, 2^53 + 1 is read as 2^53 and 2^53 + 3 as
    2^53 + 4, and a numeral of 310 digits as infinity. *)
Theorem parseTileName_grammar :
  (forall (l : string) (pn : TileName),
      parseTileName l = Some pn <->
      exists (d : Decimal.uint) (c : ascii),
        d <> Decimal.Nil
        /\ l = NilEmpty.string_of_uint d +:+ String c EmptyString
        /\ (c, suit pn) ∈ suitLetters
        /\ number pn = roundDouble (Z.of_nat (Nat.of_uint d)))
  /\ (forall n : Z, Z.abs n < 2 ^ 53 -> roundDouble n = Finite n)
  /\ (forall v : Z, 0 <= v -> nearestDouble v (roundDouble v))
  /\ (forall (n : nat) (c : ascii) (s : Suit),
         (c, s) ∈ suitLetters -> Z.of_nat n < 2 ^ 53 ->
         parseTileName (toString n +:+ String c EmptyString)
         = Some {| number := Finite (Z.of_nat n); suit := s |})
  /\ parseTileName "9007199254740993m"
     = Some (mkTileName (Finite 9007199254740992) suit_m)
  /\ parseTileName "9007199254740995P"
     = Some (mkTileName (Finite 9007199254740996) suit_p)
  /\ parseTileName
       (string_of_list_ascii ("1"%char :: replicate 309 "0"%char) +:+ "z")
     = Some (mkTileName PosInfinity suit_z).
Proof.
  split; [apply parseTileName_shape|]. split; [apply roundDouble_exact|].
  split; [apply roundDouble_nearest|]. split; [|by vm_compute].
  intros n c s Hc%suitOfChar_letters Hn. rewrite toString_uint.
  rewrite (parseTileName_numeral _ c s) by (done || apply to_uint_nonnil).
  rewrite DecimalNat.Unsigned.of_to. do 2 f_equal.
  apply roundDouble_exact. lia.
Qed.

(** ** The catalog order *)

Lemma insertBy_filter {A} (cmp : A -> A -> JsNumber) (P : A -> Prop)
    `{!forall a, Decision (P a)} (x : A) (l : list A) :
  ~ P x -> filter P (insertBy cmp x l) = filter P l.
Proof.
  intros Hx. induction l as [|y l IH]; cbn [insertBy].
  - by rewrite filter_cons_False.
  - destruct (sign (cmp x y) <? 0).
    + by rewrite filter_cons_False.
    + by rewrite !filter_cons, IH.
Qed.

Lemma filter_none {A} (P : A -> Prop) `{!forall a, Decision (P a)}
    (l : list A) :
  Forall (fun a => ~ P a) l -> filter P l = [].
Proof.
  induction 1 as [|a l Ha Hl IH]; [done|]. by rewrite filter_cons_False.
Qed.

Lemma NoDup_fmap_inj_on {A B} (f : A -> B) (l : list A) (x y : A) :
  NoDup (f <$> l) -> x ∈ l -> y ∈ l -> f x = f y -> x = y.
Proof.
  induction l as [|a l IH]; [by intros _ ?%elem_of_nil|].
  cbn [fmap list_fmap]. fold (fmap (M:=list) f).
  intros [Ha Hl]%NoDup_cons [->|Hx]%elem_of_cons [->|Hy]%elem_of_cons Hf.
  - done.
  - destruct Ha. rewrite Hf. by apply list_elem_of_fmap_2.
  - destruct Ha. rewrite <- Hf. by apply list_elem_of_fmap_2.
  - by apply IH.
Qed.

Section OrderFacts.

Variable localeCompare : string -> string -> Z.
Variable path_join : string -> string -> string.

Hypothesis localeCompare_eq :
  forall a b, localeCompare a b = 0 <-> a = b.
Hypothesis localeCompare_antisym :
  forall a b, localeCompare a b < 0 <-> 0 < localeCompare b a.
Hypothesis localeCompare_trans :
  forall a b c, localeCompare a b < 0 -> localeCompare b c < 0 ->
                localeCompare a c < 0.

(** [a] may stand before [b] in a sorted array. *)
Definition tileLe (a b : ParsedTileFile) : Prop :=
  sign (compareTiles localeCompare a b) <= 0.

Lemma compareTiles_flip (a b : ParsedTileFile) :
  sign (compareTiles localeCompare a b) < 0 <-> 0 < sign (compareTiles localeCompare b a).
Proof.
  rewrite compareTiles_lt_iff, compareTiles_gt_iff.
  pose proof (localeCompare_antisym (label a) (label b)). lia.
Qed.

Lemma compareTiles_zero (a b : ParsedTileFile) :
  sign (compareTiles localeCompare a b) = 0 <-> label a = label b.
Proof.
  pose proof (compareTiles_lt_iff localeCompare a b) as Hlt.
  pose proof (compareTiles_gt_iff localeCompare a b) as Hgt.
  pose proof (localeCompare_eq (label a) (label b)) as Heq.
  split.
  - intros H0. apply Heq. lia.
  - intros Hl. pose proof (key_label a b Hl). apply Heq in Hl. lia.
Qed.

Lemma tileLe_not_lt (a b : ParsedTileFile) :
  tileLe a b <-> ~ sign (compareTiles localeCompare b a) < 0.
Proof.
  unfold tileLe. pose proof (compareTiles_flip b a). lia.
Qed.

Lemma compareTiles_lt_trans (a b c : ParsedTileFile) :
  sign (compareTiles localeCompare a b) < 0 -> sign (compareTiles localeCompare b c) < 0 ->
  sign (compareTiles localeCompare a c) < 0.
Proof.
  rewrite !compareTiles_lt_iff.
  pose proof (localeCompare_trans (label a) (label b) (label c)). lia.
Qed.

Lemma compareTiles_label_l (a a' b : ParsedTileFile) :
  label a = label a' ->
  compareTiles localeCompare a b = compareTiles localeCompare a' b.
Proof. unfold compareTiles. by intros ->. Qed.

Lemma compareTiles_label_r (a b b' : ParsedTileFile) :
  label b = label b' ->
  compareTiles localeCompare a b = compareTiles localeCompare a b'.
Proof. unfold compareTiles. by intros ->. Qed.

Lemma tileLe_trans (a b c : ParsedTileFile) :
  tileLe a b -> tileLe b c -> tileLe a c.
Proof.
  unfold tileLe. intros Hab Hbc.
  destruct (decide (sign (compareTiles localeCompare a b) = 0)) as [H0|Hab'].
  { apply compareTiles_zero in H0.
    by rewrite (compareTiles_label_l a b c). }
  destruct (decide (sign (compareTiles localeCompare b c) = 0)) as [H0|Hbc'].
  { apply compareTiles_zero in H0.
    by rewrite <- (compareTiles_label_r a b c). }
  pose proof (compareTiles_lt_trans a b c). lia.
Qed.

Lemma insertBy_sorted (x : ParsedTileFile) (l : list ParsedTileFile) :
  StronglySorted tileLe l ->
  StronglySorted tileLe (insertBy (compareTiles localeCompare) x l).
Proof.
  induction 1 as [|y l Hl IH Hy]; cbn [insertBy].
  - repeat constructor.
  - destruct (Z.ltb_spec (sign (compareTiles localeCompare x y)) 0) as [Hlt|Hge].
    + constructor; [by constructor|]. constructor; [unfold tileLe; lia|].
      eapply Forall_impl; [exact Hy|]. intros z Hz.
      apply (tileLe_trans x y z); [unfold tileLe; lia|done].
    + constructor; [done|].
      rewrite insertBy_Permutation. constructor; [|done].
      apply tileLe_not_lt. lia.
Qed.

Lemma sortBy_fold_sorted (l acc : list ParsedTileFile) :
  StronglySorted tileLe acc ->
  StronglySorted tileLe
    (fold_left (fun sorted x => insertBy (compareTiles localeCompare) x sorted)
               l acc).
Proof.
  revert acc. induction l as [|x l IH]; intros acc Hacc; [done|].
  cbn [fold_left]. by apply IH, insertBy_sorted.
Qed.

(** An element goes behind the sorted elements of its own label. *)
Lemma insertBy_filter_label (x : ParsedTileFile) (l : list ParsedTileFile) :
  StronglySorted tileLe l ->
  filter (fun f => label f = label x)
         (insertBy (compareTiles localeCompare) x l)
  = filter (fun f => label f = label x) l ++ [x].
Proof.
  induction 1 as [|y l Hl IH Hy]; cbn [insertBy].
  - by rewrite filter_cons_True.
  - destruct (Z.ltb_spec (sign (compareTiles localeCompare x y)) 0) as [Hlt|Hge].
    + rewrite filter_cons_True by done.
      assert (filter (fun f => label f = label x) (y :: l) = []) as ->;
        [|done].
      apply filter_none. constructor.
      * intros Hlabel. apply compareTiles_zero in Hlabel.
        pose proof (compareTiles_flip x y). lia.
      * eapply Forall_impl; [exact Hy|]. intros z Hz Hlabel.
        apply compareTiles_zero in Hlabel.
        pose proof (compareTiles_lt_trans x y z).
        pose proof (compareTiles_flip x z).
        pose proof (compareTiles_flip y z).
        unfold tileLe in Hz.
        destruct (decide (sign (compareTiles localeCompare y z) = 0)) as [Hyz|Hyz];
          [|lia].
        apply compareTiles_zero in Hyz.
        rewrite (compareTiles_label_r x y z Hyz) in Hlt. lia.
    + rewrite !filter_cons, IH. by case_decide.
Qed.

Lemma sortBy_fold_stable (lbl : string) (l acc : list ParsedTileFile) :
  StronglySorted tileLe acc ->
  filter (fun f => label f = lbl)
    (fold_left (fun sorted x => insertBy (compareTiles localeCompare) x sorted)
               l acc)
  = filter (fun f => label f = lbl) acc ++ filter (fun f => label f = lbl) l.
Proof.
  revert acc. induction l as [|x l IH]; intros acc Hacc; cbn [fold_left].
  - by rewrite filter_nil, app_nil_r.
  - rewrite IH by by apply insertBy_sorted.
    destruct (decide (label x = lbl)) as [<-|Hne].
    + rewrite insertBy_filter_label by done.
      rewrite filter_cons_True by done. by rewrite <- app_assoc.
    + rewrite insertBy_filter by done. by rewrite filter_cons_False.
Qed.

(** X6: [sortTileFiles] sorts.  Its result holds the files of its input,
    each as often as the input does; no file in it compares above a
    later one; and files of the same label stand in the order they had
    in the input. *)
Theorem sortTileFiles_sorted_stable (files : list ParsedTileFile) :
  sortTileFiles localeCompare files ≡ₚ files
  /\ (forall i j a b,
         (i < j)%nat ->
         sortTileFiles localeCompare files !! i = Some a ->
         sortTileFiles localeCompare files !! j = Some b ->
         compareTiles localeCompare a b <> NaN
         /\ sign (compareTiles localeCompare a b) <= 0)
  /\ (forall lbl,
         filter (fun f => label f = lbl) (sortTileFiles localeCompare files)
         = filter (fun f => label f = lbl) files).
Proof.
  split; [apply sortBy_Permutation|]. split.
  - assert (Hs : StronglySorted tileLe (sortTileFiles localeCompare files))
      by (apply sortBy_fold_sorted; constructor).
    revert Hs. generalize (sortTileFiles localeCompare files). intros l Hs.
    intros i j a b Hij Hi Hj. split; [apply compareTiles_sign|].
    revert i j a b Hij Hi Hj.
    induction Hs as [|y l Hl IH Hy]; intros i j a b Hij Hi Hj; [done|].
    destruct j as [|j]; [lia|]. cbn [lookup list_lookup] in Hj.
    destruct i as [|i].
    + injection Hi as ->. rewrite Forall_forall in Hy.
      apply Hy. by eapply list_elem_of_lookup_2.
    + apply (IH i j); [lia|done..].
  - intros lbl. unfold sortTileFiles, sortBy.
    rewrite sortBy_fold_stable by constructor. by rewrite filter_nil.
Qed.

(** X7: the catalog does not depend on the order in which the directory
    is listed: two listings of the same entries give the same catalog,
    provided no two catalogued files share a label. *)
Theorem findPngFiles_order_independent (inputDir : string)
    (entries1 entries2 : list Dirent) :
  entries1 ≡ₚ entries2 ->
  NoDup (label <$> findPngFiles localeCompare path_join inputDir entries1) ->
  findPngFiles localeCompare path_join inputDir entries1
  = findPngFiles localeCompare path_join inputDir entries2.
Proof.
  intros Hperm Hnodup. unfold findPngFiles in *.
  set (pngs1 := filter _ (tileOfEntry path_join inputDir <$> filter _ entries1))
    in *.
  set (pngs2 := filter _ (tileOfEntry path_join inputDir <$> filter _ entries2)).
  assert (Hp : pngs1 ≡ₚ pngs2) by (subst pngs1 pngs2; by rewrite Hperm).
  apply (StronglySorted_unique_strong tileLe).
  - intros x1 x2 H1 H2 H12 H21. unfold tileLe in *.
    assert (label x1 = label x2) as Hlabel.
    { apply compareTiles_zero. pose proof (compareTiles_flip x1 x2). lia. }
    apply (NoDup_fmap_inj_on label (sortTileFiles localeCompare pngs1));
      [done|done| |done].
    unfold sortTileFiles in *. rewrite sortBy_Permutation in H2 |- *.
    by rewrite Hp.
  - apply sortBy_fold_sorted. constructor.
  - apply sortBy_fold_sorted. constructor.
  - unfold sortTileFiles. by rewrite !sortBy_Permutation.
Qed.

End OrderFacts.

(** X6 with the comparison by character codes, at two files of the label
    1m among others. *)
Lemma sortTileFiles_sorted_stable_witness :
  let files := [mkTileFile "b/1m.png" "1m"; mkTileFile "5z.png" "5z";
                mkTileFile "a/1m.png" "1m"] in
  sortTileFiles codeCompare files ≡ₚ files
  /\ filter (fun f => label f = "1m") (sortTileFiles codeCompare files)
     = [mkTileFile "b/1m.png" "1m"; mkTileFile "a/1m.png" "1m"].
Proof.
  intros files.
  pose proof (sortTileFiles_sorted_stable codeCompare codeCompare_eq
                codeCompare_antisym codeCompare_trans files) as (Hp & _ & Hs).
  split; [exact Hp|]. by rewrite Hs.
Defined.

(** X7 with the comparison by character codes, at a directory listed in
    two orders. *)
Lemma findPngFiles_order_independent_witness :
  let join := fun dir name => dir +:+ "/" +:+ name in
  findPngFiles codeCompare join "tiles"
    [mkDirent "5z.png" true; mkDirent "1m.png" true; mkDirent "notes" true]
  = findPngFiles codeCompare join "tiles"
      [mkDirent "notes" true; mkDirent "1m.png" true; mkDirent "5z.png" true].
Proof.
  intros join.
  apply (findPngFiles_order_independent codeCompare join codeCompare_eq
           codeCompare_antisym codeCompare_trans).
  - etrans; [apply Permutation_swap|].
    etrans; [apply perm_skip, Permutation_swap|].
    apply Permutation_swap.
  - apply (bool_decide_unpack _). vm_compute. exact I.
Defined.

(** ** The file names of the catalog *)

Lemma lastDot_app (a b : list ascii) :
  lastDot (a ++ b)
  = match lastDot b with
    | Some i => Some (length a + i)%nat
    | None => lastDot a
    end.
Proof.
  induction a as [|c a IH]; cbn [app lastDot length].
  - by destruct (lastDot b).
  - rewrite IH. by destruct (lastDot b).
Qed.

Lemma toLower_dot (c : ascii) : toLower c = "."%char -> c = "."%char.
Proof.
  destruct c as [[] [] [] [] [] [] [] []]; vm_compute; congruence.
Qed.

Lemma toLower_letter (c l : ascii) :
  toLower c = l -> l <> "."%char -> c <> "."%char.
Proof. intros <- Hl ->. by apply Hl. Qed.

Lemma toLower_g (g : ascii) : toLower g = "g"%char -> suitOfChar g = None.
Proof.
  destruct g as [[] [] [] [] [] [] [] []]; vm_compute; congruence.
Qed.

(** An extension that [/\.png$/i] accepts. *)
Definition pngExtension (ext : list ascii) : Prop :=
  toLower <$> ext = list_ascii_of_string ".png".

Lemma pngExtension_chars (ext : list ascii) :
  pngExtension ext <->
  exists p n g,
    ext = ["."%char; p; n; g]
    /\ toLower p = "p"%char /\ toLower n = "n"%char
    /\ toLower g = "g"%char.
Proof.
  unfold pngExtension. split.
  - destruct ext as [|dot [|p [|n [|g [|x ext]]]]]; try done.
    cbn. intros [= Hdot Hp Hn Hg]. apply toLower_dot in Hdot as ->.
    by exists p, n, g.
  - intros (p & n & g & -> & Hp & Hn & Hg). cbn. by rewrite Hp, Hn, Hg.
Qed.

Lemma endsWithPng_chars (name : string) :
  endsWithPng name = true <->
  exists stem ext,
    list_ascii_of_string name = stem ++ ext /\ pngExtension ext.
Proof.
  unfold endsWithPng. split.
  - destruct (reverse (list_ascii_of_string name))
      as [|g [|n [|p [|dot rest]]]] eqn:Hrev; try done.
    intros Hb. repeat (apply andb_true_iff in Hb as [Hb ?]).
    repeat match goal with
           | H : bool_decide _ = true |- _ => apply bool_decide_eq_true_1 in H
           end.
    subst dot. exists (reverse rest), ["."%char; p; n; g]. split.
    + apply (f_equal reverse) in Hrev. rewrite reverse_involutive in Hrev.
      rewrite Hrev. rewrite !reverse_cons. by rewrite <- !app_assoc.
    + apply pngExtension_chars. by exists p, n, g.
  - intros (stem & ext & Hname & (p & n & g & -> & Hp & Hn & Hg)
                                  %pngExtension_chars).
    rewrite Hname, reverse_app. cbn [reverse rev_append app].
    change (reverse ["."%char; p; n; g]) with [g; n; p; "."%char].
    cbn [app]. rewrite Hp, Hn, Hg.
    by rewrite !bool_decide_eq_true_2.
Qed.

Lemma string_nil (l : list ascii) :
  string_of_list_ascii l = EmptyString <-> l = [].
Proof. by destruct l. Qed.

(** The label of a file with a png extension: the name without the
    extension, unless the name is the extension alone. *)
Lemma label_of_png (stem ext : list ascii) :
  pngExtension ext ->
  let name := string_of_list_ascii (stem ++ ext) in
  basename name (extname name)
  = if bool_decide (stem = []) then name else string_of_list_ascii stem.
Proof.
  intros (p & n & g & -> & Hp & Hn & Hg)%pngExtension_chars name.
  assert (Hcs : list_ascii_of_string name = stem ++ ["."%char; p; n; g])
    by apply list_ascii_of_string_of_list_ascii.
  assert (Hdot : lastDot (stem ++ ["."%char; p; n; g])
                 = Some (length stem + 0)%nat).
  { rewrite lastDot_app. cbn [lastDot].
    rewrite (bool_decide_eq_false_2 (g = "."%char))
      by (apply (toLower_letter g "g"); done).
    rewrite (bool_decide_eq_false_2 (n = "."%char))
      by (apply (toLower_letter n "n"); done).
    rewrite (bool_decide_eq_false_2 (p = "."%char))
      by (apply (toLower_letter p "p"); done).
    by rewrite (bool_decide_eq_true_2 ("."%char = "."%char)). }
  unfold extname. rewrite Hcs, Hdot, Nat.add_0_r.
  destruct stem as [|c stem].
  - rewrite (bool_decide_eq_true_2 (@nil ascii = [])) by done.
    cbn [length].
    unfold basename. by rewrite (bool_decide_eq_true_2 (EmptyString = "")).
  - rewrite (bool_decide_eq_false_2 (c :: stem = [])) by done.
    cbn [length].
    assert (Hne : name <> "..").
    { intros Heq%(f_equal list_ascii_of_string). rewrite Hcs in Heq.
      apply (f_equal length) in Heq. rewrite length_app in Heq.
      cbn in Heq. lia. }
    rewrite (bool_decide_eq_false_2 (name = "..")) by done.
    change (S (length stem)) with (length (c :: stem)).
    rewrite drop_app_length.
    set (ext := string_of_list_ascii ["."%char; p; n; g]).
    unfold basename.
    assert (Hes : list_ascii_of_string ext = ["."%char; p; n; g])
      by apply list_ascii_of_string_of_list_ascii.
    rewrite Hcs, Hes.
    rewrite (bool_decide_eq_false_2 (ext = "")) by done.
    rewrite length_app.
    destruct (Nat.ltb_spec (length (c :: stem)
                            + length ["."%char; p; n; g])
                           (length ["."%char; p; n; g])) as [Hlt|_];
      [cbn [length] in Hlt; lia|].
    cbn [orb].
    rewrite (bool_decide_eq_false_2 (ext = name)).
    2:{ intros Heq%(f_equal list_ascii_of_string). rewrite Hcs, Hes in Heq.
        apply (f_equal length) in Heq. rewrite length_app in Heq.
        cbn in Heq. lia. }
    replace (length (c :: stem) + length ["."%char; p; n; g]
             - length ["."%char; p; n; g])%nat
      with (length (c :: stem)) by lia.
    rewrite drop_app_length, take_app_length.
    by rewrite bool_decide_eq_true_2.
Qed.

Section NameFacts.

Variable localeCompare : string -> string -> Z.
Variable path_join : string -> string -> string.

Lemma catalogued_names (inputDir : string) (entries : list Dirent)
    (tile : ParsedTileFile) :
  tile ∈ findPngFiles localeCompare path_join inputDir entries <->
  exists (entry : Dirent) (d : Decimal.uint) (c : ascii) (ext : string),
    entry ∈ entries
    /\ isFile entry = true
    /\ d <> Decimal.Nil
    /\ is_Some (suitOfChar c)
    /\ pngExtension (list_ascii_of_string ext)
    /\ name entry = NilEmpty.string_of_uint d +:+ String c EmptyString +:+ ext
    /\ tile = {| filePath := path_join inputDir (name entry);
                 label := NilEmpty.string_of_uint d +:+ String c EmptyString |}.
Proof.
  unfold findPngFiles, sortTileFiles. rewrite sortBy_Permutation.
  rewrite list_elem_of_filter, list_elem_of_fmap. split.
  - intros (Hparse & entry & -> & Hentry).
    apply list_elem_of_filter in Hentry as [Hpng Hentry].
    apply andb_prop_elim in Hpng as [Hfile Hpng].
    apply Is_true_eq_true in Hfile, Hpng.
    apply endsWithPng_chars in Hpng as (stem & ext & Hname & Hext).
    cbn [tileOfEntry label] in Hparse.
    assert (Hn : name entry = string_of_list_ascii (stem ++ ext))
      by (by rewrite <- Hname, string_of_list_ascii_of_string).
    rewrite Hn, (label_of_png stem ext Hext) in Hparse.
    case_bool_decide as Hstem.
    { subst stem. destruct Hparse. cbn [app].
      apply pngExtension_chars in Hext as (p & n & g & -> & _ & _ & Hg).
      unfold parseTileName.
      rewrite list_ascii_of_string_of_list_ascii.
      change (reverse ["."%char; p; n; g]) with [g; n; p; "."%char].
      cbv beta iota. by rewrite (toLower_g g). }
    destruct (parseTileName (string_of_list_ascii stem)) as [pn|] eqn:Hpn;
      [|done].
    apply parseTileName_shape in Hpn as (d & c & Hd & Hstem' & Hc & _).
    exists entry, d, c, (string_of_list_ascii ext).
    split; [done|]. split; [done|]. split; [done|].
    split; [exists (suit pn); by apply suitOfChar_letters|].
    rewrite list_ascii_of_string_of_list_ascii. split; [done|].
    assert (Hjoin : name entry
                    = (NilEmpty.string_of_uint d +:+ String c EmptyString)
                      +:+ string_of_list_ascii ext).
    { rewrite <- Hstem', Hn.
      rewrite <- (string_of_list_ascii_of_string
                    (string_of_list_ascii stem +:+ string_of_list_ascii ext)).
      by rewrite string_app_chars, !list_ascii_of_string_of_list_ascii. }
    split.
    + rewrite Hjoin.
      rewrite <- (string_of_list_ascii_of_string (_ +:+ _ +:+ _)).
      rewrite <- (string_of_list_ascii_of_string ((_ +:+ _) +:+ _)).
      by rewrite !string_app_chars, app_assoc.
    + unfold tileOfEntry. f_equal.
      rewrite Hn, (label_of_png stem ext Hext).
      by rewrite bool_decide_eq_false_2.
  - intros (entry & d & c & ext & Hentry & Hfile & Hd & [s Hc] & Hext
            & Hname & ->).
    set (stem := NilEmpty.string_of_uint d +:+ String c EmptyString) in *.
    assert (Hcs : list_ascii_of_string (name entry)
                  = list_ascii_of_string stem ++ list_ascii_of_string ext).
    { rewrite Hname.
      change (NilEmpty.string_of_uint d +:+ String c EmptyString +:+ ext)
        with (NilEmpty.string_of_uint d +:+ (String c EmptyString +:+ ext)).
      subst stem. by rewrite !string_app_chars, app_assoc. }
    assert (Hn : name entry
                 = string_of_list_ascii
                     (list_ascii_of_string stem ++ list_ascii_of_string ext))
      by (by rewrite <- Hcs, string_of_list_ascii_of_string).
    assert (Hlabel : basename (name entry) (extname (name entry)) = stem).
    { rewrite Hn, (label_of_png _ _ Hext).
      rewrite bool_decide_eq_false_2.
      - apply string_of_list_ascii_of_string.
      - subst stem. rewrite string_app_chars.
        by destruct (list_ascii_of_string (NilEmpty.string_of_uint d)). }
    split.
    + cbn [label]. subst stem. by rewrite (parseTileName_numeral d c s).
    + exists entry. split.
      * unfold tileOfEntry. by rewrite Hlabel.
      * apply list_elem_of_filter. split; [|done].
        rewrite Hfile. cbn [andb].
        apply Is_true_eq_left, endsWithPng_chars. eauto.
Qed.

Lemma suit_letter (c : ascii) :
  is_Some (suitOfChar c) <->
  c ∈ ["m"; "M"; "p"; "P"; "s"; "S"; "z"; "Z"]%char.
Proof.
  rewrite !elem_of_cons, elem_of_nil. split.
  - intros [s Hs]. revert Hs.
    destruct c as [[] [] [] [] [] [] [] []]; try discriminate; tauto.
  - intros H. destruct_or!; subst; try done; by eexists.
Qed.

Ltac member :=
  repeat first [apply list_elem_of_here|apply list_elem_of_further].

Lemma toLower_cases (x lower upper : ascii) :
  (lower, upper) ∈ [("p", "P"); ("n", "N"); ("g", "G")]%char ->
  toLower x = lower <-> x ∈ [lower; upper].
Proof.
  intros H. apply list_elem_of_In in H.
  assert (x ∈ [lower; upper] <-> x = lower \/ x = upper) as ->.
  { rewrite !elem_of_cons, elem_of_nil. tauto. }
  cbn in H. destruct_or!; simplify_eq; try done;
    (split;
     [destruct x as [[] [] [] [] [] [] [] []]; vm_compute; try discriminate;
      tauto
     |intros [->| ->]; vm_compute; reflexivity]).
Qed.

(** X19: the files of the catalog, by name.  A directory entry is
    catalogued exactly when it is a file whose name is a non-empty
    decimal numeral, one of the letters m, p, s, z in either case, and
    the extension: a dot and the letters p, n, g, each in either case,
    and nothing else; its label is the name without the extension and
    its path the directory joined with the name. *)
Theorem findPngFiles_names (inputDir : string) (entries : list Dirent)
    (tile : ParsedTileFile) :
  tile ∈ findPngFiles localeCompare path_join inputDir entries <->
  exists (entry : Dirent) (d : Decimal.uint) (c p n g : ascii),
    entry ∈ entries
    /\ isFile entry = true
    /\ d <> Decimal.Nil
    /\ c ∈ ["m"; "M"; "p"; "P"; "s"; "S"; "z"; "Z"]%char
    /\ p ∈ ["p"; "P"]%char
    /\ n ∈ ["n"; "N"]%char
    /\ g ∈ ["g"; "G"]%char
    /\ name entry
       = NilEmpty.string_of_uint d +:+ String c EmptyString
         +:+ String "." (String p (String n (String g EmptyString)))
    /\ tile = {| filePath := path_join inputDir (name entry);
                 label := NilEmpty.string_of_uint d +:+ String c EmptyString |}.
Proof.
  rewrite catalogued_names. split.
  - intros (entry & d & c & ext & Hentry & Hfile & Hd & Hc & Hext & Hname
            & Htile).
    apply pngExtension_chars in Hext as (p & n & g & Hext & Hp & Hn & Hg).
    exists entry, d, c, p, n, g.
    split; [done|]. split; [done|]. split; [done|].
    split; [by apply suit_letter|].
    split; [apply (toLower_cases p "p" "P"); [member|done]|].
    split; [apply (toLower_cases n "n" "N"); [member|done]|].
    split; [apply (toLower_cases g "g" "G"); [member|done]|].
    split; [|done].
    rewrite Hname. do 2 f_equal.
    by rewrite <- (string_of_list_ascii_of_string ext), Hext.
  - intros (entry & d & c & p & n & g & Hentry & Hfile & Hd & Hc & Hp & Hn
            & Hg & Hname & Htile).
    exists entry, d, c, (String "." (String p (String n (String g EmptyString)))).
    split; [done|]. split; [done|]. split; [done|].
    split; [by apply suit_letter|].
    split; [|done].
    apply pngExtension_chars. exists p, n, g. split; [done|].
    split; [apply (toLower_cases p "p" "P"); [member|done]|].
    split; [apply (toLower_cases n "n" "N"); [member|done]|].
    apply (toLower_cases g "g" "G"); [member|done].
Qed.

(** C8, amended: the catalog scan produces exactly the files of the
    directory whose name is a non-empty decimal numeral, one of the
    letters m, p, s, z in either case, and the extension .png in any
    case.  The label of each is the name without the extension, and it
    parses: the parsed identity is the suit of the letter and, as rank,
    the number the numeral is read to: the double nearest to its value
    (of two that are equally near, the one with the even significand;
    infinite when that is 2^1024 or more), which is the value itself
    below 2^53.  There is no bound on the rank.  A name that does not
    parse yields no entry. *)
Theorem findPngFiles_parsed (inputDir : string) (entries : list Dirent)
    (tile : ParsedTileFile) :
  tile ∈ findPngFiles localeCompare path_join inputDir entries <->
  exists (entry : Dirent) (d : Decimal.uint) (c p n g : ascii) (s : Suit),
    let rank := Z.of_nat (Nat.of_uint d) in
    entry ∈ entries
    /\ isFile entry = true
    /\ d <> Decimal.Nil
    /\ (c, s) ∈ suitLetters
    /\ p ∈ ["p"; "P"]%char
    /\ n ∈ ["n"; "N"]%char
    /\ g ∈ ["g"; "G"]%char
    /\ name entry
       = NilEmpty.string_of_uint d +:+ String c EmptyString
         +:+ String "." (String p (String n (String g EmptyString)))
    /\ tile = {| filePath := path_join inputDir (name entry);
                 label := NilEmpty.string_of_uint d +:+ String c EmptyString |}
    /\ parseTileName (label tile)
       = Some {| number := roundDouble rank; suit := s |}
    /\ nearestDouble rank (roundDouble rank)
    /\ (rank < 2 ^ 53 -> roundDouble rank = Finite rank).
Proof.
  rewrite catalogued_names. split.
  - intros (entry & d & c & ext & Hentry & Hfile & Hd & [s Hc] & Hext & Hname
            & Htile).
    apply pngExtension_chars in Hext as (p & n & g & Hext & Hp & Hn & Hg).
    exists entry, d, c, p, n, g, s. cbv zeta.
    split; [done|]. split; [done|]. split; [done|].
    split; [by apply suitOfChar_letters|].
    split; [apply (toLower_cases p "p" "P"); [member|done]|].
    split; [apply (toLower_cases n "n" "N"); [member|done]|].
    split; [apply (toLower_cases g "g" "G"); [member|done]|].
    split.
    { rewrite Hname. do 2 f_equal.
      by rewrite <- (string_of_list_ascii_of_string ext), Hext. }
    split; [done|].
    split; [rewrite Htile; cbn [label]; by apply parseTileName_numeral|].
    split; [apply roundDouble_nearest; lia|].
    intros Hsmall. apply roundDouble_exact. lia.
  - intros (entry & d & c & p & n & g & s & Hentry & Hfile & Hd & Hc & Hp & Hn
            & Hg & Hname & Htile & _).
    exists entry, d, c, (String "." (String p (String n (String g EmptyString)))).
    split; [done|]. split; [done|]. split; [done|].
    split; [exists s; by apply suitOfChar_letters|].
    split; [|done].
    apply pngExtension_chars. exists p, n, g. split; [done|].
    split; [apply (toLower_cases p "p" "P"); [member|done]|].
    split; [apply (toLower_cases n "n" "N"); [member|done]|].
    apply (toLower_cases g "g" "G"); [member|done].
Qed.

End NameFacts.

End Catalog.

(** * Layout engine *)

Module Layout.

Import Pdf.

(** ** Geometry *)

Definition MM_TO_PT : Q := (72 / (254 # 10))%Q.

Record LayoutConstants : Type := mkLayout {
  pageWidthMm : Q;
  pageHeightMm : Q;
  cols : nat;
  rowsPerPage : nat;
  marginTopMm : Q;
  marginLeftMm : Q;
  cellWidthMm : Q;
  cellHeightMm : Q;
  gapMm : Q
}.

Definition LAYOUT : LayoutConstants :=
  {| pageWidthMm := 100%Q; pageHeightMm := 148%Q; cols := 4; rowsPerPage := 4;
     marginTopMm := 20%Q; marginLeftMm := 10%Q; cellWidthMm := 17%Q;
     cellHeightMm := 24%Q; gapMm := 4%Q |}.

(** Lengths are exact rationals here; the program computes them in
    floating point. *)
Definition mmToPt (mm : Q) : Q := (mm * MM_TO_PT)%Q.

Definition pageWidthPt : Q := mmToPt (pageWidthMm LAYOUT).
Definition pageHeightPt : Q := mmToPt (pageHeightMm LAYOUT).
Definition cellWidthPt : Q := mmToPt (cellWidthMm LAYOUT).
Definition cellHeightPt : Q := mmToPt (cellHeightMm LAYOUT).
Definition marginLeftPt : Q := mmToPt (marginLeftMm LAYOUT).
Definition marginTopPt : Q := mmToPt (marginTopMm LAYOUT).
Definition gapPt : Q := mmToPt (gapMm LAYOUT).

(** ** Pagination *)

(** [for (let i = 0; i < items.length; i += size)
       chunks.push(items.slice(i, i + size))].
    With [size >= 1] the loop makes at most [length items] passes, and
    the fuel suffices.  With [size = 0] and a non-empty array the loop of
    the program never ends; the fuel then runs out with the loop still
    running, and the list returned here stands for no result of the
    program.  [createPdf] calls [chunkBy] with [rowsPerPage LAYOUT], which
    is 4, and every statement on [chunkBy] below is for [size >= 1]. *)
Fixpoint chunkByFrom {T} (fuel : nat) (items : list T) (size i : nat)
  : list (list T) :=
  match fuel with
  | O => []
  | S fuel' =>
      if (i <? length items)%nat
      then take size (drop i items) :: chunkByFrom fuel' items size (i + size)
      else []
  end.

Definition chunkBy {T} (items : list T) (size : nat) : list (list T) :=
  chunkByFrom (length items) items size 0.

Record PdfImageRef : Type := mkImageRef {
  name : string;
  objectId : nat
}.

(** A paint-image instruction: a content-stream command that ends in
    the operator [Do]. *)
Definition isPaintImage (command : string) : bool :=
  match reverse (list_ascii_of_string command) with
  | "o"%char :: "D"%char :: " "%char :: _ => true
  | _ => false
  end.

Section Pages.

(** [x.toFixed(4)]. *)
Variable toFixed4 : Q -> string.

(** The transform of the copy in row [row], column [col]. *)
Definition cmCommand (row col : nat) : string :=
  let y := (pageHeightPt - marginTopPt - cellHeightPt
            - inject_Z (Z.of_nat row) * (cellHeightPt + gapPt))%Q in
  let x := (marginLeftPt
            + inject_Z (Z.of_nat col) * (cellWidthPt + gapPt))%Q in
  toFixed4 cellWidthPt +:+ " 0 0 " +:+ toFixed4 cellHeightPt +:+ " "
  +:+ toFixed4 x +:+ " " +:+ toFixed4 y +:+ " cm".

(** The four commands pushed for one copy of a tile. *)
Definition copyCommands (imageRef : PdfImageRef) (row col : nat)
  : list string :=
  ["q"; cmCommand row col; "/" +:+ name imageRef +:+ " Do"; "Q"].

(** The body of the loop over the rows of a page. *)
Definition rowCommands (imageRefs : list PdfImageRef) (pageIndex row : nat)
    (st : list string * list string) : list string * list string :=
  let '(commands, xObjectEntries) := st in
  let globalIndex := (pageIndex * rowsPerPage LAYOUT + row)%nat in
  match imageRefs !! globalIndex with
  | None => st
  | Some imageRef =>
      (fold_left (fun commands col => commands ++ copyCommands imageRef row col)
                 (seq 0 (cols LAYOUT)) commands,
       xObjectEntries
         ++ ["/" +:+ name imageRef +:+ " " +:+ toString (objectId imageRef)
             +:+ " 0 R"])
  end.

Definition guideCommands : list string :=
  let gridWidthMm :=
    (inject_Z (Z.of_nat (cols LAYOUT)) * cellWidthMm LAYOUT
     + inject_Z (Z.of_nat (cols LAYOUT - 1)) * gapMm LAYOUT)%Q in
  let gridHeightMm :=
    (inject_Z (Z.of_nat (rowsPerPage LAYOUT)) * cellHeightMm LAYOUT
     + inject_Z (Z.of_nat (rowsPerPage LAYOUT - 1)) * gapMm LAYOUT)%Q in
  let leftMm := marginLeftMm LAYOUT in
  let rightMm := (leftMm + gridWidthMm)%Q in
  let topMm := marginTopMm LAYOUT in
  let bottomMm := (topMm + gridHeightMm)%Q in
  let centerXPt := mmToPt (pageWidthMm LAYOUT / 2)%Q in
  let centerYPt := mmToPt (pageHeightMm LAYOUT / 2)%Q in
  let leftPt := mmToPt leftMm in
  let rightPt := mmToPt rightMm in
  let topPt := mmToPt topMm in
  let bottomPt := mmToPt bottomMm in
  let topYPtFromBottom := (pageHeightPt - topPt)%Q in
  let bottomYPtFromBottom := (pageHeightPt - bottomPt)%Q in
  ["q"; "0.2 0.4 0.9 RG"; "0.5 w";
   toFixed4 centerXPt +:+ " 0 m " +:+ toFixed4 centerXPt +:+ " "
     +:+ toFixed4 pageHeightPt +:+ " l S";
   "0 " +:+ toFixed4 centerYPt +:+ " m " +:+ toFixed4 pageWidthPt +:+ " "
     +:+ toFixed4 centerYPt +:+ " l S";
   "Q"]
  ++ ["q"; "0.9 0.2 0.2 RG"; "0.8 w";
      toFixed4 leftPt +:+ " " +:+ toFixed4 bottomYPtFromBottom +:+ " m "
        +:+ toFixed4 rightPt +:+ " " +:+ toFixed4 bottomYPtFromBottom +:+ " l "
        +:+ toFixed4 rightPt +:+ " " +:+ toFixed4 topYPtFromBottom +:+ " l "
        +:+ toFixed4 leftPt +:+ " " +:+ toFixed4 topYPtFromBottom +:+ " l h S";
      "Q"].

(** [commands] and [xObjectEntries] of the page [pageIndex], whose tiles
    are [rows]. *)
Definition pageContent {T} (imageRefs : list PdfImageRef) (showGuides : bool)
    (pageIndex : nat) (rows : list T) : list string * list string :=
  let '(commands, xObjectEntries) :=
    fold_left (fun st row => rowCommands imageRefs pageIndex row st)
              (seq 0 (length rows)) ([], []) in
  (if showGuides then commands ++ guideCommands else commands,
   xObjectEntries).

End Pages.

(** ** The run and its effects

    What a run does to the world is kept as a trace: the calls into the
    file system and the console, in order, and a mark at each decoding,
    at each change to the object table and at the serialisation. *)

Inductive LogMessage : Type :=
| LogHelp
| LogWritten (outputFile : string)
| LogTileCount (count : nat)
| LogPageCount (count : nat)
| LogPerPage (rows columns total : nat)
| LogGuides.

Inductive Event : Type :=
| EvReaddir (dir : string)
| EvReadFile (path : string)
| EvParsePng (path : string)
| EvAddObject (objectId : nat)
| EvSetObject (objectId : nat)
| EvBuild
| EvMkdir (dir : string)
| EvWriteFile (path : string) (data : Buffer)
| EvLog (message : LogMessage)
| EvExit (code : Z).

(** A step of the run: it may throw, and it extends the trace. *)
Definition IO (A : Type) : Type := list Event -> Throws A * list Event.

#[global] Instance IO_ret : MRet IO := fun A a trace => (Ok a, trace).

#[global] Instance IO_bind : MBind IO := fun A B k step trace =>
  match step trace with
  | (Ok a, trace') => k a trace'
  | (Err e, trace') => (Err e, trace')
  end.

Definition emit (e : Event) : IO unit := fun trace => (Ok tt, trace ++ [e]).

Definition liftT {A} (r : Throws A) : IO A := fun trace => (r, trace).

(** [for (const [i, x] of xs.entries()) { ... }]. *)
Fixpoint forEachIO {X S} (body : nat -> X -> S -> IO S) (i : nat)
    (xs : list X) (st : S) : IO S :=
  match xs with
  | [] => mret st
  | x :: rest => st' ← body i x st; forEachIO body (Datatypes.S i) rest st'
  end.

(** A registration, marked in the trace. *)
Definition register (r : PdfBuilder * nat) : IO (PdfBuilder * nat) :=
  _ ← emit (EvAddObject r.2); mret r.

Record CliOptions : Type := mkCliOptions {
  inputDir : string;
  outputFile : string;
  showHelp : bool;
  showGuides : bool
}.

Section Run.

Variable toFixed4 : Q -> string.
Variable inflateSync : Buffer -> Throws Buffer.
Variable deflateSync : Buffer -> Buffer.
Variable localeCompare : string -> string -> Z.
Variable path_join : string -> string -> string.
Variable path_resolve : string -> string.
Variable path_dirname : string -> string.

(** The file system the run meets. *)
Variable readdir : string -> Throws (list Catalog.Dirent).
Variable readFile : string -> Throws Buffer.
Variable mkdir : string -> Throws unit.
Variable writeFile : string -> Buffer -> Throws unit.

Definition imageDict (parsed : Png.ParsedPng) (colorSpace : string)
    (bits : string) (length_ : nat) (smaskPart : string) : string :=
  "<< /Type /XObject /Subtype /Image /Width "
  +:+ toString (Z.to_nat (Png.png_width parsed))
  +:+ " /Height " +:+ toString (Z.to_nat (Png.png_height parsed))
  +:+ " /ColorSpace /" +:+ colorSpace +:+ " /BitsPerComponent " +:+ bits
  +:+ " /Filter /FlateDecode /Length " +:+ toString length_
  +:+ smaskPart +:+ " >>".

(** The body of the first loop of [createPdf]: read, decode and embed
    the tile [i]. *)
Definition embedTile (i : nat) (tile : Catalog.ParsedTileFile)
    (st : PdfBuilder * list PdfImageRef) : IO (PdfBuilder * list PdfImageRef) :=
  let '(builder, imageRefs) := st in
  _ ← emit (EvReadFile (Catalog.filePath tile));
  file ← liftT (readFile (Catalog.filePath tile));
  _ ← emit (EvParsePng (Catalog.filePath tile));
  parsed ← liftT (Png.parsePng inflateSync deflateSync file);
  masked ← match Png.alphaDeflated parsed with
           | Some alpha =>
               r ← register
                     (addStreamObject
                        (imageDict parsed "DeviceGray" "8" (length alpha) "")
                        alpha builder);
               mret (r.1, Some r.2)
           | None => mret (builder, None)
           end;
  let smaskPart :=
    match masked.2 with
    | Some smaskId => " /SMask " +:+ toString smaskId +:+ " 0 R"
    | None => ""
    end in
  r ← register
        (addStreamObject
           (imageDict parsed "DeviceRGB"
                      (toString (Z.to_nat (Png.png_bitDepth parsed)))
                      (length (Png.rgbDeflated parsed)) smaskPart)
           (Png.rgbDeflated parsed) masked.1);
  mret (r.1, imageRefs ++ [{| name := "Im" +:+ toString (i + 1);
                              objectId := r.2 |}]).

(** The body of the loop over the pages. *)
Definition layoutPage (imageRefs : list PdfImageRef) (showGuides : bool)
    (pagesId : nat) (pageIndex : nat) (rows : list Catalog.ParsedTileFile)
    (st : PdfBuilder * list nat) : IO (PdfBuilder * list nat) :=
  let '(builder, pageIds) := st in
  let '(commands, xObjectEntries) :=
    pageContent toFixed4 imageRefs showGuides pageIndex rows in
  let contentData := Buffer_from (join LF commands +:+ LF) in
  content ← register
              (addStreamObject
                 ("<< /Length " +:+ toString (length contentData) +:+ " >>")
                 contentData builder);
  page ← register
           (addRawObject
              ("<< /Type /Page /Parent " +:+ toString pagesId
               +:+ " 0 R /MediaBox [0 0 " +:+ toFixed4 pageWidthPt +:+ " "
               +:+ toFixed4 pageHeightPt
               +:+ "] /Resources << /XObject << "
               +:+ join " " xObjectEntries
               +:+ " >> >> /Contents " +:+ toString content.2 +:+ " 0 R >>")
              content.1);
  mret (page.1, pageIds ++ [page.2]).

(** [createPdf] from [const pagesId = ...] on: the layout step. *)
Definition layoutDocument (builder : PdfBuilder)
    (imageRefs : list PdfImageRef) (tiles : list Catalog.ParsedTileFile)
    (showGuides : bool) : IO Buffer :=
  pages ← register (addPlaceholderObject builder);
  let pagesId := pages.2 in
  let tilePages := chunkBy tiles (rowsPerPage LAYOUT) in
  laid ← forEachIO (layoutPage imageRefs showGuides pagesId) 0 tilePages
                   (pages.1, []);
  let pageIds := laid.2 in
  let kids := join " " ((fun id => toString id +:+ " 0 R") <$> pageIds) in
  _ ← emit (EvSetObject pagesId);
  let builder' :=
    setObject pagesId
              (Buffer_from ("<< /Type /Pages /Kids [" +:+ kids +:+ "] /Count "
                            +:+ toString (length pageIds) +:+ " >>"))
              laid.1 in
  catalog ← register
              (addRawObject
                 ("<< /Type /Catalog /Pages " +:+ toString pagesId
                  +:+ " 0 R >>") builder');
  _ ← emit EvBuild;
  liftT (build catalog.2 catalog.1).

Definition createPdf (tiles : list Catalog.ParsedTileFile) (showGuides : bool)
  : IO Buffer :=
  embedded ← forEachIO embedTile 0 tiles (newPdfBuilder, []);
  layoutDocument embedded.1 embedded.2 tiles showGuides.

Definition findPngFiles (inputDir : string)
  : IO (list Catalog.ParsedTileFile) :=
  _ ← emit (EvReaddir inputDir);
  entries ← liftT (readdir inputDir);
  mret (Catalog.findPngFiles localeCompare path_join inputDir entries).

Definition main (options : CliOptions) : IO unit :=
  if showHelp options then
    _ ← emit (EvLog LogHelp); emit (EvExit 0)
  else
    let inputDir := path_resolve (inputDir options) in
    let outputFile := path_resolve (outputFile options) in
    tiles ← findPngFiles inputDir;
    if (length tiles =? 0)%nat then liftT (Err (ErrNoPngFiles inputDir))
    else
      pdf ← createPdf tiles (showGuides options);
      _ ← emit (EvMkdir (path_dirname outputFile));
      _ ← liftT (mkdir (path_dirname outputFile));
      _ ← emit (EvWriteFile outputFile pdf);
      _ ← liftT (writeFile outputFile pdf);
      let pageCount :=
        ((length tiles + rowsPerPage LAYOUT - 1) / rowsPerPage LAYOUT)%nat in
      _ ← emit (EvLog (LogWritten outputFile));
      _ ← emit (EvLog (LogTileCount (length tiles)));
      _ ← emit (EvLog (LogPageCount pageCount));
      _ ← emit (EvLog (LogPerPage (rowsPerPage LAYOUT) (cols LAYOUT)
                                  (rowsPerPage LAYOUT * cols LAYOUT)));
      if showGuides options then emit (EvLog LogGuides) else mret tt.

End Run.

(** ** Pagination lemmas *)

Lemma chunkByFrom_lookup {T} (items : list T) (size : nat) :
  (1 <= size)%nat ->
  forall fuel i j,
    (length items <= i + fuel)%nat ->
    chunkByFrom fuel items size i !! j =
    if (i + j * size <? length items)%nat
    then Some (take size (drop (i + j * size) items))
    else None.
Proof.
  intros Hsize. induction fuel as [|fuel IH]; intros i j Hfuel.
  - cbn [chunkByFrom].
    destruct (Nat.ltb_spec (i + j * size) (length items)); [nia|done].
  - cbn [chunkByFrom].
    destruct (Nat.ltb_spec i (length items)) as [Hi|Hi].
    + destruct j as [|j]; cbn [lookup list_lookup].
      * rewrite Nat.add_0_r.
        by destruct (Nat.ltb_spec i (length items)); [|lia].
      * change ((take size (drop i items)
                   :: chunkByFrom fuel items size (i + size)) !! S j)
          with (chunkByFrom fuel items size (i + size) !! j).
        rewrite IH by lia.
        by replace (i + size + j * size)%nat with (i + S j * size)%nat by lia.
    + destruct (Nat.ltb_spec (i + j * size) (length items)); [nia|done].
Qed.

Lemma chunkBy_lookup {T} (items : list T) (size j : nat) :
  (1 <= size)%nat ->
  chunkBy items size !! j =
  if (j * size <? length items)%nat
  then Some (take size (drop (j * size) items))
  else None.
Proof.
  intros Hsize. unfold chunkBy.
  by rewrite chunkByFrom_lookup by (done || lia).
Qed.

Lemma chunkByFrom_join {T} (items : list T) (size : nat) :
  (1 <= size)%nat ->
  forall fuel i,
    (length items <= i + fuel)%nat ->
    mjoin (chunkByFrom fuel items size i) = drop i items.
Proof.
  intros Hsize. induction fuel as [|fuel IH]; intros i Hfuel;
    cbn [chunkByFrom].
  - by rewrite drop_ge by lia.
  - destruct (Nat.ltb_spec i (length items)) as [Hi|Hi].
    + cbn [mjoin list_join].
      change (list_join T (chunkByFrom fuel items size (i + size)))
        with (mjoin (chunkByFrom fuel items size (i + size))).
      rewrite IH by lia. rewrite <- drop_drop. apply take_drop.
    + by rewrite drop_ge by lia.
Qed.

Lemma chunkBy_length_4 {T} (items : list T) :
  length (chunkBy items 4) = ((length items + 3) / 4)%nat.
Proof.
  set (n := ((length items + 3) / 4)%nat).
  assert (Hn : (4 * n <= length items + 3 < 4 * n + 4)%nat).
  { subst n. pose proof (Nat.div_mod_eq (length items + 3) 4).
    pose proof (Nat.mod_upper_bound (length items + 3) 4). lia. }
  apply Nat.le_antisymm.
  - apply lookup_ge_None. rewrite chunkBy_lookup by lia.
    destruct (Nat.ltb_spec (n * 4) (length items)); [lia|done].
  - destruct n as [|k]; [lia|].
    apply lookup_lt_is_Some. rewrite chunkBy_lookup by lia.
    destruct (Nat.ltb_spec (k * 4) (length items)); [eauto|lia].
Qed.

(** X10: for every chunk size of at least 1, [chunkBy] cuts the list
    into consecutive chunks: their concatenation is the list, there are
    ceil(length/size) of them, the chunk at index [j] holds the items from
    index j*size on, none is empty, and all but the last have exactly
    [size] items. *)
Theorem chunkBy_partition {T} (items : list T) (size : nat) :
  (1 <= size)%nat ->
  mjoin (chunkBy items size) = items
  /\ length (chunkBy items size) = ((length items + size - 1) / size)%nat
  /\ forall j chunk,
       chunkBy items size !! j = Some chunk ->
       chunk = take size (drop (j * size) items)
       /\ (1 <= length chunk <= size)%nat
       /\ ((S j < length (chunkBy items size))%nat -> length chunk = size).
Proof.
  intros Hsize.
  set (n := ((length items + size - 1) / size)%nat).
  assert (Hn : (size * n <= length items + size - 1 < size * n + size)%nat).
  { subst n. pose proof (Nat.div_mod_eq (length items + size - 1) size).
    pose proof (Nat.mod_upper_bound (length items + size - 1) size). lia. }
  assert (Hlen : length (chunkBy items size) = n).
  { apply Nat.le_antisymm.
    - apply lookup_ge_None. rewrite chunkBy_lookup by done.
      destruct (Nat.ltb_spec (n * size) (length items)); [lia|done].
    - destruct n as [|k]; [lia|].
      apply lookup_lt_is_Some. rewrite chunkBy_lookup by done.
      destruct (Nat.ltb_spec (k * size) (length items)); [eauto|lia]. }
  split; [|split; [done|]].
  - unfold chunkBy. rewrite chunkByFrom_join by lia. apply drop_0.
  - intros j chunk Hj. rewrite Hlen.
    rewrite chunkBy_lookup in Hj by done.
    destruct (Nat.ltb_spec (j * size) (length items)) as [Hlt|]; [|done].
    injection Hj as <-. split; [done|].
    rewrite length_take, length_drop. split; [lia|].
    intros Hnext. nia.
Qed.

(** X10 at seven items cut by three. *)
Lemma chunkBy_partition_witness :
  mjoin (chunkBy [1; 2; 3; 4; 5; 6; 7] 3) = [1; 2; 3; 4; 5; 6; 7]
  /\ length (chunkBy [1; 2; 3; 4; 5; 6; 7] 3) = 3%nat.
Proof.
  pose proof (chunkBy_partition [1; 2; 3; 4; 5; 6; 7] 3 ltac:(lia))
    as (Hjoin & Hlen & _).
  split; [exact Hjoin|exact Hlen].
Defined.

(** ** Page content lemmas *)

Lemma list_ascii_of_string_app (a b : string) :
  list_ascii_of_string (a +:+ b)
  = list_ascii_of_string a ++ list_ascii_of_string b.
Proof.
  induction a as [|c a IH]; [done|].
  change (list_ascii_of_string (String c a +:+ b))
    with (c :: list_ascii_of_string (a +:+ b)).
  by rewrite IH.
Qed.

Lemma isPaintImage_Do (a b : string) :
  isPaintImage (a +:+ b +:+ " Do") = true.
Proof.
  unfold isPaintImage. by rewrite !list_ascii_of_string_app, !reverse_app.
Qed.

Section PageFacts.

Variable toFixed4 : Q -> string.

Lemma isPaintImage_cmCommand row col :
  isPaintImage (cmCommand toFixed4 row col) = false.
Proof.
  unfold isPaintImage, cmCommand.
  by rewrite !list_ascii_of_string_app, !reverse_app.
Qed.

Lemma paint_guideCommands : filter isPaintImage (guideCommands toFixed4) = [].
Proof.
  unfold guideCommands. cbv zeta. cbn [app].
  repeat (rewrite filter_cons_False;
          [|unfold isPaintImage;
            rewrite ?list_ascii_of_string_app, ?reverse_app; cbn; tauto]).
  done.
Qed.

Lemma paint_copyCommands imageRef row col :
  filter isPaintImage (copyCommands toFixed4 imageRef row col)
  = ["/" +:+ name imageRef +:+ " Do"].
Proof.
  unfold copyCommands.
  rewrite filter_cons_False by (vm_compute; tauto).
  rewrite filter_cons_False by (rewrite isPaintImage_cmCommand; cbn; tauto).
  rewrite filter_cons_True
    by (rewrite isPaintImage_Do; cbn; tauto).
  by rewrite filter_cons_False by (vm_compute; tauto).
Qed.

(** The sixteen commands of a row: four copies, left to right. *)
Definition rowCopies (imageRefs : list PdfImageRef) (pageIndex row : nat)
  : list string :=
  match imageRefs !! (pageIndex * rowsPerPage LAYOUT + row)%nat with
  | Some imageRef =>
      copyCommands toFixed4 imageRef row 0
      ++ copyCommands toFixed4 imageRef row 1
      ++ copyCommands toFixed4 imageRef row 2
      ++ copyCommands toFixed4 imageRef row 3
  | None => []
  end.

Lemma rows_fold imageRefs pageIndex (rows : list nat) commands xs :
  (fold_left (fun st row => rowCommands toFixed4 imageRefs pageIndex row st)
             rows (commands, xs)).1
  = commands ++ mjoin (rowCopies imageRefs pageIndex <$> rows).
Proof.
  revert commands xs. induction rows as [|row rows IH]; intros commands xs.
  - cbn. by rewrite app_nil_r.
  - cbn [fold_left fmap list_fmap mjoin list_join].
    unfold rowCommands at 2, rowCopies at 1.
    destruct (imageRefs !! (pageIndex * rowsPerPage LAYOUT + row)%nat)
      as [imageRef|].
    + cbn [cols LAYOUT seq fold_left]. rewrite IH.
      by rewrite <- !app_assoc.
    + by rewrite IH.
Qed.

Lemma pageContent_commands {T} imageRefs showGuides pageIndex (rows : list T) :
  (pageContent toFixed4 imageRefs showGuides pageIndex rows).1
  = mjoin (rowCopies imageRefs pageIndex <$> seq 0 (length rows))
    ++ (if showGuides then guideCommands toFixed4 else []).
Proof.
  unfold pageContent.
  pose proof (rows_fold imageRefs pageIndex (seq 0 (length rows)) [] [])
    as Hfold.
  destruct (fold_left _ _ _) as [commands xs]. cbn [fst] in *. subst commands.
  destruct showGuides; cbn [app]; by rewrite ?app_nil_r.
Qed.

Lemma length_rowCopies imageRefs pageIndex row imageRef :
  imageRefs !! (pageIndex * 4 + row)%nat = Some imageRef ->
  length (rowCopies imageRefs pageIndex row) = 16%nat
  /\ length (filter isPaintImage (rowCopies imageRefs pageIndex row)) = 4%nat.
Proof.
  intros Href. unfold rowCopies. cbn [rowsPerPage LAYOUT]. rewrite Href.
  split; [done|].
  by rewrite !filter_app, !paint_copyCommands.
Qed.

End PageFacts.

(** ** Claims on pagination *)

Lemma length_filter_join {A B} (P : A -> Prop) `{!forall x, Decision (P x)}
    (f : B -> list A) (l : list B) (n : nat) :
  Forall (fun x => length (filter P (f x)) = n) l ->
  length (filter P (mjoin (f <$> l))) = (n * length l)%nat.
Proof.
  induction 1 as [|x l Hx Hl IH]; [cbn; lia|].
  change (mjoin (f <$> x :: l)) with (f x ++ mjoin (f <$> l)).
  rewrite filter_app, length_app, Hx, IH. cbn [length]. lia.
Qed.

Section PaginationFacts.

Variable toFixed4 : Q -> string.
Variable inflateSync : Buffer -> Throws Buffer.
Variable deflateSync : Buffer -> Buffer.
Variable readFile : string -> Throws Buffer.

(** The first loop of [createPdf] leaves one image reference per tile. *)
Lemma embedTile_refs i tile builder imageRefs trace r trace' :
  embedTile inflateSync deflateSync readFile i tile (builder, imageRefs) trace
  = (Ok r, trace') ->
  length r.2 = S (length imageRefs).
Proof.
  unfold embedTile, mbind, IO_bind, emit, liftT, register, mret, IO_ret.
  destruct (readFile (Catalog.filePath tile)) as [file|e]; [|done].
  destruct (Png.parsePng inflateSync deflateSync file) as [parsed|e]; [|done].
  unfold mbind, IO_bind, emit, mret, IO_ret.
  destruct (Png.alphaDeflated parsed); intros [= <- _]; cbn [snd];
    rewrite length_app; cbn [length]; lia.
Qed.

Lemma embedTiles_refs tiles i st trace r trace' :
  forEachIO (embedTile inflateSync deflateSync readFile) i tiles st trace
  = (Ok r, trace') ->
  length r.2 = (length st.2 + length tiles)%nat.
Proof.
  revert i st trace. induction tiles as [|tile tiles IH]; intros i st trace.
  - cbn [forEachIO]. intros [= <- _]. cbn [length]. lia.
  - cbn [forEachIO]. unfold mbind at 1, IO_bind at 1.
    destruct (embedTile _ _ _ i tile st trace) as [[st'|e] trace1] eqn:He;
      [|done].
    intros Hrest. apply IH in Hrest. destruct st as [builder imageRefs].
    apply embedTile_refs in He. cbn [snd length] in *. lia.
Qed.

Lemma pageContent_paints (tiles : list Catalog.ParsedTileFile)
    (imageRefs : list PdfImageRef) (showGuides : bool) :
  (0 < length tiles)%nat ->
  length imageRefs = length tiles ->
  let pages := chunkBy tiles (rowsPerPage LAYOUT) in
  length pages = ((length tiles + 3) / 4)%nat
  /\ mjoin pages = tiles
  /\ forall pageIndex rows,
       pages !! pageIndex = Some rows ->
       rows = take 4 (drop (pageIndex * 4) tiles)
       /\ (1 <= length rows <= 4)%nat
       /\ let commands :=
            (pageContent toFixed4 imageRefs showGuides pageIndex rows).1 in
          length (filter isPaintImage commands) = (4 * length rows)%nat
          /\ forall row col,
               (row < length rows)%nat -> (col < cols LAYOUT)%nat ->
               exists imageRef,
                 imageRefs !! (pageIndex * 4 + row)%nat = Some imageRef
                 /\ commands !! (16 * row + 4 * col)%nat = Some "q"
                 /\ commands !! (16 * row + 4 * col + 1)%nat
                    = Some (cmCommand toFixed4 row col)
                 /\ commands !! (16 * row + 4 * col + 2)%nat
                    = Some ("/" +:+ name imageRef +:+ " Do")
                 /\ commands !! (16 * row + 4 * col + 3)%nat = Some "Q".
Proof.
  intros Hn Hrefs pages. subst pages. cbn [rowsPerPage LAYOUT].
  split; [apply chunkBy_length_4|].
  split.
  { unfold chunkBy. rewrite chunkByFrom_join by lia. apply drop_0. }
  intros pageIndex rows Hpage. rewrite chunkBy_lookup in Hpage by lia.
  destruct (Nat.ltb_spec (pageIndex * 4) (length tiles)) as [Hpi|];
    [|done].
  injection Hpage as <-.
  set (rows := take 4 (drop (pageIndex * 4) tiles)).
  assert (Hk : (1 <= length rows <= 4)%nat).
  { subst rows. rewrite length_take, length_drop. lia. }
  assert (Hin : (pageIndex * 4 + length rows <= length tiles)%nat).
  { subst rows. rewrite length_take, length_drop. lia. }
  split; [done|]. split; [done|]. cbv zeta.
  rewrite pageContent_commands.
  set (blocks := rowCopies toFixed4 imageRefs pageIndex
                   <$> seq 0 (length rows)).
  assert (Hrow : forall row, (row < length rows)%nat ->
            exists imageRef,
              imageRefs !! (pageIndex * 4 + row)%nat = Some imageRef).
  { intros row Hr. apply lookup_lt_is_Some. lia. }
  assert (Hblocks : Forall (fun l : list string => length l = 16%nat) blocks).
  { subst blocks. apply Forall_fmap, Forall_forall. intros row Hr.
    apply elem_of_seq in Hr. destruct (Hrow row) as [ref Href]; [lia|].
    by apply (length_rowCopies toFixed4 _ _ _ ref). }
  split.
  - rewrite filter_app, length_app.
    replace (length (filter isPaintImage
                       (if showGuides then guideCommands toFixed4 else [])))
      with 0%nat
      by (destruct showGuides; by rewrite ?paint_guideCommands).
    subst blocks. rewrite (length_filter_join _ _ _ 4).
    + rewrite length_seq. lia.
    + apply Forall_forall. intros row Hr. apply elem_of_seq in Hr.
      destruct (Hrow row) as [ref Href]; [lia|].
      by apply (length_rowCopies toFixed4 _ _ _ ref).
  - intros row col Hr Hc. cbn [cols LAYOUT] in Hc.
    destruct (Hrow row Hr) as [ref Href]. exists ref. split; [done|].
    assert (Hlook : forall i x, (i < 16)%nat ->
              rowCopies toFixed4 imageRefs pageIndex row !! i = Some x ->
              (mjoin blocks ++ (if showGuides then guideCommands toFixed4
                                else [])) !! (16 * row + i)%nat = Some x).
    { intros i x Hi Hx. apply lookup_app_l_Some.
      replace (16 * row + i)%nat with (row * 16 + i)%nat by lia.
      apply (join_lookup_Some_same_length' 16); [done..|].
      exists (rowCopies toFixed4 imageRefs pageIndex row). split; [|done].
      subst blocks. rewrite list_lookup_fmap, lookup_seq_lt by done. done. }
    rewrite <- !Nat.add_assoc.
    unfold rowCopies in Hlook. cbn [rowsPerPage LAYOUT] in Hlook.
    rewrite Href in Hlook.
    assert (col = 0 \/ col = 1 \/ col = 2 \/ col = 3)%nat
      as [->|[->|[->| ->]]] by lia;
      (repeat split; (apply Hlook; [cbn; lia|reflexivity])).
Qed.

End PaginationFacts.

(** Five tile files, each the 1x1 grey sample image. *)
Definition sampleFile (path : string) : Throws Buffer :=
  Ok (Png.PNG_SIGNATURE
      ++ Png.encodeChunks [Png.sample_IHDR; Png.sample_IDAT; Png.sample_IEND]).

(** [x.toFixed(4)] on an exact rational: the integer nearest to
    x * 10^4, the larger one of two that are equally near, printed with
    four digits after the point; a negative number prints as the minus
    sign and its magnitude. *)
Definition toFixed4_exact (x : Q) : string :=
  let numerator := Z.abs (Qnum x) in
  let denominator := Z.pos (Qden x) in
  let n := ((2 * 10000 * numerator + denominator) / (2 * denominator))%Z in
  (if (Qnum x <? 0)%Z then "-" else EmptyString)
  +:+ toString (Z.to_nat (n / 10000)) +:+ "."
  +:+ padStart (toString (Z.to_nat (n mod 10000))) 4 "0".

(** ** Claims on the run *)

(** A step that cannot throw. *)
Definition succeeds {A} (step : IO A) : Prop :=
  forall trace, exists a trace', step trace = (Ok a, trace').

Lemma succeeds_ret {A} (a : A) : succeeds (mret a).
Proof. intros trace. by exists a, trace. Qed.

Lemma succeeds_bind {A B} (step : IO A) (k : A -> IO B) :
  succeeds step -> (forall a, succeeds (k a)) -> succeeds (step ≫= k).
Proof.
  intros Hs Hk trace. destruct (Hs trace) as (a & trace' & Ha).
  destruct (Hk a trace') as (b & trace'' & Hb).
  exists b, trace''. unfold mbind, IO_bind. by rewrite Ha.
Qed.

Lemma succeeds_emit (e : Event) : succeeds (emit e).
Proof. intros trace. by eexists _, _. Qed.

Lemma succeeds_register (r : PdfBuilder * nat) : succeeds (register r).
Proof.
  unfold register. apply succeeds_bind; [apply succeeds_emit|].
  intros _. apply succeeds_ret.
Qed.

Lemma succeeds_forEachIO {X S} (body : nat -> X -> S -> IO S) xs :
  (forall i x st, succeeds (body i x st)) ->
  forall i st, succeeds (forEachIO body i xs st).
Proof.
  intros Hbody. induction xs as [|x xs IH]; intros i st; cbn [forEachIO].
  - apply succeeds_ret.
  - apply succeeds_bind; [apply Hbody|]. intros st'. apply IH.
Qed.

Section RunFacts.

Variable toFixed4 : Q -> string.
Variable inflateSync : Buffer -> Throws Buffer.
Variable deflateSync : Buffer -> Buffer.
Variable localeCompare : string -> string -> Z.
Variable path_join : string -> string -> string.
Variable path_resolve : string -> string.
Variable path_dirname : string -> string.
Variable readdir : string -> Throws (list Catalog.Dirent).
Variable readFile : string -> Throws Buffer.
Variable mkdir : string -> Throws unit.
Variable writeFile : string -> Buffer -> Throws unit.

Lemma succeeds_layoutPage imageRefs showGuides pagesId pageIndex rows st :
  succeeds (layoutPage toFixed4 imageRefs showGuides pagesId pageIndex rows st).
Proof.
  unfold layoutPage. destruct st as [builder pageIds].
  destruct (pageContent _ _ _ _ _) as [commands xObjectEntries].
  apply succeeds_bind; [apply succeeds_register|]. intros content.
  apply succeeds_bind; [apply succeeds_register|]. intros page.
  apply succeeds_ret.
Qed.

(** C9: when the scan of the input directory yields no file that matches
    the identity grammar, the run fails with the EmptyInput error and has
    done nothing but read the directory: no file read or decoded, no
    object registered, nothing serialised or written; and the layout
    step, from the page-tree placeholder to the serialisation, fails for
    no tile list. *)
Theorem main_empty_input_layout_total :
  (forall (options : CliOptions) (entries : list Catalog.Dirent)
          (trace : list Event),
      showHelp options = false ->
      readdir (path_resolve (inputDir options)) = Ok entries ->
      Catalog.findPngFiles localeCompare path_join
        (path_resolve (inputDir options)) entries = [] ->
      main toFixed4 inflateSync deflateSync localeCompare path_join
           path_resolve path_dirname readdir readFile mkdir writeFile
           options trace
      = (Err (ErrNoPngFiles (path_resolve (inputDir options))),
         trace ++ [EvReaddir (path_resolve (inputDir options))])
      /\ errorKind (ErrNoPngFiles (path_resolve (inputDir options)))
         = EmptyInput)
  /\
  (forall (builder : PdfBuilder) (imageRefs : list PdfImageRef)
          (tiles : list Catalog.ParsedTileFile) (showGuides : bool),
      tiles <> [] ->
      succeeds (layoutDocument toFixed4 builder imageRefs tiles showGuides)).
Proof.
  split.
  - intros options entries trace Hhelp Hdir Hnone. split; [|done].
    unfold main. rewrite Hhelp. unfold findPngFiles.
    unfold mbind, IO_bind, emit, liftT, mret, IO_ret.
    by rewrite Hdir, Hnone.
  - intros builder imageRefs tiles showGuides _. unfold layoutDocument.
    apply succeeds_bind; [apply succeeds_register|]. intros pages.
    apply succeeds_bind.
    { apply succeeds_forEachIO. intros. apply succeeds_layoutPage. }
    intros laid.
    apply succeeds_bind; [apply succeeds_emit|]. intros _.
    apply succeeds_bind; [apply succeeds_register|]. intros catalog.
    apply succeeds_bind; [apply succeeds_emit|]. intros _.
    intros trace. destruct (build_total catalog.2 catalog.1) as [out Hout].
    exists out, trace. unfold liftT. by rewrite Hout.
Qed.

End RunFacts.

(** C9 at a directory that holds one file, of another kind. *)
Lemma main_empty_input_layout_total_witness :
  main (fun _ => "0.0000") Zlib.inflateSync Zlib.deflateSync
       Catalog.codeCompare (fun dir name => dir +:+ "/" +:+ name)
       (fun path => path) (fun path => path)
       (fun _ => Ok [Catalog.mkDirent "notes.txt" true])
       (fun path => Err (ErrIO path)) (fun _ => Ok tt) (fun _ _ => Ok tt)
       (mkCliOptions "tiles" "out.pdf" false false) []
  = (Err (ErrNoPngFiles "tiles"), [EvReaddir "tiles"])
  /\ errorKind (ErrNoPngFiles "tiles") = EmptyInput.
Proof.
  apply (proj1 (main_empty_input_layout_total
                  (fun _ => "0.0000") Zlib.inflateSync Zlib.deflateSync
                  Catalog.codeCompare (fun dir name => dir +:+ "/" +:+ name)
                  (fun path => path) (fun path => path)
                  (fun _ => Ok [Catalog.mkDirent "notes.txt" true])
                  (fun path => Err (ErrIO path)) (fun _ => Ok tt)
                  (fun _ _ => Ok tt))
               (mkCliOptions "tiles" "out.pdf" false false)
               [Catalog.mkDirent "notes.txt" true] []).
  - reflexivity.
  - reflexivity.
  - reflexivity.
Defined.

(** ** Where the copies lie *)

(** The lower left corner of the copy in column [col] of row [row]:
    [x] and [y] of the inner loops of [createPdf]. *)
Definition cellX (col : nat) : Q :=
  (marginLeftPt + inject_Z (Z.of_nat col) * (cellWidthPt + gapPt))%Q.

Definition cellY (row : nat) : Q :=
  (pageHeightPt - marginTopPt - cellHeightPt
   - inject_Z (Z.of_nat row) * (cellHeightPt + gapPt))%Q.

Lemma MM_TO_PT_value : (MM_TO_PT == 360 # 127)%Q.
Proof. reflexivity. Qed.

Lemma inject_nat_lt (a b : nat) :
  (a < b)%nat ->
  (0 <= inject_Z (Z.of_nat a)
   /\ inject_Z (Z.of_nat a) + 1 <= inject_Z (Z.of_nat b))%Q.
Proof.
  intros Hab. change 0%Q with (inject_Z 0). change 1%Q with (inject_Z 1).
  rewrite <- inject_Z_plus, <- !Zle_Qle. lia.
Qed.

Ltac layout_points :=
  unfold cellX, cellY, pageWidthPt, pageHeightPt, cellWidthPt, cellHeightPt,
    marginLeftPt, marginTopPt, gapPt, mmToPt;
  cbn [pageWidthMm pageHeightMm marginTopMm marginLeftMm cellWidthMm
       cellHeightMm gapMm LAYOUT];
  rewrite MM_TO_PT_value.

(** X13: the transform of a copy moves the unit square to the cell whose
    lower left corner is ([cellX col], [cellY row]) and whose sides are
    the cell width and height.  For the rows and columns of a page every
    cell lies inside the page, and two cells of different columns, or of
    different rows, are at least the gap apart: no two copies overlap
    (in exact arithmetic). *)
Theorem cells_inside_page_disjoint (toFixed4 : Q -> string) :
  (forall row col,
      cmCommand toFixed4 row col
      = toFixed4 cellWidthPt +:+ " 0 0 " +:+ toFixed4 cellHeightPt +:+ " "
        +:+ toFixed4 (cellX col) +:+ " " +:+ toFixed4 (cellY row) +:+ " cm")
  /\ (forall row col,
         (row < rowsPerPage LAYOUT)%nat -> (col < cols LAYOUT)%nat ->
         (0 <= cellX col /\ cellX col + cellWidthPt <= pageWidthPt
          /\ 0 <= cellY row /\ cellY row + cellHeightPt <= pageHeightPt)%Q)
  /\ (forall col col',
         (col < col')%nat ->
         (cellX col + cellWidthPt + gapPt <= cellX col')%Q)
  /\ (forall row row',
         (row < row')%nat ->
         (cellY row' + cellHeightPt + gapPt <= cellY row)%Q).
Proof.
  split; [done|]. split; [|split].
  - intros row col Hrow Hcol. cbn [rowsPerPage cols LAYOUT] in Hrow, Hcol.
    pose proof (inject_nat_lt row 4 Hrow) as [Hr0 Hr].
    pose proof (inject_nat_lt col 4 Hcol) as [Hc0 Hc].
    change (inject_Z (Z.of_nat 4)) with 4%Q in Hr, Hc.
    layout_points. repeat split; lra.
  - intros col col' Hlt. pose proof (inject_nat_lt col col' Hlt) as [H0 H1].
    layout_points. lra.
  - intros row row' Hlt. pose proof (inject_nat_lt row row' Hlt) as [H0 H1].
    layout_points. lra.
Qed.

(** ** What a run reads and writes *)

(** The events of decoding and of building the document: they touch
    neither the file system nor the console. *)
Definition internal (e : Event) : Prop :=
  match e with
  | EvParsePng _ | EvAddObject _ | EvSetObject _ | EvBuild => True
  | _ => False
  end.

(** The events that create or change something on disk. *)
Definition isOutput (e : Event) : Prop :=
  match e with
  | EvMkdir _ | EvWriteFile _ _ => True
  | _ => False
  end.

(** The paths of the files read, in the order of the reads. *)
Definition readPaths (trace : list Event) : list string :=
  omap (fun e => match e with EvReadFile path => Some path | _ => None end)
       trace.

(** A step that extends the trace by events of the kind [P] only. *)
Definition emitsOnly {A} (P : Event -> Prop) (step : IO A) : Prop :=
  forall trace r trace',
    step trace = (r, trace') ->
    exists evs, trace' = trace ++ evs /\ Forall P evs.

Lemma emitsOnly_ret {A} (P : Event -> Prop) (a : A) : emitsOnly P (mret a).
Proof. intros trace r trace' [= <- <-]. exists []. by rewrite app_nil_r. Qed.

Lemma emitsOnly_liftT {A} (P : Event -> Prop) (t : Throws A) :
  emitsOnly P (liftT t).
Proof. intros trace r trace' [= <- <-]. exists []. by rewrite app_nil_r. Qed.

Lemma emitsOnly_emit (P : Event -> Prop) (e : Event) :
  P e -> emitsOnly P (emit e).
Proof. intros He trace r trace' [= <- <-]. exists [e]. by repeat constructor. Qed.

Lemma emitsOnly_bind {A B} (P : Event -> Prop) (step : IO A) (k : A -> IO B) :
  emitsOnly P step -> (forall a, emitsOnly P (k a)) ->
  emitsOnly P (step ≫= k).
Proof.
  intros Hs Hk trace r trace'. unfold mbind, IO_bind.
  destruct (step trace) as [[a|e] trace1] eqn:Hstep.
  - intros Hrest. apply Hs in Hstep as (evs1 & -> & H1).
    apply Hk in Hrest as (evs2 & -> & H2).
    exists (evs1 ++ evs2). split; [by rewrite app_assoc|by apply Forall_app].
  - intros [= <- <-]. by apply Hs in Hstep.
Qed.

Lemma emitsOnly_register (P : Event -> Prop) (r : PdfBuilder * nat) :
  P (EvAddObject r.2) -> emitsOnly P (register r).
Proof.
  intros Hr. unfold register. apply emitsOnly_bind; [by apply emitsOnly_emit|].
  intros _. apply emitsOnly_ret.
Qed.

Lemma emitsOnly_forEachIO {X S} (P : Event -> Prop)
    (body : nat -> X -> S -> IO S) xs :
  (forall i x st, emitsOnly P (body i x st)) ->
  forall i st, emitsOnly P (forEachIO body i xs st).
Proof.
  intros Hbody. induction xs as [|x xs IH]; intros i st; cbn [forEachIO].
  - apply emitsOnly_ret.
  - apply emitsOnly_bind; [apply Hbody|]. intros st'. apply IH.
Qed.

Lemma readPaths_internal (evs : list Event) :
  Forall internal evs -> readPaths evs = [].
Proof.
  induction 1 as [|e evs He Hevs IH]; [done|].
  destruct e; try done; exact IH.
Qed.

Lemma readPaths_app (t1 t2 : list Event) :
  readPaths (t1 ++ t2) = readPaths t1 ++ readPaths t2.
Proof. apply omap_app. Qed.

(** Membership in a trace written with [::] and [++]. *)
Ltac membership H :=
  repeat first [rewrite elem_of_cons in H | rewrite elem_of_app in H
               | rewrite elem_of_nil in H].

Section TraceFacts.

Variable toFixed4 : Q -> string.
Variable inflateSync : Buffer -> Throws Buffer.
Variable deflateSync : Buffer -> Buffer.
Variable localeCompare : string -> string -> Z.
Variable path_join : string -> string -> string.
Variable path_resolve : string -> string.
Variable path_dirname : string -> string.
Variable readdir : string -> Throws (list Catalog.Dirent).
Variable readFile : string -> Throws Buffer.
Variable mkdir : string -> Throws unit.
Variable writeFile : string -> Buffer -> Throws unit.

(** The tile file can be read and decoded. *)
Definition decodes (tile : Catalog.ParsedTileFile) : Prop :=
  exists file parsed,
    readFile (Catalog.filePath tile) = Ok file
    /\ Png.parsePng inflateSync deflateSync file = Ok parsed.

(** Reading or decoding the tile file fails with [e]. *)
Definition failsWith (tile : Catalog.ParsedTileFile) (e : Error) : Prop :=
  readFile (Catalog.filePath tile) = Err e
  \/ exists file,
       readFile (Catalog.filePath tile) = Ok file
       /\ Png.parsePng inflateSync deflateSync file = Err e.

Lemma embedTile_run i tile st trace r trace' :
  embedTile inflateSync deflateSync readFile i tile st trace = (r, trace') ->
  exists evs,
    trace' = trace ++ EvReadFile (Catalog.filePath tile) :: evs
    /\ Forall internal evs
    /\ match r with
       | Ok _ => decodes tile
       | Err e => failsWith tile e
       end.
Proof.
  destruct st as [builder imageRefs].
  unfold embedTile, mbind, IO_bind, emit, liftT, register, mret, IO_ret,
    decodes, failsWith.
  destruct (readFile (Catalog.filePath tile)) as [file|e].
  { destruct (Png.parsePng inflateSync deflateSync file) as [parsed|e]
      eqn:Hparse.
    - unfold mbind, IO_bind, emit, mret, IO_ret.
      destruct (Png.alphaDeflated parsed); intros [= <- <-].
      + eexists [_; _; _]. rewrite <- !app_assoc.
        split; [done|]. split; [|by eexists _, _].
        repeat (apply Forall_cons_2; [exact I|]). apply Forall_nil_2.
      + eexists [_; _]. rewrite <- !app_assoc.
        split; [done|]. split; [|by eexists _, _].
        repeat (apply Forall_cons_2; [exact I|]). apply Forall_nil_2.
    - intros [= <- <-]. eexists [_].
      rewrite <- app_assoc. split; [done|]. split.
      + repeat (apply Forall_cons_2; [exact I|]). apply Forall_nil_2.
      + right. by eexists. }
  intros [= <- <-]. exists []. split; [done|]. split; [constructor|].
  by left.
Qed.

(** The first loop of [createPdf]: the tiles are read in order; the loop
    stops at the first one that fails. *)
Lemma embedTiles_run tiles i st trace r trace' :
  forEachIO (embedTile inflateSync deflateSync readFile) i tiles st trace
  = (r, trace') ->
  exists evs,
    trace' = trace ++ evs
    /\ Forall (fun e => ~ isOutput e) evs
    /\ match r with
       | Ok _ =>
           Forall decodes tiles
           /\ readPaths evs = Catalog.filePath <$> tiles
       | Err e =>
           exists k tile,
             tiles !! k = Some tile
             /\ Forall decodes (take k tiles)
             /\ failsWith tile e
             /\ readPaths evs = Catalog.filePath <$> take (S k) tiles
       end.
Proof.
  revert i st trace. induction tiles as [|tile tiles IH]; intros i st trace.
  - cbn [forEachIO]. intros [= <- <-]. exists []. by rewrite app_nil_r.
  - cbn [forEachIO]. unfold mbind at 1, IO_bind at 1.
    destruct (embedTile _ _ _ i tile st trace) as [[st'|e] trace1] eqn:He;
      apply embedTile_run in He as (evs1 & -> & Hint & Hr).
    + intros Hrest. apply IH in Hrest as (evs2 & -> & Hq & Hrest).
      exists (EvReadFile (Catalog.filePath tile) :: evs1 ++ evs2).
      split; [by rewrite <- app_assoc|]. split.
      { constructor; [by intros []|]. apply Forall_app. split; [|done].
        eapply Forall_impl; [exact Hint|]. by intros [] ? ?. }
      assert (Hpaths : forall rest,
                 readPaths (EvReadFile (Catalog.filePath tile)
                              :: evs1 ++ rest)
                 = Catalog.filePath tile :: readPaths rest).
      { intros rest.
        change (EvReadFile (Catalog.filePath tile) :: evs1 ++ rest)
          with ([EvReadFile (Catalog.filePath tile)] ++ evs1 ++ rest).
        by rewrite !readPaths_app, (readPaths_internal evs1). }
      destruct r as [a|e].
      * destruct Hrest as [Hall Hreads]. split; [by constructor|].
        by rewrite Hpaths, Hreads.
      * destruct Hrest as (k & tile' & Hk & Hbefore & Hfail & Hreads).
        exists (S k), tile'. split; [done|]. split; [by constructor|].
        split; [done|]. by rewrite Hpaths, Hreads.
    + intros [= <- <-].
      exists (EvReadFile (Catalog.filePath tile) :: evs1).
      split; [done|]. split.
      { constructor; [by intros []|].
        eapply Forall_impl; [exact Hint|]. by intros [] ? ?. }
      exists 0%nat, tile. split; [done|]. split; [constructor|].
      split; [done|].
      change (EvReadFile (Catalog.filePath tile) :: evs1)
        with ([EvReadFile (Catalog.filePath tile)] ++ evs1).
      by rewrite readPaths_app, (readPaths_internal evs1).
Qed.

Lemma layoutPage_internal imageRefs showGuides pagesId pageIndex rows st :
  emitsOnly internal
    (layoutPage toFixed4 imageRefs showGuides pagesId pageIndex rows st).
Proof.
  unfold layoutPage. destruct st as [builder pageIds].
  destruct (pageContent _ _ _ _ _) as [commands xObjectEntries].
  apply emitsOnly_bind; [by apply emitsOnly_register|]. intros content.
  apply emitsOnly_bind; [by apply emitsOnly_register|]. intros page.
  apply emitsOnly_ret.
Qed.

Lemma layoutDocument_internal builder imageRefs tiles showGuides :
  emitsOnly internal
    (layoutDocument toFixed4 builder imageRefs tiles showGuides).
Proof.
  unfold layoutDocument.
  apply emitsOnly_bind; [by apply emitsOnly_register|]. intros pages.
  apply emitsOnly_bind.
  { apply emitsOnly_forEachIO. intros. apply layoutPage_internal. }
  intros laid.
  apply emitsOnly_bind; [by apply emitsOnly_emit|]. intros _.
  apply emitsOnly_bind; [by apply emitsOnly_register|]. intros catalog.
  apply emitsOnly_bind; [by apply emitsOnly_emit|]. intros _.
  apply emitsOnly_liftT.
Qed.

Lemma layoutDocument_returns builder imageRefs tiles showGuides :
  succeeds (layoutDocument toFixed4 builder imageRefs tiles showGuides).
Proof.
  unfold layoutDocument.
  apply succeeds_bind; [apply succeeds_register|]. intros pages.
  apply succeeds_bind.
  { apply succeeds_forEachIO. intros. apply succeeds_layoutPage. }
  intros laid.
  apply succeeds_bind; [apply succeeds_emit|]. intros _.
  apply succeeds_bind; [apply succeeds_register|]. intros catalog.
  apply succeeds_bind; [apply succeeds_emit|]. intros _.
  intros trace. destruct (build_total catalog.2 catalog.1) as [out Hout].
  exists out, trace. unfold liftT. by rewrite Hout.
Qed.

Lemma createPdf_run tiles showGuides trace r trace' :
  createPdf toFixed4 inflateSync deflateSync readFile tiles showGuides trace
  = (r, trace') ->
  exists evs,
    trace' = trace ++ evs
    /\ Forall (fun e => ~ isOutput e) evs
    /\ match r with
       | Ok _ =>
           Forall decodes tiles
           /\ readPaths evs = Catalog.filePath <$> tiles
       | Err e =>
           exists k tile,
             tiles !! k = Some tile
             /\ Forall decodes (take k tiles)
             /\ failsWith tile e
             /\ readPaths evs = Catalog.filePath <$> take (S k) tiles
       end.
Proof.
  unfold createPdf. unfold mbind at 1, IO_bind at 1.
  destruct (forEachIO _ 0 tiles (newPdfBuilder, []) trace)
    as [[embedded|e] trace1] eqn:Hembed;
    apply embedTiles_run in Hembed as (evs1 & -> & Hq1 & Hr).
  - intros Hlayout.
    destruct (layoutDocument_returns embedded.1 embedded.2 tiles showGuides
                (trace ++ evs1)) as (pdf & trace2 & Hok).
    rewrite Hok in Hlayout. injection Hlayout as <- <-.
    apply layoutDocument_internal in Hok as (evs2 & -> & Hint).
    exists (evs1 ++ evs2). split; [by rewrite app_assoc|]. split.
    { apply Forall_app. split; [done|].
      eapply Forall_impl; [exact Hint|]. by intros [] ? ?. }
    destruct Hr as [Hall Hreads]. split; [done|].
    by rewrite readPaths_app, (readPaths_internal evs2), app_nil_r.
  - intros [= <- <-]. by exists evs1.
Qed.

(** X11: [createPdf] reads the tile files in catalog order, each once,
    and stops at the first that cannot be read or decoded, failing with
    that tile's error; when every tile decodes it returns a document.
    It never creates a directory or writes a file. *)
Theorem createPdf_reads_in_order (tiles : list Catalog.ParsedTileFile)
    (showGuides : bool) (r : Throws Buffer) (trace : list Event) :
  createPdf toFixed4 inflateSync deflateSync readFile tiles showGuides []
  = (r, trace) ->
  Forall (fun e => ~ isOutput e) trace
  /\ match r with
     | Ok _ =>
         Forall decodes tiles
         /\ readPaths trace = Catalog.filePath <$> tiles
     | Err e =>
         exists k tile,
           tiles !! k = Some tile
           /\ Forall decodes (take k tiles)
           /\ failsWith tile e
           /\ readPaths trace = Catalog.filePath <$> take (S k) tiles
     end.
Proof.
  intros Hrun. apply createPdf_run in Hrun as (evs & -> & Hq & Hr). done.
Qed.

(** X12: a run writes the whole document or nothing.  If the trace of
    [main] holds a directory creation or a file write, then the directory
    was listed, every catalogued tile was read and decoded, and
    [createPdf] returned a document; the only file written is the output
    file, and what is written is that document. *)
Theorem main_writes_whole_document (options : CliOptions)
    (r : Throws unit) (trace : list Event) :
  main toFixed4 inflateSync deflateSync localeCompare path_join
       path_resolve path_dirname readdir readFile mkdir writeFile
       options [] = (r, trace) ->
  (exists e, e ∈ trace /\ isOutput e) ->
  exists entries pdf events,
    let dir := path_resolve (inputDir options) in
    let tiles := Catalog.findPngFiles localeCompare path_join dir entries in
    readdir dir = Ok entries
    /\ tiles <> []
    /\ Forall decodes tiles
    /\ createPdf toFixed4 inflateSync deflateSync readFile tiles
                 (showGuides options) [EvReaddir dir] = (Ok pdf, events)
    /\ forall path data,
         EvWriteFile path data ∈ trace ->
         path = path_resolve (outputFile options) /\ data = pdf.
Proof.
  unfold main. intros Hrun (e & He & Hout).
  destruct (showHelp options).
  { injection Hrun as <- <-.
    apply elem_of_cons in He as [->|He]; [done|].
    apply elem_of_cons in He as [->|He]; [done|].
    by apply elem_of_nil in He. }
  unfold findPngFiles in Hrun.
  unfold mbind at 1, IO_bind at 1 in Hrun.
  unfold mbind at 1, IO_bind at 1 in Hrun.
  unfold emit at 1 in Hrun. cbn [app] in Hrun.
  unfold mbind at 1, IO_bind at 1, liftT at 1 in Hrun.
  destruct (readdir (path_resolve (inputDir options))) as [entries|err].
  2:{ injection Hrun as <- <-.
      apply elem_of_cons in He as [->|He]; [done|].
      by apply elem_of_nil in He. }
  unfold mret at 1, IO_ret at 1 in Hrun.
  set (dir := path_resolve (inputDir options)) in *.
  set (tiles := Catalog.findPngFiles localeCompare path_join dir entries)
    in *.
  destruct (Nat.eqb_spec (length tiles) 0) as [Hnone|Hsome].
  { injection Hrun as <- <-.
    apply elem_of_cons in He as [->|He]; [done|].
    by apply elem_of_nil in He. }
  unfold mbind at 1, IO_bind at 1 in Hrun.
  destruct (createPdf _ _ _ _ tiles (showGuides options) [EvReaddir dir])
    as [[pdf|err] events] eqn:Hpdf.
  2:{ injection Hrun as <- <-.
      apply createPdf_run in Hpdf as (evs & -> & Hq & _).
      apply elem_of_cons in He as [->|He]; [done|].
      rewrite Forall_forall in Hq. by destruct (Hq e He). }
  exists entries, pdf, events. cbv zeta. fold dir. fold tiles.
  pose proof Hpdf as (evs & -> & Hq & Hall & _)%createPdf_run.
  split; [done|]. split; [by destruct tiles|]. split; [done|].
  split; [done|].
  intros path data Hw.
  assert (Hnot : EvWriteFile path data ∉ evs).
  { intros Hin. rewrite Forall_forall in Hq. by destruct (Hq _ Hin). }
  revert Hrun. unfold mbind, IO_bind, emit, liftT, mret, IO_ret.
  destruct (mkdir _);
    [|intros [= <- <-]; membership Hw; destruct_or!; by simplify_eq].
  destruct (writeFile _ _);
    [|intros [= <- <-]; membership Hw; destruct_or!; by simplify_eq].
  destruct (showGuides options); intros [= <- <-]; membership Hw;
    destruct_or!; by simplify_eq.
Qed.

End TraceFacts.

(** X11 at two tile files, each the 1x1 sample image. *)
Lemma createPdf_reads_in_order_witness :
  let tiles := [Catalog.mkTileFile "t/1m.png" "1m";
                Catalog.mkTileFile "t/5z.png" "5z"] in
  exists pdf trace,
    createPdf (fun _ => "0.0000") Zlib.inflateSync Zlib.deflateSync
              sampleFile tiles false [] = (Ok pdf, trace)
    /\ readPaths trace = ["t/1m.png"; "t/5z.png"].
Proof.
  intros tiles.
  destruct (createPdf (fun _ => "0.0000") Zlib.inflateSync Zlib.deflateSync
                      sampleFile tiles false [])
    as [[pdf|e] trace] eqn:Hrun; [|vm_compute in Hrun; discriminate].
  exists pdf, trace. split; [reflexivity|].
  exact (proj2 (proj2 (createPdf_reads_in_order _ _ _ _ tiles false
                         (Ok pdf) trace Hrun))).
Defined.

(** X12 at a directory that holds one tile file. *)
Lemma main_writes_whole_document_witness :
  let tiles := [Catalog.mkTileFile "tiles/1m.png" "1m"] in
  let run :=
    main (fun _ => "0.0000") Zlib.inflateSync Zlib.deflateSync
         Catalog.codeCompare (fun dir name => dir +:+ "/" +:+ name)
         (fun path => path) (fun path => path)
         (fun _ => Ok [Catalog.mkDirent "1m.png" true])
         sampleFile (fun _ => Ok tt) (fun _ _ => Ok tt)
         (mkCliOptions "tiles" "out.pdf" false false) [] in
  exists pdf events,
    createPdf (fun _ => "0.0000") Zlib.inflateSync Zlib.deflateSync
              sampleFile tiles false [EvReaddir "tiles"] = (Ok pdf, events)
    /\ forall path data,
         EvWriteFile path data ∈ run.2 -> path = "out.pdf" /\ data = pdf.
Proof.
  intros tiles run.
  destruct run as [r trace] eqn:Hrun. subst run.
  assert (Hout : exists e, e ∈ trace /\ isOutput e).
  { exists (EvMkdir "out.pdf"). split; [|exact I].
    apply (f_equal snd) in Hrun. cbn [snd] in Hrun. subst trace.
    apply list_elem_of_In. vm_compute.
    repeat (first [left; reflexivity|right]). }
  destruct (main_writes_whole_document _ _ _ _ _ _ _ _ _ _ _ _ _ _ Hrun Hout)
    as (entries & pdf & events & Hdir & _ & _ & Hpdf & Hw).
  injection Hdir as <-.
  exists pdf, events. split; [exact Hpdf|exact Hw].
Defined.

(** ** The objects of the document *)

Section DocumentFacts.

Variable toFixed4 : Q -> string.

(** The body [addStreamObject] registers. *)
Definition streamBody (dict : string) (data : Buffer) : Buffer :=
  Buffer_from (dict +:+ LF +:+ "stream" +:+ LF) ++ data
  ++ Buffer_from (LF +:+ "endstream").

(** The content stream and the page object of the page [pageIndex]. *)
Definition contentBody (imageRefs : list PdfImageRef) (showGuides : bool)
    (pageIndex : nat) (rows : list Catalog.ParsedTileFile) : Buffer :=
  let contentData :=
    Buffer_from
      (join LF (pageContent toFixed4 imageRefs showGuides pageIndex rows).1
       +:+ LF) in
  streamBody ("<< /Length " +:+ toString (length contentData) +:+ " >>")
             contentData.

Definition pageBody (imageRefs : list PdfImageRef) (showGuides : bool)
    (pagesId pageIndex : nat) (rows : list Catalog.ParsedTileFile)
    (contentId : nat) : Buffer :=
  Buffer_from
    ("<< /Type /Page /Parent " +:+ toString pagesId
     +:+ " 0 R /MediaBox [0 0 " +:+ toFixed4 pageWidthPt +:+ " "
     +:+ toFixed4 pageHeightPt
     +:+ "] /Resources << /XObject << "
     +:+ join " " (pageContent toFixed4 imageRefs showGuides pageIndex rows).2
     +:+ " >> >> /Contents " +:+ toString contentId +:+ " 0 R >>").

Definition pagesBody (pageIds : list nat) : Buffer :=
  Buffer_from
    ("<< /Type /Pages /Kids ["
     +:+ join " " ((fun id => toString id +:+ " 0 R") <$> pageIds)
     +:+ "] /Count " +:+ toString (length pageIds) +:+ " >>").

Definition catalogBody (pagesId : nat) : Buffer :=
  Buffer_from ("<< /Type /Catalog /Pages " +:+ toString pagesId +:+ " 0 R >>").

(** The objects the page loop registers when [n] objects are there
    already: for each page its content stream, then its page object. *)
Fixpoint pageObjects (imageRefs : list PdfImageRef) (showGuides : bool)
    (pagesId pageIndex n : nat) (pages : list (list Catalog.ParsedTileFile))
  : PdfBuilder :=
  match pages with
  | [] => []
  | rows :: rest =>
      Some (contentBody imageRefs showGuides pageIndex rows)
      :: Some (pageBody imageRefs showGuides pagesId pageIndex rows (n + 1))
      :: pageObjects imageRefs showGuides pagesId (S pageIndex) (n + 2) rest
  end.

Lemma length_pageObjects imageRefs showGuides pagesId pageIndex n pages :
  length (pageObjects imageRefs showGuides pagesId pageIndex n pages)
  = (2 * length pages)%nat.
Proof.
  revert pageIndex n. induction pages as [|rows pages IH]; intros; [done|].
  cbn [pageObjects length]. rewrite IH. lia.
Qed.

Lemma lookup_pageObjects imageRefs showGuides pagesId pageIndex n pages k rows :
  pages !! k = Some rows ->
  pageObjects imageRefs showGuides pagesId pageIndex n pages !! (2 * k)%nat
  = Some (Some (contentBody imageRefs showGuides (pageIndex + k) rows))
  /\ pageObjects imageRefs showGuides pagesId pageIndex n pages
       !! (2 * k + 1)%nat
     = Some (Some (pageBody imageRefs showGuides pagesId (pageIndex + k) rows
                            (n + 2 * k + 1))).
Proof.
  revert pageIndex n k. induction pages as [|r pages IH]; intros pageIndex n k;
    [done|].
  destruct k as [|k]; cbn [lookup list_lookup pageObjects].
  - intros [= ->]. rewrite !Nat.add_0_r. done.
  - intros Hk. apply (IH (S pageIndex) (n + 2)%nat) in Hk as [H1 H2].
    replace (2 * S k)%nat with (S (S (2 * k))) by lia.
    replace (pageIndex + S k)%nat with (S pageIndex + k)%nat by lia.
    replace (n + S (S (2 * k)) + 1)%nat with (n + 2 + 2 * k + 1)%nat by lia.
    done.
Qed.

(** The loop over the pages, run from a builder of [length builder]
    objects. *)
Lemma layoutPages_run imageRefs showGuides pagesId pages :
  forall pageIndex builder pageIds trace,
  exists trace',
    forEachIO (layoutPage toFixed4 imageRefs showGuides pagesId) pageIndex
              pages (builder, pageIds) trace
    = (Ok (builder
             ++ pageObjects imageRefs showGuides pagesId pageIndex
                            (length builder) pages,
           pageIds
             ++ ((fun k => (length builder + 2 * k + 2)%nat)
                   <$> seq 0 (length pages))),
       trace').
Proof.
  induction pages as [|rows pages IH]; intros pageIndex builder pageIds trace.
  - exists trace. cbn. by rewrite !app_nil_r.
  - cbn [forEachIO]. unfold mbind at 1, IO_bind at 1.
    unfold layoutPage at 1, contentBody, pageBody, streamBody.
    destruct (pageContent toFixed4 imageRefs showGuides pageIndex rows)
      as [commands xObjectEntries] eqn:Hcontent.
    unfold register, addStreamObject, addRawObject, addObject,
      mbind, IO_bind, emit, mret, IO_ret.
    cbn [fst snd].
    match goal with
    | |- context [forEachIO _ _ pages (?b, ?ids) ?t] =>
        destruct (IH (S pageIndex) b ids t) as [trace' Hrest]
    end.
    exists trace'. rewrite Hrest. f_equal. f_equal.
    rewrite <- !app_assoc. cbn [app pageObjects].
    unfold contentBody, pageBody, streamBody.
    rewrite !length_app. cbn [length]. rewrite Hcontent. cbn [fst snd].
    f_equal. f_equal. cbn [seq fmap list_fmap]. f_equal; [lia|].
    rewrite <- fmap_S_seq, <- list_fmap_compose.
    apply list_fmap_ext. intros _ k _. cbn. lia.
Qed.

(** The array the layout step hands to [build]. *)
Definition documentObjects (builder : PdfBuilder)
    (imageRefs : list PdfImageRef) (showGuides : bool)
    (pages : list (list Catalog.ParsedTileFile)) : PdfBuilder :=
  let n := length builder in
  builder
  ++ [Some (pagesBody ((fun k => (n + 2 * k + 3)%nat)
                         <$> seq 0 (length pages)))]
  ++ pageObjects imageRefs showGuides (n + 1) 0 (n + 1) pages
  ++ [Some (catalogBody (n + 1))].

Lemma length_documentObjects builder imageRefs showGuides pages :
  length (documentObjects builder imageRefs showGuides pages)
  = (length builder + 2 * length pages + 2)%nat.
Proof.
  unfold documentObjects. rewrite !length_app, length_pageObjects.
  cbn [length]. lia.
Qed.

Lemma layoutDocument_array builder imageRefs tiles showGuides trace :
  let pages := chunkBy tiles (rowsPerPage LAYOUT) in
  exists trace',
    layoutDocument toFixed4 builder imageRefs tiles showGuides trace
    = (build (length builder + 2 * length pages + 2)
             (documentObjects builder imageRefs showGuides pages),
       trace').
Proof.
  intros pages. unfold layoutDocument. fold pages.
  unfold register, addPlaceholderObject, addRawObject, addObject,
    mbind, IO_bind, emit, mret, IO_ret, liftT. cbn [fst snd].
  set (n := length builder).
  set (placed := builder ++ [Some (Buffer_from "<< >>")]).
  assert (Hplaced : length placed = (n + 1)%nat).
  { subst placed n. rewrite length_app. cbn [length]. lia. }
  destruct (layoutPages_run imageRefs showGuides (length placed) pages 0
              placed [] (trace ++ [EvAddObject (length placed)]))
    as [trace1 Hloop].
  rewrite Hloop. cbn [fst snd app]. rewrite Hplaced.
  set (body := pageObjects imageRefs showGuides (n + 1) 0 (n + 1) pages).
  set (pageIds := (fun k => (n + 1 + 2 * k + 2)%nat)
                    <$> seq 0 (length pages)).
  fold (pagesBody pageIds). fold (catalogBody (n + 1)).
  assert (Hids : pageIds
                 = (fun k => (n + 2 * k + 3)%nat) <$> seq 0 (length pages)).
  { subst pageIds. apply list_fmap_ext. intros _ k _. lia. }
  assert (Hset : setObject (n + 1) (pagesBody pageIds) (placed ++ body)
                 = builder ++ [Some (pagesBody pageIds)] ++ body).
  { unfold setObject. rewrite Nat.add_1_r.
    destruct (Nat.ltb_spec n (length (placed ++ body))) as [_|Hge].
    2:{ rewrite length_app, Hplaced in Hge. lia. }
    subst placed. rewrite <- app_assoc.
    rewrite insert_app_r_alt by (subst n; lia).
    by replace (n - length builder)%nat with 0%nat by (subst n; lia). }
  rewrite Hset. eexists. f_equal. f_equal.
  - rewrite !length_app. cbn [length]. subst body.
    rewrite length_pageObjects. fold n. lia.
  - unfold documentObjects. fold n. fold body. rewrite <- Hids.
    by rewrite <- !app_assoc.
Qed.

(** X17: the objects of the document.  On a builder of [n] objects and
    a tile list of [P] pages, the layout step hands [build] an array of
    n + 2P + 2 objects and the id of the last one as root: the objects of
    the builder come first, unchanged; object n+1 is the page tree, whose
    kids are the page objects n+3, n+5, ... in page order and whose count
    is P; page [k] (from 0) has its content stream at id n+2k+2 and its
    page object at id n+2k+3, which names the page tree as parent and
    that stream as contents; the last object is the catalog, which names
    the page tree. *)
Theorem layoutDocument_objects (builder : PdfBuilder)
    (imageRefs : list PdfImageRef) (tiles : list Catalog.ParsedTileFile)
    (showGuides : bool) (trace : list Event) :
  let n := length builder in
  let pages := chunkBy tiles (rowsPerPage LAYOUT) in
  let P := length pages in
  exists (objects : PdfBuilder) (trace' : list Event),
    layoutDocument toFixed4 builder imageRefs tiles showGuides trace
    = (build (n + 2 * P + 2) objects, trace')
    /\ length objects = (n + 2 * P + 2)%nat
    /\ take n objects = builder
    /\ objects !! n
       = Some (Some (pagesBody ((fun k => (n + 2 * k + 3)%nat) <$> seq 0 P)))
    /\ (forall k rows,
           pages !! k = Some rows ->
           objects !! (n + 2 * k + 1)%nat
           = Some (Some (contentBody imageRefs showGuides k rows))
           /\ objects !! (n + 2 * k + 2)%nat
              = Some (Some (pageBody imageRefs showGuides (n + 1) k rows
                                     (n + 2 * k + 2))))
    /\ objects !! (n + 2 * P + 1)%nat = Some (Some (catalogBody (n + 1))).
Proof.
  intros n pages P.
  destruct (layoutDocument_array builder imageRefs tiles showGuides trace)
    as [trace' Hrun].
  exists (documentObjects builder imageRefs showGuides pages), trace'.
  split; [exact Hrun|]. split; [apply length_documentObjects|].
  unfold documentObjects. fold n. fold P.
  set (body := pageObjects imageRefs showGuides (n + 1) 0 (n + 1) pages).
  assert (Hbody : length body = (2 * P)%nat) by apply length_pageObjects.
  split; [|split; [|split]].
  - subst n. by rewrite take_app_length.
  - rewrite lookup_app_r by (subst n; lia).
    by replace (n - length builder)%nat with 0%nat by (subst n; lia).
  - intros k rows Hk.
    rewrite !(lookup_app_r builder) by (subst n; lia).
    replace (n + 2 * k + 1 - length builder)%nat with (S (2 * k))
      by (subst n; lia).
    replace (n + 2 * k + 2 - length builder)%nat with (S (2 * k + 1))
      by (subst n; lia).
    cbn [app].
    repeat match goal with
           | |- context [(?x :: ?l) !! S ?i] =>
               change ((x :: l) !! S i) with (l !! i)
           end.
    assert (Hin : (k < length pages)%nat)
      by (apply lookup_lt_is_Some; eauto).
    pose proof (lookup_pageObjects imageRefs showGuides (n + 1) 0 (n + 1)
                  pages k rows Hk) as [H1 H2].
    rewrite !lookup_app_l by (fold body; fold P in Hin; lia).
    fold body in H1, H2. rewrite H1, H2.
    split; [done|]. do 3 f_equal. lia.
  - rewrite lookup_app_r by (subst n; lia).
    replace (n + 2 * P + 1 - length builder)%nat with (S (2 * P))
      by (subst n; lia).
    cbn [app].
    change ((?x :: ?l) !! S ?i) with (l !! i).
    rewrite lookup_app_r by lia.
    by replace (2 * P - length body)%nat with 0%nat by lia.
Qed.

End DocumentFacts.

(** ** The image objects *)

Lemma Ok_pair_inj {A B T} (a a' : A) (b b' : B) (t t' : T) :
  (Ok (a, b), t) = (Ok (a', b'), t') -> a = a' /\ b = b' /\ t = t'.
Proof. by intros [= -> -> ->]. Qed.

Lemma Ok_result_inj {A T} (a a' : A) (t t' : T) :
  (Ok a, t) = (Ok a', t') -> a = a' /\ t = t'.
Proof. by intros [= -> ->]. Qed.

Section ImageObjectFacts.

Variable inflateSync : Buffer -> Throws Buffer.
Variable deflateSync : Buffer -> Buffer.
Variable readFile : string -> Throws Buffer.

(** The stream objects of an image, as the document format writes them:
    the dictionary, a line feed, "stream", a line feed, the deflated
    data, a line feed and "endstream".  The opacity plane is a grey image
    of eight bits a sample; the colour plane is an RGB image of the
    decoded bit depth, and names its soft mask when it has one. *)
Definition maskObject (width height : nat) (data : Buffer) : Buffer :=
  Buffer_from
    ("<< /Type /XObject /Subtype /Image /Width " +:+ toString width
     +:+ " /Height " +:+ toString height
     +:+ " /ColorSpace /DeviceGray /BitsPerComponent 8"
     +:+ " /Filter /FlateDecode /Length " +:+ toString (length data)
     +:+ " >>" +:+ LF +:+ "stream" +:+ LF)
  ++ data ++ Buffer_from (LF +:+ "endstream").

Definition colourObject (width height bits : nat) (smask : option nat)
    (data : Buffer) : Buffer :=
  Buffer_from
    ("<< /Type /XObject /Subtype /Image /Width " +:+ toString width
     +:+ " /Height " +:+ toString height
     +:+ " /ColorSpace /DeviceRGB /BitsPerComponent " +:+ toString bits
     +:+ " /Filter /FlateDecode /Length " +:+ toString (length data)
     +:+ match smask with
         | Some smaskId => " /SMask " +:+ toString smaskId +:+ " 0 R"
         | None => EmptyString
         end
     +:+ " >>" +:+ LF +:+ "stream" +:+ LF)
  ++ data ++ Buffer_from (LF +:+ "endstream").

(** In the object array [objects], [ref] is the image of the tile at
    index [i]: it is named Im(i+1), and its id is that of the stream
    object holding the deflated colour plane of the decoded file, with
    the decoded width, height and bit depth in its dictionary; when the
    file has an opacity plane, the object before it is the stream of that
    plane, and the image names it as its soft mask. *)
Definition imageOf (objects : PdfBuilder) (i : nat)
    (tile : Catalog.ParsedTileFile) (ref : PdfImageRef) : Prop :=
  name ref = "Im" +:+ toString (i + 1)
  /\ exists file parsed,
       readFile (Catalog.filePath tile) = Ok file
       /\ Png.parsePng inflateSync deflateSync file = Ok parsed
       /\ let width := Z.to_nat (Png.png_width parsed) in
          let height := Z.to_nat (Png.png_height parsed) in
          let bits := Z.to_nat (Png.png_bitDepth parsed) in
          match Png.alphaDeflated parsed with
          | Some alpha =>
              (2 <= objectId ref)%nat
              /\ objects !! (objectId ref - 2)%nat
                 = Some (Some (maskObject width height alpha))
              /\ objects !! (objectId ref - 1)%nat
                 = Some (Some (colourObject width height bits
                                 (Some (objectId ref - 1)%nat)
                                 (Png.rgbDeflated parsed)))
          | None =>
              (1 <= objectId ref)%nat
              /\ objects !! (objectId ref - 1)%nat
                 = Some (Some (colourObject width height bits None
                                 (Png.rgbDeflated parsed)))
          end.

Lemma imageDict_mask parsed (alpha : Buffer) :
  streamBody (imageDict parsed "DeviceGray" "8" (length alpha) EmptyString)
             alpha
  = maskObject (Z.to_nat (Png.png_width parsed))
               (Z.to_nat (Png.png_height parsed)) alpha.
Proof.
  unfold streamBody, maskObject, imageDict. do 2 f_equal.
  by rewrite !string_app_assoc.
Qed.

Lemma imageDict_colour parsed (smask : option nat) :
  streamBody
    (imageDict parsed "DeviceRGB"
       (toString (Z.to_nat (Png.png_bitDepth parsed)))
       (length (Png.rgbDeflated parsed))
       match smask with
       | Some smaskId => " /SMask " +:+ toString smaskId +:+ " 0 R"
       | None => EmptyString
       end)
    (Png.rgbDeflated parsed)
  = colourObject (Z.to_nat (Png.png_width parsed))
                 (Z.to_nat (Png.png_height parsed))
                 (Z.to_nat (Png.png_bitDepth parsed)) smask
                 (Png.rgbDeflated parsed).
Proof.
  unfold streamBody, colourObject, imageDict. do 2 f_equal.
  by rewrite !string_app_assoc.
Qed.

Lemma imageOf_app objects more i tile ref :
  imageOf objects i tile ref -> imageOf (objects ++ more) i tile ref.
Proof.
  intros (Hname & file & parsed & Hfile & Hparsed & Hobj).
  split; [done|]. exists file, parsed. split; [done|]. split; [done|].
  cbv zeta in *. destruct (Png.alphaDeflated parsed).
  - destruct Hobj as (? & H1 & H2).
    split; [done|]. split; by apply lookup_app_l_Some.
  - destruct Hobj as (? & H1). split; [done|]. by apply lookup_app_l_Some.
Qed.

Lemma embedTile_object i tile builder imageRefs trace builder' imageRefs'
    trace' :
  embedTile inflateSync deflateSync readFile i tile (builder, imageRefs) trace
  = (Ok (builder', imageRefs'), trace') ->
  exists added ref,
    builder' = builder ++ added
    /\ imageRefs' = imageRefs ++ [ref]
    /\ Forall is_Some added
    /\ imageOf builder' i tile ref
    /\ (length builder < objectId ref <= length builder')%nat.
Proof.
  unfold embedTile, imageOf, mbind, IO_bind, emit, liftT, register, mret,
    IO_ret.
  destruct (readFile (Catalog.filePath tile)) as [file|e] eqn:Hfile; [|done].
  destruct (Png.parsePng inflateSync deflateSync file) as [parsed|e]
    eqn:Hparsed; [|done].
  unfold mbind, IO_bind, emit, mret, IO_ret, addStreamObject, addObject.
  destruct (Png.alphaDeflated parsed) as [alpha|] eqn:Halpha;
    cbn [fst snd]; intros (<- & <- & _)%Ok_pair_inj.
  - eexists [_; _], _. rewrite <- !app_assoc. cbn [app].
    split; [done|]. split; [done|].
    split; [by repeat constructor|]. cbn [name objectId].
    rewrite !length_app. cbn [length]. split; [|lia].
    split; [done|]. exists file, parsed. rewrite Halpha.
    split; [done|]. split; [done|]. cbv zeta. split; [lia|].
    split.
    + rewrite lookup_app_r by lia.
      replace (length builder + 2 - 2 - length builder)%nat with 0%nat
        by lia.
      exact (f_equal (fun b => Some (Some b)) (imageDict_mask parsed alpha)).
    + rewrite lookup_app_r by lia.
      replace (length builder + 2 - 1 - length builder)%nat with 1%nat
        by lia.
      replace (length builder + 2 - 1)%nat with (length builder + 1)%nat
        by lia.
      exact (f_equal (fun b => Some (Some b))
               (imageDict_colour parsed (Some (length builder + 1)%nat))).
  - eexists [_], _. split; [done|]. split; [done|].
    split; [by repeat constructor|]. cbn [name objectId].
    rewrite !length_app. cbn [length]. split; [|lia].
    split; [done|]. exists file, parsed. rewrite Halpha.
    split; [done|]. split; [done|]. cbv zeta. split; [lia|].
    replace (length builder + 1 - 1)%nat with (length builder) by lia.
    rewrite lookup_app_r, Nat.sub_diag by lia.
    exact (f_equal (fun b => Some (Some b)) (imageDict_colour parsed None)).
Qed.

Lemma embedTiles_objects tiles :
  forall i builder imageRefs trace builder' imageRefs' trace',
    forEachIO (embedTile inflateSync deflateSync readFile) i tiles
              (builder, imageRefs) trace
    = (Ok (builder', imageRefs'), trace') ->
    exists added newRefs,
      builder' = builder ++ added
      /\ imageRefs' = imageRefs ++ newRefs
      /\ Forall is_Some added
      /\ length newRefs = length tiles
      /\ forall k tile ref,
           tiles !! k = Some tile -> newRefs !! k = Some ref ->
           imageOf builder' (i + k) tile ref
           /\ (length builder < objectId ref <= length builder')%nat.
Proof.
  induction tiles as [|tile tiles IH];
    intros i builder imageRefs trace builder' imageRefs' trace'.
  - cbn [forEachIO]. intros [= <- <- _]. exists [], [].
    by rewrite !app_nil_r.
  - cbn [forEachIO]. unfold mbind at 1, IO_bind at 1.
    destruct (embedTile _ _ _ i tile (builder, imageRefs) trace)
      as [[[builder1 imageRefs1]|e] trace1] eqn:Hstep; [|done].
    intros Hrest.
    apply embedTile_object in Hstep
      as (added1 & ref1 & -> & -> & Hsome1 & Himage1 & Hid1).
    apply IH in Hrest
      as (added2 & refs2 & -> & -> & Hsome2 & Hlen2 & Hrefs2).
    exists (added1 ++ added2), (ref1 :: refs2).
    rewrite <- !app_assoc. split; [done|]. split; [done|].
    split; [by apply Forall_app|]. split; [cbn [length]; by rewrite Hlen2|].
    intros [|k] tile' ref'; cbn [lookup list_lookup].
    + intros [= <-] [= <-]. rewrite Nat.add_0_r. split.
      * rewrite app_assoc. by apply imageOf_app.
      * rewrite !length_app in *. lia.
    + intros Htile Href. destruct (Hrefs2 k tile' ref' Htile Href)
        as [Himage Hid].
      replace (i + S k)%nat with (S i + k)%nat by lia.
      rewrite <- !app_assoc in Himage, Hid. split; [done|].
      rewrite !length_app in *. lia.
Qed.

(** X18: the images of the document.  When the first loop of [createPdf]
    succeeds on the tiles, it leaves one image reference for each tile,
    in order, and an object array without holes; the reference of tile
    [i] is named Im(i+1) and its id is the id of the stream object that
    holds the deflated colour plane of that tile's decoded file, with the
    decoded width, height and bit depth in its dictionary; a tile with an
    opacity plane has that plane in the stream object just before, which
    the image names as its soft mask. *)
Theorem embedTiles_image_objects (tiles : list Catalog.ParsedTileFile)
    (trace trace' : list Event) (builder : PdfBuilder)
    (imageRefs : list PdfImageRef) :
  forEachIO (embedTile inflateSync deflateSync readFile) 0 tiles
            (newPdfBuilder, []) trace
  = (Ok (builder, imageRefs), trace') ->
  length imageRefs = length tiles
  /\ Forall is_Some builder
  /\ forall i tile,
       tiles !! i = Some tile ->
       exists ref,
         imageRefs !! i = Some ref
         /\ imageOf builder i tile ref
         /\ (1 <= objectId ref <= length builder)%nat.
Proof.
  intros Hrun.
  apply embedTiles_objects in Hrun
    as (added & newRefs & -> & -> & Hsome & Hlen & Hrefs).
  cbn [app newPdfBuilder] in *. split; [done|]. split; [done|].
  intros i tile Htile.
  destruct (lookup_lt_is_Some_2 newRefs i) as [ref Href].
  { rewrite Hlen. by eapply lookup_lt_Some. }
  exists ref. split; [done|].
  destruct (Hrefs i tile ref Htile Href) as [Himage Hid].
  split; [done|]. cbn [length] in Hid. lia.
Qed.

End ImageObjectFacts.

(** X18 at one tile file, the 1x1 sample image. *)
Lemma embedTiles_image_objects_witness :
  let tiles := [Catalog.mkTileFile "t/1m.png" "1m"] in
  exists builder imageRefs trace',
    forEachIO (embedTile Zlib.inflateSync Zlib.deflateSync sampleFile) 0 tiles
              (newPdfBuilder, []) [] = (Ok (builder, imageRefs), trace')
    /\ length imageRefs = 1%nat
    /\ Forall is_Some builder.
Proof.
  intros tiles.
  destruct (forEachIO (embedTile Zlib.inflateSync Zlib.deflateSync sampleFile)
                      0 tiles (newPdfBuilder, []) [])
    as [[[builder imageRefs]|e] trace'] eqn:Hrun;
    [|vm_compute in Hrun; discriminate].
  exists builder, imageRefs, trace'. split; [reflexivity|].
  destruct (embedTiles_image_objects Zlib.inflateSync Zlib.deflateSync
              sampleFile tiles [] trace' builder imageRefs Hrun)
    as (Hlen & Hsome & _).
  split; [exact Hlen|exact Hsome].
Defined.

(** ** The document as a whole *)

Section DocumentRunFacts.

Variable toFixed4 : Q -> string.
Variable inflateSync : Buffer -> Throws Buffer.
Variable deflateSync : Buffer -> Buffer.
Variable readFile : string -> Throws Buffer.

Lemma embedTiles_count tiles :
  forall i builder imageRefs trace builder' imageRefs' trace',
    forEachIO (embedTile inflateSync deflateSync readFile) i tiles
              (builder, imageRefs) trace
    = (Ok (builder', imageRefs'), trace') ->
    (length builder + length tiles <= length builder'
     <= length builder + 2 * length tiles)%nat.
Proof.
  induction tiles as [|tile tiles IH];
    intros i builder imageRefs trace builder' imageRefs' trace'.
  - cbn [forEachIO]. intros [= <- _ _]. cbn [length]. lia.
  - cbn [forEachIO]. unfold mbind at 1, IO_bind at 1.
    destruct (embedTile _ _ _ i tile (builder, imageRefs) trace)
      as [[[builder1 imageRefs1]|e] trace1] eqn:Hstep; [|done].
    intros Hrest%IH. cbn [length].
    assert (length builder + 1 <= length builder1
            <= length builder + 2)%nat; [|lia].
    revert Hstep.
    unfold embedTile, mbind, IO_bind, emit, liftT, register, mret, IO_ret.
    destruct (readFile (Catalog.filePath tile)) as [file|e]; [|done].
    destruct (Png.parsePng inflateSync deflateSync file) as [parsed|e];
      [|done].
    unfold mbind, IO_bind, emit, mret, IO_ret, addStreamObject, addObject.
    destruct (Png.alphaDeflated parsed); cbn [fst snd];
      intros (<- & _ & _)%Ok_pair_inj; rewrite !length_app; cbn [length];
      lia.
Qed.

Lemma pageObjects_dense imageRefs showGuides pagesId pageIndex n pages :
  Forall is_Some
    (pageObjects toFixed4 imageRefs showGuides pagesId pageIndex n pages).
Proof.
  revert pageIndex n. induction pages as [|rows pages IH]; intros;
    cbn [pageObjects]; [constructor|].
  constructor; [by eexists|]. constructor; [by eexists|]. apply IH.
Qed.

Lemma documentObjects_dense builder imageRefs showGuides pages :
  Forall is_Some builder ->
  Forall is_Some (documentObjects toFixed4 builder imageRefs showGuides pages).
Proof.
  intros Hb. unfold documentObjects.
  apply Forall_app. split; [done|]. constructor; [by eexists|].
  apply Forall_app. split; [apply pageObjects_dense|].
  constructor; [by eexists|constructor].
Qed.

(** X20: the document [createPdf] returns.  It is the header
    "%PDF-1.4" with its line of four bytes 255, then for each object,
    under the ids 1, 2, ... in order, "{id} 0 obj", the body and
    "endobj", then the cross-reference section: "xref", "0 {count + 1}",
    the free entry, one row for each object that holds, in ten digits,
    the offset at which the block of that object starts, and the trailer
    with /Size the number of objects plus one, /Root the id of the last
    object and, after "startxref", the offset of the section.  The
    objects are the image objects (one or two for each tile), the page
    tree, a content stream and a page object for each page, and the
    catalog last, which names the page tree. *)
Theorem createPdf_document (tiles : list Catalog.ParsedTileFile)
    (showGuides : bool) (trace trace' : list Event) (pdf : Buffer) :
  createPdf toFixed4 inflateSync deflateSync readFile tiles showGuides trace
  = (Ok pdf, trace') ->
  let P := length (chunkBy tiles (rowsPerPage LAYOUT)) in
  exists (bodies : list Buffer) (offs : list nat) (n : nat),
    let header :=
      Buffer_from ("%PDF-1.4" +:+ LF) ++ [37; 255; 255; 255; 255; 10] in
    let blocks :=
      imap (fun i body =>
              Buffer_from (toString (i + 1) +:+ " 0 obj" +:+ LF)
              ++ body ++ Buffer_from (LF +:+ "endobj" +:+ LF)) bodies in
    pdf = header ++ mjoin blocks
          ++ Buffer_from ("xref" +:+ LF
                          +:+ "0 " +:+ toString (length bodies + 1) +:+ LF)
          ++ Buffer_from ("0000000000 65535 f " +:+ LF)
          ++ mjoin ((fun off =>
                       Buffer_from
                         ((string_of_list_ascii
                             (replicate (10 - String.length (toString off))
                                        "0"%char)
                           +:+ toString off)
                          +:+ " 00000 n " +:+ LF)) <$> offs)
          ++ Buffer_from ("trailer" +:+ LF
                          +:+ "<< /Size " +:+ toString (length bodies + 1)
                          +:+ " /Root " +:+ toString (length bodies)
                          +:+ " 0 R >>" +:+ LF
                          +:+ "startxref" +:+ LF
                          +:+ toString (length (header ++ mjoin blocks))
                          +:+ LF
                          +:+ "%%EOF" +:+ LF)
    /\ length offs = length bodies
    /\ (forall i off,
           offs !! i = Some off ->
           off = length (header ++ mjoin (take i blocks)))
    /\ (length tiles <= n <= 2 * length tiles)%nat
    /\ length bodies = (n + 2 * P + 2)%nat
    /\ bodies !! n
       = Some (pagesBody ((fun k => (n + 2 * k + 3)%nat) <$> seq 0 P))
    /\ bodies !! (n + 2 * P + 1)%nat = Some (catalogBody (n + 1)).
Proof.
  intros Hrun P. unfold createPdf in Hrun.
  unfold mbind at 1, IO_bind at 1 in Hrun.
  destruct (forEachIO _ 0 tiles (newPdfBuilder, []) trace)
    as [[[builder imageRefs]|e] trace1] eqn:Hembed; [|done].
  cbn [fst snd] in Hrun.
  pose proof (embedTiles_count _ _ _ _ _ _ _ _ Hembed) as Hcount.
  cbn [newPdfBuilder length] in Hcount.
  apply (embedTiles_objects inflateSync deflateSync readFile) in Hembed
    as (added & _ & -> & _ & Hsome & _).
  cbn [app newPdfBuilder] in *.
  destruct (layoutDocument_array toFixed4 added imageRefs tiles showGuides
              trace1) as [trace2 Harray].
  rewrite Harray in Hrun. fold P in Hrun.
  set (objects := documentObjects toFixed4 added imageRefs showGuides
                    (chunkBy tiles (rowsPerPage LAYOUT))) in *.
  assert (Hlen : length objects = (length added + 2 * P + 2)%nat)
    by apply length_documentObjects.
  destruct (dense_bodies objects) as [bodies Hbodies].
  { by apply documentObjects_dense. }
  assert (Hlb : length bodies = (length added + 2 * P + 2)%nat).
  { by rewrite <- Hlen, Hbodies, length_fmap. }
  rewrite Hbodies, <- Hlb, build_dense in Hrun.
  apply Ok_result_inj in Hrun as [<- _].
  set (offs := objOffsets (length pdfHeader) 0 bodies).
  assert (Hoffs : length offs = length bodies) by apply length_objOffsets.
  exists bodies, offs, (length added).
  rewrite <- Hoffs at 1 2. rewrite xref_bytes, objBlocks_imap.
  cbv zeta. rewrite <- pdfHeader_bytes.
  split; [|split; [done|split; [|split; [lia|split; [done|split]]]]].
  - unfold writtenXref, zeroPadded10, writtenObject.
    rewrite Hoffs, <- !app_assoc. reflexivity.
  - intros i off Hoff. apply objOffsets_lookup in Hoff.
    rewrite objBlocks_imap in Hoff. rewrite length_app. exact Hoff.
  - assert (Htree : objects !! length added
                    = Some (Some (pagesBody
                                    ((fun k => (length added + 2 * k + 3)%nat)
                                       <$> seq 0 P)))).
    { subst objects. unfold documentObjects. fold P.
      rewrite lookup_app_r by lia.
      by replace (length added - length added)%nat with 0%nat by lia. }
    rewrite Hbodies, list_lookup_fmap in Htree.
    destruct (bodies !! length added); [|done].
    by injection Htree as ->.
  - assert (Hcat : objects !! (length added + 2 * P + 1)%nat
                   = Some (Some (catalogBody (length added + 1)))).
    { subst objects. unfold documentObjects. fold P.
      rewrite lookup_app_r by lia.
      replace (length added + 2 * P + 1 - length added)%nat
        with (S (2 * P)) by lia.
      cbn [app]. change ((?x :: ?l) !! S ?i) with (l !! i).
      rewrite lookup_app_r by (rewrite length_pageObjects; lia).
      rewrite length_pageObjects. fold P.
      by replace (2 * P - 2 * P)%nat with 0%nat by lia. }
    rewrite Hbodies, list_lookup_fmap in Hcat.
    destruct (bodies !! (length added + 2 * P + 1)%nat); [|done].
    by injection Hcat as ->.
Qed.

Lemma contentBody_bytes (imageRefs : list PdfImageRef) (showGuides : bool)
    (pageIndex : nat) (rows : list Catalog.ParsedTileFile) :
  let commands :=
    (pageContent toFixed4 imageRefs showGuides pageIndex rows).1 in
  let data := Buffer_from (join LF commands +:+ LF) in
  contentBody toFixed4 imageRefs showGuides pageIndex rows
  = Buffer_from ("<< /Length " +:+ toString (length data) +:+ " >>" +:+ LF
                 +:+ "stream" +:+ LF)
    ++ data ++ Buffer_from (LF +:+ "endstream").
Proof.
  intros commands data. unfold contentBody, streamBody. fold commands.
  fold data. do 2 f_equal. by rewrite !string_app_assoc.
Qed.

(** C6: when [createPdf] returns a document for a tile list of length
    n > 0, the document is what [build] makes of an object array, rooted
    at its last object, in which the tiles are laid out on ceil(n/4)
    pages: the pages cut the list, in order, into groups of at most four
    tiles, and the content stream of page [pageIndex] is the lines of its
    commands; a page of k tiles carries exactly 4*k paint-image
    instructions, with or without guides; the tile at index [row] of the
    group is painted four times, in the columns 0 to 3, each copy by four
    commands: the save marker "q", the transform that scales to the cell
    (17 mm by 24 mm) and moves to the cell of row [row] (from the top
    margin of 20 mm downward, 24 + 4 mm a row) and column [col] (from the
    left margin of 10 mm, 17 + 4 mm a column), the paint-image
    instruction "/Im{g+1} Do" of the tile's image, [g] being the index of
    the tile in the list, and the restore marker "Q". *)
Theorem layout_pagination (tiles : list Catalog.ParsedTileFile)
    (showGuides : bool) (trace trace' : list Event) (pdf : Buffer) :
  (0 < length tiles)%nat ->
  createPdf toFixed4 inflateSync deflateSync readFile tiles showGuides trace
  = (Ok pdf, trace') ->
  exists (bodies : list Buffer) (n : nat)
         (pages : list (list Catalog.ParsedTileFile)),
    build (length bodies) (Some <$> bodies) = Ok pdf
    /\ length pages = ((length tiles + 3) / 4)%nat
    /\ mjoin pages = tiles
    /\ length bodies = (n + 2 * length pages + 2)%nat
    /\ forall pageIndex rows,
         pages !! pageIndex = Some rows ->
         rows = take 4 (drop (pageIndex * 4) tiles)
         /\ (1 <= length rows <= 4)%nat
         /\ exists commands : list string,
              let data := Buffer_from (join LF commands +:+ LF) in
              bodies !! (n + 2 * pageIndex + 1)%nat
              = Some (Buffer_from
                        ("<< /Length " +:+ toString (length data) +:+ " >>"
                         +:+ LF +:+ "stream" +:+ LF)
                      ++ data ++ Buffer_from (LF +:+ "endstream"))
              /\ length (filter isPaintImage commands)
                 = (4 * length rows)%nat
              /\ forall row col,
                   (row < length rows)%nat -> (col < 4)%nat ->
                   let pt := fun mm : Q => (mm * (72 / (254 # 10)))%Q in
                   let x :=
                     (pt 10 + inject_Z (Z.of_nat col) * (pt 17 + pt 4))%Q in
                   let y :=
                     (pt 148 - pt 20 - pt 24
                      - inject_Z (Z.of_nat row) * (pt 24 + pt 4))%Q in
                   commands !! (16 * row + 4 * col)%nat = Some "q"
                   /\ commands !! (16 * row + 4 * col + 1)%nat
                      = Some (toFixed4 (pt 17%Q) +:+ " 0 0 "
                              +:+ toFixed4 (pt 24%Q) +:+ " "
                              +:+ toFixed4 x +:+ " " +:+ toFixed4 y
                              +:+ " cm")
                   /\ commands !! (16 * row + 4 * col + 2)%nat
                      = Some ("/Im" +:+ toString (pageIndex * 4 + row + 1)
                              +:+ " Do")
                   /\ commands !! (16 * row + 4 * col + 3)%nat = Some "Q".
Proof.
  intros Hn Hrun. unfold createPdf in Hrun.
  unfold mbind at 1, IO_bind at 1 in Hrun.
  destruct (forEachIO _ 0 tiles (newPdfBuilder, []) trace)
    as [[[builder imageRefs]|e] trace1] eqn:Hembed; [|done].
  cbn [fst snd] in Hrun.
  apply (embedTiles_objects inflateSync deflateSync readFile) in Hembed
    as (added & newRefs & -> & -> & Hsome & Hrefs & Himages).
  cbn [app newPdfBuilder] in *.
  destruct (layoutDocument_array toFixed4 added newRefs tiles showGuides
              trace1) as [trace2 Harray].
  rewrite Harray in Hrun.
  set (pages := chunkBy tiles (rowsPerPage LAYOUT)) in *.
  set (objects := documentObjects toFixed4 added newRefs showGuides pages)
    in *.
  assert (Hlen : length objects = (length added + 2 * length pages + 2)%nat)
    by apply length_documentObjects.
  destruct (dense_bodies objects) as [bodies Hbodies].
  { by apply documentObjects_dense. }
  assert (Hlb : length bodies = (length added + 2 * length pages + 2)%nat).
  { by rewrite <- Hlen, Hbodies, length_fmap. }
  rewrite Hbodies, <- Hlb in Hrun.
  assert (Hbuild : build (length bodies) (Some <$> bodies) = Ok pdf).
  { destruct (build (length bodies) (Some <$> bodies)) as [out|e]; [|done].
    by apply Ok_result_inj in Hrun as [-> _]. }
  clear Hrun.
  destruct (pageContent_paints toFixed4 tiles newRefs showGuides Hn Hrefs)
    as (Hpages & Hjoin & Hpage).
  fold pages in Hpages, Hjoin, Hpage.
  exists bodies, (length added), pages.
  split; [done|]. split; [done|]. split; [done|]. split; [done|].
  intros pageIndex rows Hrows.
  destruct (Hpage pageIndex rows Hrows) as (Hcut & Hk & Hpaint & Hcopies).
  split; [done|]. split; [done|].
  exists (pageContent toFixed4 newRefs showGuides pageIndex rows).1.
  cbv zeta. split; [|split; [done|]].
  - assert (Hcontent :
      objects !! (length added + 2 * pageIndex + 1)%nat
      = Some (Some (contentBody toFixed4 newRefs showGuides pageIndex rows))).
    { subst objects. unfold documentObjects.
      rewrite lookup_app_r by lia.
      replace (length added + 2 * pageIndex + 1 - length added)%nat
        with (S (2 * pageIndex)) by lia.
      cbn [app]. change ((?x :: ?l) !! S ?i) with (l !! i).
      pose proof (lookup_lt_Some _ _ _ Hrows) as Hin.
      rewrite lookup_app_l by (rewrite length_pageObjects; lia).
      by destruct (lookup_pageObjects toFixed4 newRefs showGuides
                     (length added + 1) 0 (length added + 1) pages pageIndex
                     rows Hrows) as [-> _]. }
    rewrite Hbodies, list_lookup_fmap in Hcontent.
    destruct (bodies !! (length added + 2 * pageIndex + 1)%nat) as [body|];
      [|done].
    injection Hcontent as ->. f_equal. apply contentBody_bytes.
  - intros row col Hrow Hcol.
    destruct (Hcopies row col Hrow Hcol)
      as (imageRef & Href & Hq & Hcm & Hdo & HQ).
    assert (Hin : (pageIndex * 4 + row < length tiles)%nat).
    { rewrite <- Hrefs. by eapply lookup_lt_Some. }
    destruct (lookup_lt_is_Some_2 tiles _ Hin) as [tile Htile].
    destruct (Himages _ tile imageRef Htile Href) as [[Hname _] _].
    cbn [Nat.add] in Hname. rewrite Hname in Hdo.
    split; [done|]. split; [exact Hcm|]. split; [exact Hdo|done].
Qed.

End DocumentRunFacts.

(** X20 at one tile file, the 1x1 sample image: one image, the page
    tree, one content stream, one page and the catalog. *)
Lemma createPdf_document_witness :
  let tiles := [Catalog.mkTileFile "t/1m.png" "1m"] in
  exists pdf trace' (bodies : list Buffer) (offs : list nat),
    createPdf (fun _ => "0.0000") Zlib.inflateSync Zlib.deflateSync
              sampleFile tiles false [] = (Ok pdf, trace')
    /\ length offs = length bodies
    /\ (length bodies <= 6)%nat.
Proof.
  intros tiles.
  destruct (createPdf (fun _ => "0.0000") Zlib.inflateSync Zlib.deflateSync
                      sampleFile tiles false [])
    as [[pdf|e] trace'] eqn:Hrun; [|vm_compute in Hrun; discriminate].
  destruct (createPdf_document (fun _ => "0.0000") Zlib.inflateSync
              Zlib.deflateSync sampleFile tiles false [] trace' pdf Hrun)
    as (bodies & offs & n & _ & Hoffs & _ & Hn & Hlen & _).
  exists pdf, trace', bodies, offs. split; [reflexivity|].
  split; [exact Hoffs|].
  rewrite Hlen. cbn in Hn |- *. lia.
Defined.

(** C6 at five tiles: two pages, with 16 and 4 paint-image
    instructions. *)
Lemma layout_pagination_witness :
  let tiles := Catalog.tilesOf ["1m"; "9m"; "3p"; "5z"; "1z"] in
  exists pdf trace' (first second : list string),
    createPdf toFixed4_exact Zlib.inflateSync Zlib.deflateSync sampleFile
              tiles false [] = (Ok pdf, trace')
    /\ length (filter isPaintImage first) = 16%nat
    /\ length (filter isPaintImage second) = 4%nat
    /\ first !! 1%nat = Some "48.1890 0 0 68.0315 28.3465 294.8031 cm"
    /\ first !! 2%nat = Some "/Im1 Do"
    /\ second !! 13%nat = Some "48.1890 0 0 68.0315 206.9291 294.8031 cm"
    /\ second !! 14%nat = Some "/Im5 Do".
Proof.
  intros tiles.
  destruct (createPdf toFixed4_exact Zlib.inflateSync Zlib.deflateSync
                      sampleFile tiles false [])
    as [[pdf|e] trace'] eqn:Hrun; [|vm_compute in Hrun; discriminate].
  destruct (layout_pagination toFixed4_exact Zlib.inflateSync
              Zlib.deflateSync sampleFile tiles false [] trace' pdf
              ltac:(cbn; lia) Hrun)
    as (bodies & n & pages & _ & Hlen & Hjoin & _ & Hpages).
  destruct pages as [|rows0 [|rows1 [|? ?]]]; try discriminate Hlen.
  destruct (Hpages 0%nat rows0 eq_refl)
    as (-> & _ & first & _ & Hfirst & Hcopies0).
  destruct (Hpages 1%nat rows1 eq_refl)
    as (-> & _ & second & _ & Hsecond & Hcopies1).
  exists pdf, trace', first, second. split; [reflexivity|].
  split; [exact Hfirst|]. split; [exact Hsecond|].
  destruct (Hcopies0 0%nat 0%nat ltac:(cbn; lia) ltac:(lia))
    as (_ & Hcm0 & Hdo0 & _).
  destruct (Hcopies1 0%nat 3%nat ltac:(cbn; lia) ltac:(lia))
    as (_ & Hcm1 & Hdo1 & _).
  split; [exact Hcm0|]. split; [exact Hdo0|]. split; [exact Hcm1|exact Hdo1].
Defined.

(** ** The command line *)

Definition DEFAULT_INPUT_DIR : string := "./output".
Definition DEFAULT_OUTPUT_FILE : string := "./output/tile-layout.pdf".

Definition isInputFlag (arg : string) : bool :=
  bool_decide (arg = "--input") || bool_decide (arg = "-i").
Definition isOutputFlag (arg : string) : bool :=
  bool_decide (arg = "--output") || bool_decide (arg = "-o").
Definition isHelpFlag (arg : string) : bool :=
  bool_decide (arg = "--help") || bool_decide (arg = "-h").
Definition isGuidesFlag (arg : string) : bool :=
  bool_decide (arg = "--guides") || bool_decide (arg = "-g").

Definition setInputDir (dir : string) (o : CliOptions) : CliOptions :=
  {| inputDir := dir; outputFile := outputFile o; showHelp := showHelp o;
     showGuides := showGuides o |}.
Definition setOutputFile (file : string) (o : CliOptions) : CliOptions :=
  {| inputDir := inputDir o; outputFile := file; showHelp := showHelp o;
     showGuides := showGuides o |}.

(** The loop of [parseArgs] from the argument at hand on; [o] holds the
    four variables.  [args[++i]] past the end is [undefined], and
    [if (next)] passes over it as over the empty string. *)
Fixpoint parseArgsFrom (args : list string) (o : CliOptions) : CliOptions :=
  match args with
  | [] => o
  | arg :: rest =>
      if isInputFlag arg then
        match rest with
        | [] => o
        | next :: rest' =>
            parseArgsFrom rest'
              (if bool_decide (next = "") then o else setInputDir next o)
        end
      else if isOutputFlag arg then
        match rest with
        | [] => o
        | next :: rest' =>
            parseArgsFrom rest'
              (if bool_decide (next = "") then o else setOutputFile next o)
        end
      else
        parseArgsFrom rest
          {| inputDir := inputDir o; outputFile := outputFile o;
             showHelp := if isHelpFlag arg then true else showHelp o;
             showGuides := if isGuidesFlag arg then true else showGuides o |}
  end.

Definition parseArgs (args : list string) : CliOptions :=
  parseArgsFrom args
    {| inputDir := DEFAULT_INPUT_DIR; outputFile := DEFAULT_OUTPUT_FILE;
       showHelp := false; showGuides := false |}.

(** An argument that takes no value. *)
Definition plain (arg : string) : Prop :=
  isInputFlag arg = false /\ isOutputFlag arg = false.

Lemma parseArgsFrom_app (pre rest : list string) (o : CliOptions) :
  Forall plain pre ->
  parseArgsFrom (pre ++ rest) o = parseArgsFrom rest (parseArgsFrom pre o).
Proof.
  intros Hpre. revert o.
  induction Hpre as [|arg pre [Hi Ho] Hpre IH]; intros o; [done|].
  cbn [app parseArgsFrom]. rewrite Hi, Ho. apply IH.
Qed.

Lemma parseArgsFrom_plain (args : list string) (o : CliOptions) :
  Forall plain args ->
  parseArgsFrom args o
  = {| inputDir := inputDir o; outputFile := outputFile o;
       showHelp := showHelp o || existsb isHelpFlag args;
       showGuides := showGuides o || existsb isGuidesFlag args |}.
Proof.
  intros Hargs. revert o.
  induction Hargs as [|arg args [Hi Ho] Hargs IH]; intros o.
  - cbn. rewrite !orb_false_r. by destruct o.
  - cbn [parseArgsFrom existsb]. rewrite Hi, Ho, IH.
    cbn [inputDir outputFile showHelp showGuides].
    by destruct (isHelpFlag arg), (isGuidesFlag arg), (showHelp o),
      (showGuides o).
Qed.

Lemma existsb_flag (a b : string) (args : list string) :
  existsb (fun arg => bool_decide (arg = a) || bool_decide (arg = b)) args
  = true <-> a ∈ args \/ b ∈ args.
Proof.
  rewrite existsb_exists. split.
  - intros (arg & Hin%list_elem_of_In & Harg).
    apply orb_true_iff in Harg as [Harg|Harg];
      apply bool_decide_eq_true_1 in Harg; subst; by eauto.
  - intros [Hin|Hin]; [exists a|exists b];
      (split; [by apply list_elem_of_In|]).
    + by rewrite (bool_decide_eq_true_2 (a = a)).
    + rewrite (bool_decide_eq_true_2 (b = b)) by done. apply orb_true_r.
Qed.

(** X14: how [parseArgs] reads the command line.  Without -i/--input and
    -o/--output among the arguments, the directories are the defaults,
    help is shown exactly when --help or -h occurs and guides are drawn
    exactly when --guides or -g occurs, whatever else the arguments hold
    and in whatever order.  After arguments that take no value, an input
    or output option takes the next argument as its value, whatever it
    looks like, unless it is empty; a later value replaces an earlier
    one; and such an option at the end of the line, or before an empty
    argument, changes nothing. *)
Theorem parseArgs_reads_options :
  (forall args,
      Forall plain args ->
      inputDir (parseArgs args) = DEFAULT_INPUT_DIR
      /\ outputFile (parseArgs args) = DEFAULT_OUTPUT_FILE
      /\ (showHelp (parseArgs args) = true
          <-> "--help" ∈ args \/ "-h" ∈ args)
      /\ (showGuides (parseArgs args) = true
          <-> "--guides" ∈ args \/ "-g" ∈ args))
  /\ (forall pre flag value rest o,
         Forall plain pre -> value <> "" ->
         (isInputFlag flag = true ->
          parseArgsFrom (pre ++ flag :: value :: rest) o
          = parseArgsFrom rest (setInputDir value (parseArgsFrom pre o)))
         /\ (isOutputFlag flag = true ->
             parseArgsFrom (pre ++ flag :: value :: rest) o
             = parseArgsFrom rest
                 (setOutputFile value (parseArgsFrom pre o))))
  /\ (forall pre flag rest o,
         Forall plain pre ->
         isInputFlag flag = true \/ isOutputFlag flag = true ->
         parseArgsFrom (pre ++ [flag]) o = parseArgsFrom pre o
         /\ parseArgsFrom (pre ++ flag :: "" :: rest) o
            = parseArgsFrom rest (parseArgsFrom pre o)).
Proof.
  split; [|split].
  - intros args Hargs. unfold parseArgs.
    rewrite parseArgsFrom_plain by done.
    cbn [inputDir outputFile showHelp showGuides orb].
    split; [done|]. split; [done|]. split; apply existsb_flag.
  - intros pre flag value rest o Hpre Hvalue.
    rewrite parseArgsFrom_app by done. cbn [parseArgsFrom].
    rewrite (bool_decide_eq_false_2 (value = "")) by done.
    split; intros Hflag; rewrite Hflag; [done|].
    by destruct (isInputFlag flag) eqn:Hi;
      [unfold isInputFlag, isOutputFlag in *;
       repeat case_bool_decide; simplify_eq|].
  - intros pre flag rest o Hpre Hflag.
    rewrite !parseArgsFrom_app by done. cbn [parseArgsFrom].
    rewrite (bool_decide_eq_true_2 ("" = "")) by done.
    destruct (isInputFlag flag) eqn:Hi; [done|].
    destruct Hflag as [?|Ho]; [done|]. by rewrite Ho.
Qed.

Section HelpFacts.

Variable toFixed4 : Q -> string.
Variable inflateSync : Buffer -> Throws Buffer.
Variable deflateSync : Buffer -> Buffer.
Variable localeCompare : string -> string -> Z.
Variable path_join : string -> string -> string.
Variable path_resolve : string -> string.
Variable path_dirname : string -> string.
Variable readdir : string -> Throws (list Catalog.Dirent).
Variable readFile : string -> Throws Buffer.
Variable mkdir : string -> Throws unit.
Variable writeFile : string -> Buffer -> Throws unit.

(** X15: a command line that asks for help runs nothing else.  When
    --help or -h stands among arguments that take no value, the run on
    the parsed options prints the help text and exits with code 0: it
    lists no directory, reads no file and writes nothing, whatever the
    other arguments are. *)
Theorem main_help_only (args : list string) (trace : list Event) :
  Forall plain args ->
  "--help" ∈ args \/ "-h" ∈ args ->
  main toFixed4 inflateSync deflateSync localeCompare path_join
       path_resolve path_dirname readdir readFile mkdir writeFile
       (parseArgs args) trace
  = (Ok tt, trace ++ [EvLog LogHelp; EvExit 0]).
Proof.
  intros Hargs Hhelp. unfold main, parseArgs.
  rewrite parseArgsFrom_plain by done. cbn [showHelp orb].
  apply existsb_flag in Hhelp. unfold isHelpFlag. rewrite Hhelp.
  unfold mbind, IO_bind, emit. by rewrite <- app_assoc.
Qed.

End HelpFacts.

(** X15 at the command line [-g --help extra]. *)
Lemma main_help_only_witness :
  main (fun _ => "0.0000") Zlib.inflateSync Zlib.deflateSync
       Catalog.codeCompare (fun dir name => dir +:+ "/" +:+ name)
       (fun path => path) (fun path => path)
       (fun dir => Err (ErrIO dir)) (fun path => Err (ErrIO path))
       (fun _ => Ok tt) (fun _ _ => Ok tt)
       (parseArgs ["-g"; "--help"; "extra"]) []
  = (Ok tt, [EvLog LogHelp; EvExit 0]).
Proof.
  apply (main_help_only (fun _ => "0.0000") Zlib.inflateSync Zlib.deflateSync
           Catalog.codeCompare (fun dir name => dir +:+ "/" +:+ name)
           (fun path => path) (fun path => path)
           (fun dir => Err (ErrIO dir)) (fun path => Err (ErrIO path))
           (fun _ => Ok tt) (fun _ _ => Ok tt)
           ["-g"; "--help"; "extra"] []).
  - repeat constructor.
  - left. apply list_elem_of_further, list_elem_of_here.
Defined.

End Layout.

(** * Tile template: escaping of text *)

Module Template.

(** A text is kept as the list of its UTF-16 code units; [chars] gives
    the code units of a literal. *)
Abbreviation Text := (list N).

Definition chars (s : string) : Text := N_of_ascii <$> list_ascii_of_string s.

Definition AMP : N := 38.
Definition LT : N := 60.
Definition GT : N := 62.
Definition QUOT : N := 34.
Definition APOS : N := 39.

(** [text.replace(/c/g, replacement)] for a pattern of one character and
    a replacement without [$]. *)
Fixpoint replaceAll (c : N) (replacement text : Text) : Text :=
  match text with
  | [] => []
  | x :: rest =>
      if bool_decide (x = c) then replacement ++ replaceAll c replacement rest
      else x :: replaceAll c replacement rest
  end.

Definition escapeXml (text : Text) : Text :=
  replaceAll APOS (chars "&apos;")
    (replaceAll QUOT (chars "&quot;")
       (replaceAll GT (chars "&gt;")
          (replaceAll LT (chars "&lt;")
             (replaceAll AMP (chars "&amp;") text)))).

Example escapeXml_sample :
  escapeXml (chars "a<b & 'c'") = chars "a&lt;b &amp; &apos;c&apos;".
Proof. reflexivity. Qed.

(** The entity that stands for a character, or the character itself. *)
Definition escapeChar (c : N) : Text :=
  if bool_decide (c = AMP) then chars "&amp;"
  else if bool_decide (c = LT) then chars "&lt;"
  else if bool_decide (c = GT) then chars "&gt;"
  else if bool_decide (c = QUOT) then chars "&quot;"
  else if bool_decide (c = APOS) then chars "&apos;"
  else [c].

(** The characters with a meaning in markup. *)
Definition special (c : N) : Prop :=
  c = AMP \/ c = LT \/ c = GT \/ c = QUOT \/ c = APOS.

Lemma replaceAll_app c replacement (a b : Text) :
  replaceAll c replacement (a ++ b)
  = replaceAll c replacement a ++ replaceAll c replacement b.
Proof.
  induction a as [|x a IH]; [done|]. cbn [app replaceAll].
  case_bool_decide; by rewrite IH, ?app_assoc.
Qed.

Lemma escapeXml_app (a b : Text) :
  escapeXml (a ++ b) = escapeXml a ++ escapeXml b.
Proof. unfold escapeXml. by rewrite !replaceAll_app. Qed.

Lemma escapeXml_one (c : N) : escapeXml [c] = escapeChar c.
Proof.
  unfold escapeXml, escapeChar. cbn [replaceAll].
  destruct (decide (c = AMP)) as [->|Ha]; [done|].
  rewrite (bool_decide_eq_false_2 (c = AMP)) by done. cbn [replaceAll].
  destruct (decide (c = LT)) as [->|Hl]; [done|].
  rewrite (bool_decide_eq_false_2 (c = LT)) by done. cbn [replaceAll].
  destruct (decide (c = GT)) as [->|Hg]; [done|].
  rewrite (bool_decide_eq_false_2 (c = GT)) by done. cbn [replaceAll].
  destruct (decide (c = QUOT)) as [->|Hq]; [done|].
  rewrite (bool_decide_eq_false_2 (c = QUOT)) by done. cbn [replaceAll].
  destruct (decide (c = APOS)) as [->|Hp]; [done|].
  by rewrite (bool_decide_eq_false_2 (c = APOS)) by done.
Qed.

Lemma escapeXml_cons (c : N) (text : Text) :
  escapeXml (c :: text) = escapeChar c ++ escapeXml text.
Proof.
  change (c :: text) with ([c] ++ text).
  by rewrite escapeXml_app, escapeXml_one.
Qed.

(** The five entities and the plain characters, told apart. *)
Lemma escapeChar_cases (c : N) :
  (c = AMP /\ escapeChar c = chars "&amp;")
  \/ (c = LT /\ escapeChar c = chars "&lt;")
  \/ (c = GT /\ escapeChar c = chars "&gt;")
  \/ (c = QUOT /\ escapeChar c = chars "&quot;")
  \/ (c = APOS /\ escapeChar c = chars "&apos;")
  \/ (~ special c /\ escapeChar c = [c]).
Proof.
  unfold escapeChar, special. repeat case_bool_decide; subst; tauto.
Qed.

Ltac entity_chars :=
  unfold AMP, LT, GT, QUOT, APOS in *;
  change (chars "&amp;") with [38; 97; 109; 112; 59]%N in *;
  change (chars "&lt;") with [38; 108; 116; 59]%N in *;
  change (chars "&gt;") with [38; 103; 116; 59]%N in *;
  change (chars "&quot;") with [38; 113; 117; 111; 116; 59]%N in *;
  change (chars "&apos;") with [38; 97; 112; 111; 115; 59]%N in *.

Lemma escapeXml_inj (a b : Text) :
  escapeXml a = escapeXml b -> a = b.
Proof.
  revert b. induction a as [|x a IH]; intros [|y b].
  - done.
  - rewrite escapeXml_cons.
    destruct (escapeChar_cases y)
      as [[_ ->]|[[_ ->]|[[_ ->]|[[_ ->]|[[_ ->]|[_ ->]]]]]];
      discriminate.
  - rewrite escapeXml_cons.
    destruct (escapeChar_cases x)
      as [[_ ->]|[[_ ->]|[[_ ->]|[[_ ->]|[[_ ->]|[_ ->]]]]]];
      discriminate.
  - rewrite !escapeXml_cons.
    destruct (escapeChar_cases x)
      as [[-> ->]|[[-> ->]|[[-> ->]|[[-> ->]|[[-> ->]|[Hx ->]]]]]];
      destruct (escapeChar_cases y)
        as [[-> ->]|[[-> ->]|[[-> ->]|[[-> ->]|[[-> ->]|[Hy ->]]]]]];
      unfold special in *; entity_chars; cbn [app];
      intros Heq; try discriminate;
      try (injection Heq as Heq; f_equal; by apply IH);
      try (injection Heq as -> _; tauto);
      try (injection Heq as <- _; tauto).
    injection Heq as -> Heq. f_equal. by apply IH.
Qed.

(** X16: [escapeXml], five replacements one after the other, is the
    replacement of every character by its entity at once: an ampersand
    written by an earlier step is not escaped again by a later one, since
    the ampersand is replaced first.  Hence escaping commutes with
    concatenation, leaves a text without the five characters as it is,
    writes none of the characters <, >, double quote and apostrophe, and
    loses nothing: texts with the same escaped form are equal. *)
Theorem escapeXml_entities :
  (forall text, escapeXml text = text ≫= escapeChar)
  /\ (forall a b, escapeXml (a ++ b) = escapeXml a ++ escapeXml b)
  /\ (forall text, Forall (fun c => ~ special c) text -> escapeXml text = text)
  /\ (forall text c,
         c ∈ escapeXml text ->
         c <> LT /\ c <> GT /\ c <> QUOT /\ c <> APOS)
  /\ (forall a b, escapeXml a = escapeXml b -> a = b).
Proof.
  split; [|split; [|split; [|split]]].
  - induction text as [|c text IH]; [done|].
    rewrite escapeXml_cons, IH. done.
  - apply escapeXml_app.
  - induction 1 as [|c text Hc Htext IH]; [done|].
    rewrite escapeXml_cons, IH.
    by destruct (escapeChar_cases c)
      as [[? _]|[[? _]|[[? _]|[[? _]|[[? _]|[_ ->]]]]]];
      [destruct Hc; unfold special; tauto..|].
  - induction text as [|x text IH]; intros c Hc; [by apply elem_of_nil in Hc|].
    rewrite escapeXml_cons in Hc. apply elem_of_app in Hc as [Hc|Hc];
      [|by apply IH].
    destruct (escapeChar_cases x)
      as [[_ Hx]|[[_ Hx]|[[_ Hx]|[[_ Hx]|[[_ Hx]|[Hx1 Hx]]]]]];
      rewrite Hx in Hc; entity_chars;
      repeat (apply elem_of_cons in Hc as [->|Hc]; [by repeat split|]);
      try (by apply elem_of_nil in Hc).
    apply elem_of_cons in Hc as [->|Hc]; [|by apply elem_of_nil in Hc].
    unfold special in Hx1. repeat split; intros ->; tauto.
  - apply escapeXml_inj.
Qed.

(** ** Placeholders *)

Definition DOLLAR : N := 36.
Definition BACKTICK : N := 96.

Definition PLACEHOLDER_tileType : Text := chars "{{TILE_TYPE}}".
Definition PLACEHOLDER_serviceName : Text := chars "{{SERVICE_NAME}}".

(** [text.indexOf(pattern)]: the position of the first occurrence. *)
Fixpoint indexOf (pattern text : Text) : option nat :=
  if bool_decide (take (length pattern) text = pattern) then Some 0%nat
  else match text with
       | [] => None
       | _ :: rest => S <$> indexOf pattern rest
       end.

(** The replacement text of [String.prototype.replace] for a pattern
    that is a string: in the replacement, [$$] stands for a dollar sign,
    [$&] for the matched text, [$`] for the text before the match and
    [$'] for the text after it; a dollar sign before anything else stands
    for itself. *)
Fixpoint getSubstitution (matched before after replacement : Text) : Text :=
  match replacement with
  | [] => []
  | c :: rest =>
      if bool_decide (c = DOLLAR) then
        match rest with
        | [] => [c]
        | d :: rest' =>
            if bool_decide (d = DOLLAR)
            then DOLLAR :: getSubstitution matched before after rest'
            else if bool_decide (d = AMP)
            then matched ++ getSubstitution matched before after rest'
            else if bool_decide (d = BACKTICK)
            then before ++ getSubstitution matched before after rest'
            else if bool_decide (d = APOS)
            then after ++ getSubstitution matched before after rest'
            else c :: getSubstitution matched before after rest
        end
      else c :: getSubstitution matched before after rest
  end.

(** [text.replace(pattern, replacement)] for a pattern that is a string:
    the first occurrence only. *)
Definition replaceFirst (pattern replacement text : Text) : Text :=
  match indexOf pattern text with
  | None => text
  | Some pos =>
      let before := take pos text in
      let after := drop (pos + length pattern) text in
      before ++ getSubstitution pattern before after replacement ++ after
  end.

Definition replaceTileType (template tileType : Text) : Text :=
  replaceFirst PLACEHOLDER_tileType (escapeXml tileType) template.

Definition replaceServiceName (template serviceName : Text) : Text :=
  replaceFirst PLACEHOLDER_serviceName (escapeXml serviceName) template.

(** [pattern] does not occur in [text] at a position below [bound]. *)
Definition absentBelow (pattern text : Text) (bound : nat) : Prop :=
  forall k, (k < bound)%nat -> take (length pattern) (drop k text) <> pattern.

Lemma indexOf_absent (pattern text : Text) :
  absentBelow pattern text (S (length text)) -> indexOf pattern text = None.
Proof.
  induction text as [|x text IH]; intros Habs; cbn [indexOf].
  - rewrite bool_decide_eq_false_2; [done|]. apply (Habs 0%nat). cbn. lia.
  - rewrite bool_decide_eq_false_2 by (apply (Habs 0%nat); cbn; lia).
    rewrite IH; [done|]. intros k Hk. apply (Habs (S k)). cbn [length]. lia.
Qed.

Lemma indexOf_first (pattern before after : Text) :
  absentBelow pattern (before ++ pattern ++ after) (length before) ->
  indexOf pattern (before ++ pattern ++ after) = Some (length before).
Proof.
  induction before as [|x before IH]; intros Habs.
  - cbn [app length]. destruct (pattern ++ after) as [|y rest] eqn:Htext;
      cbn [indexOf]; rewrite <- Htext;
      by rewrite take_app_length, bool_decide_eq_true_2.
  - cbn [app indexOf length].
    rewrite bool_decide_eq_false_2 by (apply (Habs 0%nat); cbn; lia).
    rewrite IH; [done|]. intros k Hk. apply (Habs (S k)). cbn [length]. lia.
Qed.

Lemma getSubstitution_plain (matched before after replacement : Text) :
  DOLLAR ∉ replacement ->
  getSubstitution matched before after replacement = replacement.
Proof.
  induction replacement as [|c rest IH]; [done|].
  intros [Hc Hrest]%not_elem_of_cons. cbn [getSubstitution].
  rewrite bool_decide_eq_false_2 by done. by rewrite IH.
Qed.

Lemma escapeXml_no_dollar (text : Text) :
  DOLLAR ∉ text -> DOLLAR ∉ escapeXml text.
Proof.
  induction text as [|c text IH]; [done|].
  intros [Hc Htext]%not_elem_of_cons. rewrite escapeXml_cons.
  intros [Hin|Hin]%elem_of_app; [|by apply IH].
  destruct (escapeChar_cases c)
    as [[_ Hx]|[[_ Hx]|[[_ Hx]|[[_ Hx]|[[_ Hx]|[_ Hx]]]]]];
    rewrite Hx in Hin; unfold DOLLAR in *; entity_chars;
    repeat (apply elem_of_cons in Hin as [Hin|Hin]; [done|]);
    by apply elem_of_nil in Hin.
Qed.

Lemma replaceFirst_at (pattern replacement before after : Text) :
  absentBelow pattern (before ++ pattern ++ after) (length before) ->
  replaceFirst pattern replacement (before ++ pattern ++ after)
  = before ++ getSubstitution pattern before after replacement ++ after.
Proof.
  intros Habs. unfold replaceFirst. rewrite indexOf_first by done.
  cbv zeta. rewrite take_app_length.
  rewrite <- drop_drop, !drop_app_length. done.
Qed.

(** X21: [replaceTileType] and [replaceServiceName] put the escaped text
    at the first occurrence of their placeholder and leave the rest of
    the template as it is, provided the text holds no dollar sign; a
    template without the placeholder is returned unchanged.  A dollar
    sign in the text is read as a replacement pattern: for the text [$&]
    the placeholder is written back, followed by [amp;]. *)
Theorem replace_placeholder_first_occurrence :
  (forall template text,
      absentBelow PLACEHOLDER_tileType template (S (length template)) ->
      replaceTileType template text = template)
  /\ (forall template text,
         absentBelow PLACEHOLDER_serviceName template (S (length template)) ->
         replaceServiceName template text = template)
  /\ (forall before after text,
         absentBelow PLACEHOLDER_tileType
           (before ++ PLACEHOLDER_tileType ++ after) (length before) ->
         (DOLLAR ∉ text ->
          replaceTileType (before ++ PLACEHOLDER_tileType ++ after) text
          = before ++ escapeXml text ++ after)
         /\ replaceTileType (before ++ PLACEHOLDER_tileType ++ after)
              (chars "$&")
            = before ++ (PLACEHOLDER_tileType ++ chars "amp;") ++ after)
  /\ (forall before after text,
         absentBelow PLACEHOLDER_serviceName
           (before ++ PLACEHOLDER_serviceName ++ after) (length before) ->
         (DOLLAR ∉ text ->
          replaceServiceName (before ++ PLACEHOLDER_serviceName ++ after) text
          = before ++ escapeXml text ++ after)
         /\ replaceServiceName (before ++ PLACEHOLDER_serviceName ++ after)
              (chars "$&")
            = before ++ (PLACEHOLDER_serviceName ++ chars "amp;") ++ after).
Proof.
  split; [|split; [|split]].
  - intros template text Habs. unfold replaceTileType, replaceFirst.
    by rewrite indexOf_absent.
  - intros template text Habs. unfold replaceServiceName, replaceFirst.
    by rewrite indexOf_absent.
  - intros before after text Habs. unfold replaceTileType.
    rewrite !replaceFirst_at by done. split; [|done].
    intros Hdollar.
    by rewrite getSubstitution_plain by by apply escapeXml_no_dollar.
  - intros before after text Habs. unfold replaceServiceName.
    rewrite !replaceFirst_at by done. split; [|done].
    intros Hdollar.
    by rewrite getSubstitution_plain by by apply escapeXml_no_dollar.
Qed.

Example replaceTileType_sample :
  replaceTileType (chars "<text>{{TILE_TYPE}}</text> {{TILE_TYPE}}")
                  (chars "1<m")
  = chars "<text>1&lt;m</text> {{TILE_TYPE}}".
Proof. reflexivity. Qed.

End Template.
